(** * Skeleton, widths and arc-length normalisation of worm contours

    A shallow embedding of [movement_validation/prefeatures/pre_features.py]
    (classes [WormParsing] and [SkeletonCalculatorType1]).

    numpy arrays are lists; an array of shape (2,k) is a list of k points;
    Python exceptions are the [Raise] results of an error monad; the in-place
    updates of the caller's contour arrays are threaded through an explicit
    store.  The arithmetic of the code is kept behind the interface [NumOps],
    with two instances: IEEE binary64 ([PrimFloat], what numpy computes with)
    for running the code, and the real numbers for the properties the code
    has in exact arithmetic. *)

From Stdlib Require Import Floats.
From Stdlib Require Import List ZArith Bool Lia Reals Lra Sorted.
Import ListNotations.

Set Implicit Arguments.
Local Open Scope Z_scope.

(** ** Numbers *)

Class NumOps (F : Type) : Type := {
  of_Z : Z -> F;
  fadd : F -> F -> F;
  fsub : F -> F -> F;
  fmul : F -> F -> F;
  fdiv : F -> F -> F;
  fsqrt : F -> F;
  feqb : F -> F -> bool;
  fltb : F -> F -> bool;
  fleb : F -> F -> bool;
  ffloor : F -> Z;
  fceil : F -> Z
}.

(** A contour side: a numpy array of shape (2,k), kept as its k columns
    (so [np.rollaxis(a, 1)], of shape (k,2), is the same list). *)
Definition side (F : Type) : Type := list (F * F).
Definition matrix (F : Type) : Type := list (list F).

(** ** Python exceptions and indexing *)

Inductive exn : Type :=
| IndexError      (* an index outside an array *)
| ValueError      (* numpy shape mismatch, argmin of an empty array *)
| AttributeError  (* [None.shape] *)
| LibraryError    (* raised inside scipy's savgol_filter *)
| Breakpoint.     (* the [pdb.set_trace()] of h__getPartnersViaWalk *)

Inductive result (A : Type) : Type :=
| Ok (a : A)
| Raise (e : exn).
Arguments Ok {A} a.
Arguments Raise {A} e.

Definition bind {A B} (r : result A) (k : A -> result B) : result B :=
  match r with
  | Ok a => k a
  | Raise e => Raise e
  end.

Declare Scope result_scope.
Delimit Scope result_scope with result.
Notation "x <- r ;; k" := (bind r (fun x => k))
  (at level 61, r at next level, right associativity) : result_scope.
Notation "' p <- r ;; k" := (bind r (fun p => k))
  (at level 61, p pattern, r at next level, right associativity) : result_scope.
Local Open Scope result_scope.

(** The position an index [i] designates in an array of [n] elements:
    Python counts negative indices from the end. *)
Definition py_norm (n : nat) (i : Z) : option nat :=
  if 0 <=? i then (if i <? Z.of_nat n then Some (Z.to_nat i) else None)
  else if - Z.of_nat n <=? i then Some (Z.to_nat (Z.of_nat n + i))
  else None.

Definition py_get {A} (l : list A) (i : Z) : result A :=
  match py_norm (length l) i with
  | Some k => match nth_error l k with
              | Some x => Ok x
              | None => Raise IndexError
              end
  | None => Raise IndexError
  end.

Fixpoint upd {A} (k : nat) (x : A) (l : list A) : list A :=
  match l, k with
  | [], _ => []
  | _ :: t, O => x :: t
  | h :: t, S k' => h :: upd k' x t
  end.

Definition py_set {A} (l : list A) (i : Z) (x : A) : result (list A) :=
  match py_norm (length l) i with
  | Some k => Ok (upd k x l)
  | None => Raise IndexError
  end.

(** [l[lo:hi]]: bounds are counted from the end when negative, then clipped. *)
Definition py_clip (n : nat) (i : Z) : nat :=
  if i <? 0 then Z.to_nat (Z.max 0 (Z.of_nat n + i))
  else Nat.min n (Z.to_nat i).

Definition py_slice {A} (l : list A) (lo hi : Z) : list A :=
  let a := py_clip (length l) lo in
  let b := py_clip (length l) hi in
  firstn (b - a) (skipn a l).

(** [l[:hi]] and [l[lo:]]. *)
Definition py_upto {A} (l : list A) (hi : Z) : list A := py_slice l 0 hi.
Definition py_from {A} (l : list A) (lo : Z) : list A :=
  skipn (py_clip (length l) lo) l.

(** [d[i,j]] on a two-dimensional array. *)
Definition py_get2 {A} (d : list (list A)) (i j : Z) : result A :=
  row <- py_get d i ;; py_get row j.

(** [a[idx] = vals] for integer index arrays of equal length, in order. *)
Fixpoint py_set_many {A} (l : list A) (idx : list Z) (vals : list A)
  : result (list A) :=
  match idx, vals with
  | i :: idx', v :: vals' => l' <- py_set l i v ;; py_set_many l' idx' vals'
  | [], [] => Ok l
  | _, _ => Raise ValueError
  end.

(** [a[idx] = v] for a scalar [v]. *)
Fixpoint py_set_all {A} (l : list A) (idx : list Z) (v : A) : result (list A) :=
  match idx with
  | [] => Ok l
  | i :: idx' => l' <- py_set l i v ;; py_set_all l' idx' v
  end.

(** [a[idx]] for an integer index array. *)
Fixpoint py_take {A} (l : list A) (idx : list Z) : result (list A) :=
  match idx with
  | [] => Ok []
  | i :: idx' => x <- py_get l i ;; xs <- py_take l idx' ;; Ok (x :: xs)
  end.

(** [a[mask]] for a boolean mask, which must be as long as [a]. *)
Fixpoint mask_select {A} (l : list A) (mask : list bool) : result (list A) :=
  match l, mask with
  | [], [] => Ok []
  | x :: l', b :: mask' =>
      r <- mask_select l' mask' ;; Ok (if b then x :: r else r)
  | _, _ => Raise IndexError
  end.

(** Modelled from the spec: [utils.find] is not among the given sources; as in
    the MATLAB original it returns the positions of the true entries, in
    increasing order (step 6 of the spec keeps "indices" selected by a mask). *)
Fixpoint find_from (k : Z) (mask : list bool) : list Z :=
  match mask with
  | [] => []
  | b :: mask' => if b then k :: find_from (k + 1) mask' else find_from (k + 1) mask'
  end.
Definition find (mask : list bool) : list Z := find_from 0 mask.

(** ** numpy functions the code calls *)

Fixpoint zrange_from (a : Z) (n : nat) : list Z :=
  match n with
  | O => []
  | S n' => a :: zrange_from (a + 1) n'
  end.

(** [zip(l1, l2)] followed by an elementwise operation. *)
Definition map2 {A B C} (f : A -> B -> C) (l1 : list A) (l2 : list B) : list C :=
  map (fun p => f (fst p) (snd p)) (combine l1 l2).

Section Numpy.
Context {F : Type} {NF : NumOps F}.

(** [np.linspace(start, stop, num)] (endpoint included): [i*step + start],
    and [stop] itself as last entry. *)
Definition linspace (start stop : F) (num : nat) : list F :=
  match num with
  | O => []
  | S O => [start]
  | S (S m) =>
      let step := fdiv (fsub stop start) (of_Z (Z.of_nat (S m))) in
      map (fun i => fadd (fmul (of_Z i) step) start) (zrange_from 0 (S m)) ++ [stop]
  end.

(** One evaluation of [np.interp]: [cur] is the sample at the left of the
    segment under consideration, [rest] the samples after it.  (The segment
    formula is used at a sample position too; numpy versions that return the
    sample itself there give another result only next to a not-a-number
    sample.) *)
Fixpoint interp_scan (x : F) (cur : F * F) (rest : list (F * F)) : F :=
  match rest with
  | [] => snd cur
  | nxt :: rest' =>
      if fleb (fst nxt) x then interp_scan x nxt rest'
      else fadd (fmul (fdiv (fsub (snd nxt) (snd cur)) (fsub (fst nxt) (fst cur)))
                      (fsub x (fst cur)))
                (snd cur)
  end.

Definition interp_one (xp fp : list F) (x : F) : F :=
  match combine xp fp with
  | [] => x
  | p0 :: rest =>
      if fltb x (fst p0) then snd p0 else interp_scan x p0 rest
  end.

(** [np.interp(x, xp, fp)]: piecewise linear through the samples, constant
    outside them; the samples [xp] are expected in increasing order. *)
Definition np_interp (x xp fp : list F) : result (list F) :=
  if negb (length xp =? length fp)%nat then Raise ValueError
  else match xp with
       | [] => Raise ValueError
       | _ => Ok (map (interp_one xp fp) x)
       end.

(** [np.sum] of a one-dimensional array, added from left to right.  (numpy
    adds long arrays in blocks, so that in binary64 its sum can differ from
    this one in the last bits; in exact arithmetic the order plays no part.) *)
Definition np_sum (l : list F) : F := fold_left fadd l (of_Z 0).

(** [np.cumsum] *)
Fixpoint cumsum_from (acc : F) (l : list F) : list F :=
  match l with
  | [] => []
  | x :: t => fadd acc x :: cumsum_from (fadd acc x) t
  end.
Definition np_cumsum (l : list F) : list F :=
  match l with
  | [] => []
  | x :: t => x :: cumsum_from x t
  end.

(** [np.argmin]: the first position of the least entry (of an array without
    NaN; numpy answers with the position of the first NaN when there is
    one). *)
Fixpoint argmin_from (best : F) (bi i : Z) (l : list F) : Z :=
  match l with
  | [] => bi
  | x :: t => if fltb x best then argmin_from x i (i + 1) t
              else argmin_from best bi (i + 1) t
  end.
Definition np_argmin (l : list F) : result Z :=
  match l with
  | [] => Raise ValueError
  | x :: t => Ok (argmin_from x 0 1 t)
  end.

End Numpy.

(** ** SkeletonCalculatorType1.h__getPartnersViaWalk *)

(** The two preallocated pair buffers hold 200 entries each. *)
Definition BUFFER_SIZE : nat := 200.

Record walk_state : Type := mkWalk {
  c1 : Z;            (* current index on side 1 *)
  c2 : Z;            (* current index on side 2 *)
  cur_p_I : Z;       (* current pair index *)
  p1_I : list Z;
  p2_I : list Z
}.

Definition walk_init (s1 s2 : Z) : walk_state :=
  mkWalk s1 s2 (-1) (repeat 0 BUFFER_SIZE) (repeat 0 BUFFER_SIZE).

(** The index after [c]: down when the walk starts from the far end. *)
Definition walk_next (s1 e1 c : Z) : Z := if e1 <? s1 then c - 1 else c + 1.

(** Writes pair number [k] and moves the cursors. *)
Definition emit (st : walk_state) (k new1 new2 : Z) : result walk_state :=
  p1 <- py_set (p1_I st) k new1 ;;
  p2 <- py_set (p2_I st) k new2 ;;
  Ok (mkWalk new1 new2 k p1 p2).

(** [p1_I[:cur_p_I]], [p2_I[:cur_p_I]] *)
Definition walk_trim (st : walk_state) : list Z * list Z :=
  (py_upto (p1_I st) (cur_p_I st), py_upto (p2_I st) (cur_p_I st)).

Section Walk.
Context {F : Type} {NF : NumOps F}.

(** [xy[:,a] - xy[:,b]] *)
Definition col_diff (xy : side F) (a b : Z) : result (F * F) :=
  pa <- py_get xy a ;; pb <- py_get xy b ;;
  Ok (fsub (fst pa) (fst pb), fsub (snd pa) (snd pb)).

(** [np.sum((v*w) > 0)]: how many coordinates have a positive product. *)
Definition count_positive_products (v w : F * F) : Z :=
  Z.b2z (fltb (of_Z 0) (fmul (fst v) (fst w)))
  + Z.b2z (fltb (of_Z 0) (fmul (snd v) (snd w))).

(** One turn of the [while] loop, entered with [c1 <> e1] and [c2 <> e2].
    In every branch the pair written is the new pair of cursors. *)
Definition walk_step (s1 e1 : Z) (d : matrix F) (xy1 xy2 : side F)
           (st : walk_state) : result walk_state :=
  let k := cur_p_I st + 1 in
  let next1 := walk_next s1 e1 (c1 st) in
  let next2 := walk_next s1 e1 (c2 st) in
  v_n1c1 <- match col_diff xy1 next1 (c1 st) with
            | Ok v => Ok v
            | Raise _ => Raise Breakpoint
            end ;;
  v_n2c2 <- col_diff xy2 next2 (c2 st) ;;
  d_n1n2 <- py_get2 d next1 next2 ;;
  d_n1c2 <- py_get2 d next1 (c2 st) ;;
  d_n2c1 <- py_get2 d (c1 st) next2 ;;
  if feqb d_n1c2 d_n2c1 || (fleb d_n1n2 d_n1c2 && fleb d_n1n2 d_n2c1) then
    (* advance along both contours *)
    emit st k next1 next2
  else if negb (count_positive_products v_n1c1 v_n2c2 =? 0) then
    (* contours go similar directions: follow the smallest width *)
    if fltb d_n1c2 d_n2c1 then emit st k next1 (c2 st)
    else emit st k (c1 st) next2
  else
    prev_width <- (if k =? 1 then Ok (of_Z 0)
                   else a <- py_get (p1_I st) (k - 1) ;;
                        b <- py_get (p2_I st) (k - 1) ;;
                        py_get2 d a b) ;;
    if fltb prev_width d_n1c2 && fltb prev_width d_n2c1 then
      emit st k next1 next2
    else if fltb d_n1c2 d_n2c1 then emit st k next1 (c2 st)
    else emit st k (c1 st) next2.

(** The loop.  Every turn writes buffer slot [cur_p_I], so at most
    [BUFFER_SIZE] turns complete: [S BUFFER_SIZE] units of fuel never run
    out (lemma [walk_fuel_enough]). *)
Fixpoint walk_loop (fuel : nat) (s1 e1 e2 : Z) (d : matrix F) (xy1 xy2 : side F)
         (st : walk_state) : option (result walk_state) :=
  if negb (c1 st =? e1) && negb (c2 st =? e2) then
    match fuel with
    | O => None
    | S fuel' =>
        match walk_step s1 e1 d xy1 xy2 st with
        | Ok st' => walk_loop fuel' s1 e1 e2 d xy1 xy2 st'
        | Raise e => Some (Raise e)
        end
    end
  else Some (Ok st).

Definition h__getPartnersViaWalk (s1 e1 s2 e2 : Z) (d : matrix F)
           (xy1 xy2 : side F) : result (list Z * list Z) :=
  match walk_loop (S BUFFER_SIZE) s1 e1 e2 d xy1 xy2 (walk_init s1 s2) with
  | Some (Ok st) => Ok (walk_trim st)
  | Some (Raise e) => Raise e
  | None => Raise IndexError   (* not reached: [walk_fuel_enough] *)
  end.

End Walk.

(** ** SkeletonCalculatorType1: bounds, projection matches, end walks *)

(** [a[lo:hi] = v] for a scalar [v]. *)
Definition py_slice_fill {A} (l : list A) (lo hi : Z) (v : A) : list A :=
  let a := py_clip (length l) lo in
  let b := py_clip (length l) hi in
  firstn a l ++ repeat v (b - a) ++ skipn (a + (b - a)) l.

(** The per-point results [h__getMatches] fills in. *)
Record match_state (F : Type) : Type := mkMatch {
  match_I : list Z;
  dp_values : list F;
  all_signs_used : list Z
}.

Section Matching.
Context {F : Type} {NF : NumOps F}.

Definition h__getBounds (n1 n2 : nat) (p_left p_right : F) : list Z * list Z :=
  let pct := linspace (of_Z 0) (of_Z 1) n1 in
  let left_pct := map (fun p => fsub p p_left) pct in
  let right_pct := map (fun p => fadd p p_right) pct in
  let left_I := map (fun p => ffloor (fmul p (of_Z (Z.of_nat n2)))) left_pct in
  let right_I := map (fun p => fceil (fmul p (of_Z (Z.of_nat n2)))) right_pct in
  (map (fun i => if i <? 0 then 0 else i) left_I,
   map (fun i => if Z.of_nat n2 <=? i then Z.of_nat n2 - 1 else i) right_I).

Definition h__getProjectionIndex (vc_dx_ortho vc_dy_ortho : F)
           (dx_across_worm dy_across_worm : list F) (left_I : Z)
           (d_across : list F) (sign_use : Z) : result (F * Z * Z) :=
  let dp0 := map2 (fun dx dy => fadd (fmul dx vc_dx_ortho) (fmul dy vc_dy_ortho))
                  dx_across_worm dy_across_worm in
  let flip := map (fmul (of_Z (-1))) in
  let '(dp, sign_used) :=
    if (sign_use =? 0) && fltb (of_Z 0) (np_sum dp0) then (flip dp0, 1)
    else if sign_use =? 1 then (flip dp0, 1)
    else (dp0, -1) in
  let possible :=
    map2 andb (map2 fltb (py_slice dp 1 (-2)) (py_slice dp 2 (-1)))
              (map2 fltb (py_slice dp 1 (-2)) (py_slice dp 0 (-3))) in
  let Ip := find possible in
  dp_I <- (match Ip with
           | [ip] => Ok (ip + 1)
           | _ :: _ :: _ =>
               ds <- py_take d_across Ip ;;
               temp_I <- np_argmin ds ;;
               ip <- py_get Ip temp_I ;;
               Ok (ip + 1)
           | [] => np_argmin dp
           end) ;;
  dp_value <- py_get dp dp_I ;;
  Ok (dp_value, left_I + dp_I, sign_used).

(** The body shared by the two loops of [h__getMatches]: project point [I]
    of side 1 onto the window [lb:rb] of side 2 and record the result. *)
Definition project_point (norm_x norm_y : list F)
           (dx_across dy_across d_across : matrix F)
           (sign_use : Z) (Ix lb rb : Z) (st : match_state F)
  : result (match_state F) :=
  nx <- py_get norm_x Ix ;;
  ny <- py_get norm_y Ix ;;
  dxr <- py_get dx_across Ix ;;
  dyr <- py_get dy_across Ix ;;
  dr <- py_get d_across Ix ;;
  '(abs_dp_value, dp_I, sign_used) <-
     h__getProjectionIndex nx ny (py_slice dxr lb rb) (py_slice dyr lb rb) lb
                           (py_slice dr lb rb) sign_use ;;
  signs <- py_set (all_signs_used st) Ix sign_used ;;
  dps <- py_set (dp_values st) Ix abs_dp_value ;;
  ms <- py_set (match_I st) Ix dp_I ;;
  Ok (mkMatch ms dps signs).

(** [for I, (lb, rb) in enumerate(zip(left_I[1:-1], right_I[1:-1]))], with
    [I] already shifted by one. *)
Fixpoint first_pass (norm_x norm_y : list F) (dx_across dy_across d_across : matrix F)
         (Ix : Z) (bounds : list (Z * Z)) (st : match_state F)
  : result (match_state F) :=
  match bounds with
  | [] => Ok st
  | (lb, rb) :: bounds' =>
      st' <- project_point norm_x norm_y dx_across dy_across d_across 0 Ix lb rb st ;;
      first_pass norm_x norm_y dx_across dy_across d_across (Ix + 1) bounds' st'
  end.

(** [for I in I_bad] *)
Fixpoint second_pass (norm_x norm_y : list F) (dx_across dy_across d_across : matrix F)
         (left_I right_I : list Z) (sign_use : Z) (I_bad : list Z)
         (st : match_state F) : result (match_state F) :=
  match I_bad with
  | [] => Ok st
  | Ix :: I_bad' =>
      lb <- py_get left_I Ix ;;
      rb <- py_get right_I Ix ;;
      st' <- project_point norm_x norm_y dx_across dy_across d_across sign_use
                           Ix lb rb st ;;
      second_pass norm_x norm_y dx_across dy_across d_across left_I right_I
                  sign_use I_bad' st'
  end.

Definition h__getMatches (s1 s2 : side F) (norm_x norm_y : list F)
           (dx_across dy_across d_across : matrix F) (left_I right_I : list Z)
  : result (list F * list Z) :=
  let n_s1 := length s1 in
  m0 <- py_set (repeat 0 n_s1) 0 0 ;;
  m1 <- py_set m0 (-1) (Z.of_nat (length s2)) ;;
  let st0 := mkMatch m1 (repeat (of_Z 0) n_s1) (repeat 0 n_s1) in
  st1 <- first_pass norm_x norm_y dx_across dy_across d_across 1
           (combine (py_slice left_I 1 (-1)) (py_slice right_I 1 (-1))) st0 ;;
  let inner := py_slice (all_signs_used st1) 1 (-1) in
  sign1 <- py_get (all_signs_used st1) 1 ;;
  st2 <- (if negb (forallb (fun s => s =? sign1) inner) then
            if 0 <? fold_left Z.add (all_signs_used st1) 0 then
              second_pass norm_x norm_y dx_across dy_across d_across left_I right_I 1
                (map (fun i => i + 1) (find (map (fun s => negb (s =? 1)) inner))) st1
            else
              second_pass norm_x norm_y dx_across dy_across d_across left_I right_I (-1)
                (map (fun i => i + 1) (find (map (fun s => negb (s =? -1)) inner))) st1
          else Ok st1) ;;
  Ok (dp_values st2, match_I st2).

Definition h__updateEndsByWalking (d_across : matrix F) (match_I1 : list Z)
           (s1 s2 : side F) (END_S1_WALK_PCT : F) : result (list Z * list Z) :=
  let n_s1 := Z.of_nat (length s1) in
  let n_s2 := Z.of_nat (length s2) in
  let end_s1_walk_I := fceil (fmul (of_Z n_s1) END_S1_WALK_PCT) in
  let end_s2_walk_I := 2 * end_s1_walk_I in
  '(p1_I, p2_I) <- h__getPartnersViaWalk 0 end_s1_walk_I 0 end_s2_walk_I
                                         d_across s1 s2 ;;
  match_I1 <- py_set_many match_I1 p1_I p2_I ;;
  let keep_mask := repeat false (length match_I1) in
  keep_mask <- py_set_all keep_mask p1_I true ;;
  let end_s1_walk_backwards := n_s1 - end_s1_walk_I + 1 in
  let end_s2_walk_backwards := n_s2 - end_s2_walk_I + 1 in
  '(p1_I, p2_I) <- h__getPartnersViaWalk (n_s1 - 1) end_s1_walk_backwards
                                         (n_s2 - 1) end_s2_walk_backwards
                                         d_across s1 s2 ;;
  match_I1 <- py_set_many match_I1 p1_I p2_I ;;
  keep_mask <- py_set_all keep_mask p1_I true ;;
  (* anything in between uses the projection approach *)
  let keep_mask := py_slice_fill keep_mask (end_s1_walk_I + 1)
                                 end_s1_walk_backwards true in
  (* always keep ends *)
  keep_mask <- py_set keep_mask 0 true ;;
  keep_mask <- py_set keep_mask (-1) true ;;
  match_I1 <- py_set match_I1 0 0 ;;
  match_I1 <- py_set match_I1 (-1) (n_s2 - 1) ;;
  let I_1 := find keep_mask in
  I_2 <- mask_select match_I1 keep_mask ;;
  Ok (I_1, I_2).

End Matching.

(** ** SkeletonCalculatorType1.compute_skeleton_and_widths *)

(** The ordering-repair mask:
    [hstack((True, (I_2[1:-1] <= I_2[2:]) & (I_2[1:-1] >= I_2[:-2]), True))] *)
Definition is_good_mask (I_2 : list Z) : list bool :=
  [true]
  ++ map2 andb (map2 Z.leb (py_slice I_2 1 (-1)) (py_from I_2 2))
               (map2 Z.geb (py_slice I_2 1 (-1)) (py_upto I_2 (-2)))
  ++ [true].

(** [I_1 = I_1[is_good]; I_2 = I_2[is_good]] *)
Definition ordering_repair (I_1 I_2 : list Z) : result (list Z * list Z) :=
  let is_good := is_good_mask I_2 in
  R_1 <- mask_select I_1 is_good ;;
  R_2 <- mask_select I_2 is_good ;;
  Ok (R_1, R_2).

Section Skeleton.
Context {F : Type} {NF : NumOps F}.

(** scipy's [savgol_filter(x, window_length, polyorder)], which may raise. *)
Variable sgolay : list F -> Z -> Z -> result (list F).
(** [utils.round_to_odd] and [utils.compute_normal_vectors] are not among the
    given sources. *)
Variable round_to_odd : F -> Z.
Variable compute_normal_vectors : side F -> result (list F * list F).

Definition FRACTION_WORM_SMOOTH : F := fdiv (of_Z 1) (of_Z 12).
Definition SMOOTHING_ORDER : Z := 3.
(** The literals 0.3, 0.15 and 0.5: the binary64 nearest to a decimal
    fraction is the correctly rounded quotient of its two integers. *)
Definition PERCENT_BACK_SEARCH : F := fdiv (of_Z 3) (of_Z 10).
Definition PERCENT_FORWARD_SEARCH : F := fdiv (of_Z 3) (of_Z 10).
Definition END_S1_WALK_PCT : F := fdiv (of_Z 15) (of_Z 100).
Definition one_half : F := fdiv (of_Z 1) (of_Z 2).

(** [s[0,:] = v] and [s[1,:] = v] *)
Definition set_row0 (s : side F) (v : list F) : result (side F) :=
  if (length v =? length s)%nat then Ok (combine v (map snd s))
  else Raise ValueError.
Definition set_row1 (s : side F) (v : list F) : result (side F) :=
  if (length v =? length s)%nat then Ok (combine (map fst s) v)
  else Raise ValueError.

(** Step 1 for one side: both rows are overwritten in place.  The array as
    it is left, and whether an exception interrupted the step. *)
Definition smooth_in_place (s : side F) : side F * result unit :=
  let filter_width :=
    round_to_odd (fmul (of_Z (Z.of_nat (length s))) FRACTION_WORM_SMOOTH) in
  match (x <- sgolay (map fst s) filter_width SMOOTHING_ORDER ;; set_row0 s x) with
  | Raise e => (s, Raise e)
  | Ok sa =>
      match (y <- sgolay (map snd sa) filter_width SMOOTHING_ORDER ;; set_row1 sa y) with
      | Raise e => (sa, Raise e)
      | Ok sb => (sb, Ok tt)
      end
  end.

(** [np.transpose(s1[r:r+1, :]) - s2[r, :]] for a coordinate selector [r]. *)
Definition across (coord : F * F -> F) (s1 s2 : side F) : matrix F :=
  map (fun p => map (fun q => fsub (coord p) (coord q)) s2) s1.

Definition mat_map2 (f : F -> F -> F) (a b : matrix F) : matrix F :=
  map2 (map2 f) a b.

Definition euclid (dx dy : F) : F := fsqrt (fadd (fmul dx dx) (fmul dy dy)).

(** The candidate pairs after the end walks, then the ordering repair. *)
Definition pairs_after_matching (d_across : matrix F) (match_I1 : list Z)
           (s1 s2 : side F) : result (list Z * list Z) :=
  '(I_1, I_2) <- h__updateEndsByWalking d_across match_I1 s1 s2 END_S1_WALK_PCT ;;
  ordering_repair I_1 I_2.

(** The cross-distance matrix [d_across] of two sides. *)
Definition cross_distances (s1 s2 : side F) : matrix F :=
  mat_map2 euclid (across fst s1 s2) (across snd s1 s2).

(** The retained pairs of a frame, from its smoothed sides. *)
Definition retained_pairs (s1 s2 : side F) : result (list Z * list Z) :=
  let dx_across := across fst s1 s2 in
  let dy_across := across snd s1 s2 in
  let d_across := cross_distances s1 s2 in
  let dx_across := mat_map2 fdiv dx_across d_across in
  let dy_across := mat_map2 fdiv dy_across d_across in
  let '(left_I, right_I) :=
    h__getBounds (length s1) (length s2) PERCENT_BACK_SEARCH PERCENT_FORWARD_SEARCH in
  '(norm_x, norm_y) <- compute_normal_vectors s1 ;;
  '(dp_values1, match_I1) <-
     h__getMatches s1 s2 norm_x norm_y dx_across dy_across d_across left_I right_I ;;
  pairs_after_matching d_across match_I1 s1 s2.

(** [sqrt((s1_px - s1_x)**2 + (s1_py - s1_y)**2)] for a point [p] of side 1
    and its partner [q]. *)
Definition width_between (p q : F * F) : F :=
  euclid (fsub (fst q) (fst p)) (fsub (snd q) (snd p)).

(** [0.5 * (s1_x + s1_px)], [0.5 * (s1_y + s1_py)] *)
Definition midpoint (p q : F * F) : F * F :=
  (fmul one_half (fadd (fst p) (fst q)), fmul one_half (fadd (snd p) (snd q))).

(** Widths and skeleton of the retained pairs. *)
Definition finalize (s1 s2 : side F) (I_1 I_2 : list Z)
  : result (list F * side F) :=
  s1_xy <- py_take s1 I_1 ;;
  s1_pxy <- py_take s2 I_2 ;;
  let widths1 := map2 width_between s1_xy s1_pxy in
  let skeleton := map2 midpoint s1_xy s1_pxy in
  Ok (widths1, skeleton).

(** Everything after the smoothing, for one frame. *)
Definition skeleton_of_smoothed (s1 s2 : side F) : result (list F * side F) :=
  '(I_1, I_2) <- retained_pairs s1 s2 ;;
  finalize s1 s2 I_1 I_2.

(** One turn of the frame loop on the two array objects of the frame
    ([None] marks a missing frame): the objects as the turn leaves them,
    and the frame's (widths, skeleton), [None] when the frame is skipped. *)
Definition frame_turn (s1 s2 : option (side F))
  : (option (side F) * option (side F)) * result (option (list F * side F)) :=
  match s1 with
  | None => ((s1, s2), Ok None)
  | Some a1 =>
      let '(a1', r1) := smooth_in_place a1 in
      match r1 with
      | Raise e => ((Some a1', s2), Raise e)
      | Ok _ =>
          match s2 with
          | None => ((Some a1', None), Raise AttributeError)
          | Some a2 =>
              let '(a2', r2) := smooth_in_place a2 in
              match r2 with
              | Raise e => ((Some a1', Some a2'), Raise e)
              | Ok _ =>
                  ((Some a1', Some a2'),
                   r <- skeleton_of_smoothed a1' a2' ;; Ok (Some r))
              end
          end
      end
  end.

(** The caller's two lists of contour arrays, and what the call returns. *)
Definition contours : Type := list (option (side F)) * list (option (side F)).
Definition outputs : Type := list (option (list F)) * list (option (side F)).

(** The frame loop over [zip(h_ventral_contour, h_dorsal_contour)], with the
    output lists preallocated to [None] for [len(h_ventral_contour)] frames.
    The arrays of different frames and sides are distinct objects; plotting
    ([frames_to_plot], always empty from [WormParsing]) and timing are left
    out. *)
Fixpoint compute_skeleton_and_widths (h_ventral_contour h_dorsal_contour
                                       : list (option (side F)))
  : contours * result outputs :=
  match h_ventral_contour, h_dorsal_contour with
  | [], _ => ((h_ventral_contour, h_dorsal_contour), Ok ([], []))
  | _ :: _, [] =>
      ((h_ventral_contour, h_dorsal_contour),
       Ok (map (fun _ => None) h_ventral_contour,
           map (fun _ => None) h_ventral_contour))
  | s1 :: hv, s2 :: hd =>
      let '((s1', s2'), r) := frame_turn s1 s2 in
      match r with
      | Raise e => ((s1' :: hv, s2' :: hd), Raise e)
      | Ok o =>
          let '((hv', hd'), rest) := compute_skeleton_and_widths hv hd in
          ((s1' :: hv', s2' :: hd'),
           match rest with
           | Raise e => Raise e
           | Ok (h_widths, h_skeleton) =>
               Ok (option_map fst o :: h_widths, option_map snd o :: h_skeleton)
           end)
      end
  end.

End Skeleton.

(** ** WormParsing: chain-code lengths and normalisation *)

(** [config.N_POINTS_NORMALIZED] *)
Definition N_POINTS_NORMALIZED : nat := 49.

(** A value handed to [normalize_parameter]: one- or two-dimensional. *)
Inductive ndarray (F : Type) : Type :=
| Arr1 (v : list F)        (* shape (k,) *)
| Arr2 (xy : side F).      (* shape (2,k) on input, (N,2) on output *)
Arguments Arr1 {F} v.
Arguments Arr2 {F} xy.

(** The array [normalize_all_frames] returns, by its number of axes. *)
Inductive norm_data (F : Type) : Type :=
| Rank2 (rows : list (list F))          (* shape (N, n) *)
| Rank3 (rows : list (list (list F))).  (* shape (N, n, k) *)
Arguments Rank2 {F} rows.
Arguments Rank3 {F} rows.

(** [np.shape] of a Python list whose items are [None] or one-dimensional
    sequences: items of one common length give a two-dimensional array,
    anything else one axis of objects. *)
Definition np_shape {A} (l : list (option (list A))) : list nat :=
  match l with
  | [] => [O]
  | None :: _ => [length l]
  | Some v :: rest =>
      if forallb (fun o => match o with
                           | Some w => (length w =? length v)%nat
                           | None => false
                           end) rest
      then [length l; length v]
      else [length l]
  end.

Section Normalize.
Context {F : Type} {NF : NumOps F}.
Variable NaN : F.

(** [np.linalg.norm] of the difference of two consecutive points. *)
Definition segment_length (p q : F * F) : F :=
  fsqrt (fadd (fmul (fsub (fst q) (fst p)) (fsub (fst q) (fst p)))
              (fmul (fsub (snd q) (snd p)) (fsub (snd q) (snd p)))).

(** Consecutive differences along axis 0 and their 2-norms. *)
Fixpoint chain_code_lengths (skeleton : side F) : list F :=
  match skeleton with
  | p :: ((q :: _) as rest) => segment_length p q :: chain_code_lengths rest
  | _ => []
  end.

Definition chain_code_lengths_cum_sum (skeleton : side F) : list F :=
  let distances :=
    match skeleton with
    | [] => chain_code_lengths skeleton   (* empty set: no leading 0 *)
    | _ => [of_Z 0] ++ chain_code_lengths skeleton
    end in
  np_cumsum distances.

Definition normalize_parameter (prop_to_normalize : option (ndarray F))
           (old_lengths : list F) : result (ndarray F) :=
  first <- py_get old_lengths 0 ;;
  last <- py_get old_lengths (-1) ;;
  let new_lengths := linspace first last N_POINTS_NORMALIZED in
  match prop_to_normalize with
  | Some (Arr2 xy) =>
      interp_x <- np_interp new_lengths old_lengths (map fst xy) ;;
      interp_y <- np_interp new_lengths old_lengths (map snd xy) ;;
      Ok (Arr2 (combine interp_x interp_y))
  | Some (Arr1 v) =>
      r <- np_interp new_lengths old_lengths v ;; Ok (Arr1 r)
  | None => Raise ValueError
  end.

(** [norm_data[..., iFrame] = v] on an array of shape (N, n). *)
Fixpoint assign_frame2 (rows : list (list F)) (iFrame : Z) (v : list F)
  : result (list (list F)) :=
  match rows, v with
  | [], [] => Ok []
  | row :: rows', x :: v' =>
      row' <- py_set row iFrame x ;;
      rest <- assign_frame2 rows' iFrame v' ;;
      Ok (row' :: rest)
  | _, _ => Raise ValueError
  end.

(** The same assignment on an array of shape (N, n, k): the index selects
    along the last axis, and [v] is broadcast along the axis of length n. *)
Definition assign_plane (plane : list (list F)) (iFrame : Z) (v : list F)
  : result (list (list F)) := assign_frame2 plane iFrame v.

Fixpoint assign_frame3 (rows : list (list (list F))) (iFrame : Z) (v : list F)
  : result (list (list (list F))) :=
  match rows with
  | [] => Ok []
  | plane :: rows' =>
      plane' <- assign_plane plane iFrame v ;;
      rest <- assign_frame3 rows' iFrame v ;;
      Ok (plane' :: rest)
  end.

Definition assign_frame (nd : norm_data F) (iFrame : Z) (v : ndarray F)
  : result (norm_data F) :=
  match nd, v with
  | Rank2 rows, Arr1 x => r <- assign_frame2 rows iFrame x ;; Ok (Rank2 r)
  | Rank3 rows, Arr1 x => r <- assign_frame3 rows iFrame x ;; Ok (Rank3 r)
  | _, Arr2 _ => Raise ValueError
  end.

(** The frame loop of [normalize_all_frames]. *)
Fixpoint normalize_loop (iFrame : Z) (prop_to_normalize : list (option (list F)))
         (xy_data : list (option (side F))) (nd : norm_data F)
  : result (norm_data F) :=
  match prop_to_normalize, xy_data with
  | cur_frame_value :: props', cur_xy :: xys' =>
      nd' <- match cur_xy with
             | Some xy =>
                 let cc := chain_code_lengths_cum_sum xy in
                 v <- normalize_parameter (option_map Arr1 cur_frame_value) cc ;;
                 assign_frame nd iFrame v
             | None => Ok nd
             end ;;
      normalize_loop (iFrame + 1) props' xys' nd'
  | _, _ => Ok nd
  end.

(** [normalize_all_frames] on per-frame one-dimensional properties (angles,
    widths), each [None] or a sequence. *)
Definition normalize_all_frames (prop_to_normalize : list (option (list F)))
           (xy_data : list (option (side F))) : result (norm_data F) :=
  let norm_data_shape := [N_POINTS_NORMALIZED] ++ np_shape prop_to_normalize in
  let start :=
    match norm_data_shape with
    | [N; n] => Rank2 (repeat (repeat NaN n) N)
    | [N; n; k] => Rank3 (repeat (repeat (repeat NaN k) n) N)
    | _ => Rank2 []
    end in
  normalize_loop 0 prop_to_normalize xy_data start.

End Normalize.

(** ** WormParsing: skeleton length, angles, area *)

(** [compute_skeleton_length]: the array of shape (k,2,n) is kept as its n
    frames of k points each; the differences, the norms and the sum along
    axis 0 all work frame by frame. *)
Definition compute_skeleton_length {F} {NF : NumOps F} (skeleton : list (side F))
  : list F :=
  map (fun frame => np_sum (chain_code_lengths frame)) skeleton.

Section Angles.
Context {F : Type} {NF : NumOps F}.
(** numpy's [arctan2(y, x)], [pi] and [NaN]. *)
Variable arctan2 : F -> F -> F.
Variable pi : F.
Variable NaN : F.

(** The three in-place updates of [frame_angles]: the two wraps into
    [-pi, pi] (the second one sees the result of the first) and the
    conversion to degrees. *)
Definition wrap_down (a : F) : F :=
  if fltb pi a then fsub a (fmul (of_Z 2) pi) else a.
Definition wrap_up (a : F) : F :=
  if fltb a (fsub (of_Z 0) pi) then fadd a (fmul (of_Z 2) pi) else a.
Definition to_degrees (a : F) : F := fmul a (fdiv (of_Z 180) pi).

(** The body of the frame loop of [compute_angles] for a frame that has a
    skeleton: one angle per skeleton point, [NaN] where the point has no
    edge of a twelfth of the length on both sides. *)
Definition frame_angles (cur_skeleton : side F) : result (list F) :=
  let sx := map fst cur_skeleton in
  let sy := map snd cur_skeleton in
  let cc := chain_code_lengths_cum_sum cur_skeleton in
  cc_last <- py_get cc (-1) ;;
  let edge_length := fdiv cc_last (of_Z 12) in
  let left_lengths := map (fun c => fsub c edge_length) cc in
  let right_lengths := map (fun c => fadd c edge_length) cc in
  cc_first <- py_get cc 0 ;;
  let valid_vertices_I :=
    find (map2 andb (map (fun l => fltb cc_first l) left_lengths)
                    (map (fun r => fltb r cc_last) right_lengths)) in
  left_lengths <- py_take left_lengths valid_vertices_I ;;
  right_lengths <- py_take right_lengths valid_vertices_I ;;
  left_x <- np_interp left_lengths cc sx ;;
  left_y <- np_interp left_lengths cc sy ;;
  right_x <- np_interp right_lengths cc sx ;;
  right_y <- np_interp right_lengths cc sy ;;
  sy_v <- py_take sy valid_vertices_I ;;
  sx_v <- py_take sx valid_vertices_I ;;
  let d2_y := map2 fsub sy_v right_y in
  let d2_x := map2 fsub sx_v right_x in
  let d1_y := map2 fsub left_y sy_v in
  let d1_x := map2 fsub left_x sx_v in
  let frame_angles :=
    map2 fsub (map2 arctan2 d2_y d2_x) (map2 arctan2 d1_y d1_x) in
  let frame_angles := map wrap_down frame_angles in
  let frame_angles := map wrap_up frame_angles in
  let frame_angles := map to_degrees frame_angles in
  py_set_many (repeat NaN (length cc)) valid_vertices_I frame_angles.

(** The list [temp_angle_list]: an empty list for a frame without skeleton. *)
Fixpoint angle_list (h_skeleton : list (option (side F)))
  : result (list (option (list F))) :=
  match h_skeleton with
  | [] => Ok []
  | None :: rest => l <- angle_list rest ;; Ok (Some [] :: l)
  | Some cur_skeleton :: rest =>
      all_frame_angles <- frame_angles cur_skeleton ;;
      l <- angle_list rest ;;
      Ok (Some all_frame_angles :: l)
  end.

Definition compute_angles (h_skeleton : list (option (side F)))
  : result (norm_data F) :=
  temp_angle_list <- angle_list h_skeleton ;;
  normalize_all_frames NaN temp_angle_list h_skeleton.

(** The angle at the vertex of index [j], from the skeleton rows and the
    cumulative lengths. *)
Definition vertex_angle (cc sx sy : list F) (edge_length : F) (j : Z) : F :=
  let c := nth (Z.to_nat j) cc (of_Z 0) in
  let x := nth (Z.to_nat j) sx (of_Z 0) in
  let y := nth (Z.to_nat j) sy (of_Z 0) in
  let left_x := interp_one cc sx (fsub c edge_length) in
  let left_y := interp_one cc sy (fsub c edge_length) in
  let right_x := interp_one cc sx (fadd c edge_length) in
  let right_y := interp_one cc sy (fadd c edge_length) in
  to_degrees
    (wrap_up
       (wrap_down
          (fsub (arctan2 (fsub y right_y) (fsub x right_x))
                (arctan2 (fsub left_y y) (fsub left_x x))))).

(** The vertices that have an edge on both sides. *)
Definition valid_vertices (cc : list F) (edge_length : F) : list Z :=
  find (map (fun c => fltb (nth 0 cc (of_Z 0)) (fsub c edge_length)
                      && fltb (fadd c edge_length)
                              (nth (length cc - 1) cc (of_Z 0))) cc).

End Angles.

Section Area.
Context {F : Type} {NF : NumOps F}.
(** numpy's [isnan], [abs] and [NaN]. *)
Variable fisnan : F -> bool.
Variable fabs : F -> F.
Variable NaN : F.

Definition nan_to_zero (x : F) : F := if fisnan x then of_Z 0 else x.

(** [np.nansum] and [np.nanmean] along one axis: not-a-number entries count
    as zero, and the mean divides by the number of the other entries. *)
Definition nansum (l : list F) : F := np_sum (map nan_to_zero l).
Definition nanmean (l : list F) : F :=
  fdiv (nansum l)
       (of_Z (Z.of_nat (length (filter (fun x => negb (fisnan x)) l)))).

(** [contour -= contour_mean] on the points of one frame. *)
Definition centre (pts : side F) : side F :=
  let mean_x := nanmean (map fst pts) in
  let mean_y := nanmean (map snd pts) in
  map (fun p => (fsub (fst p) mean_x, fsub (snd p) mean_y)) pts.

(** [contour.take(range(1, N+1), mode='wrap', axis=0)]: the points shifted
    forward by one, the first point last. *)
Definition contour_plus_one (pts : side F) : side F :=
  match pts with
  | [] => []
  | p :: rest => rest ++ [p]
  end.

(** The shoelace sum of one frame, halved. *)
Definition signed_area (pts : side F) : F :=
  fdiv (nansum (map2 (fun p q => fsub (fmul (fst p) (snd q)) (fmul (snd p) (fst q)))
                     pts (contour_plus_one pts)))
       (of_Z 2).

(** One frame of [compute_area]: the frame's points as the call leaves them
    in the caller's array, and the frame's area. *)
Definition frame_area (pts : side F) : side F * result F :=
  let centred := centre pts in
  (centred,
   first <- py_get centred 0 ;;
   Ok (fabs (if fisnan (fst first) then NaN else signed_area centred))).

(** [WormParsing.compute_area] on an array of shape (N,2,n), kept as its n
    frames of N points each (N is 98 in the caller, and at least 1 here):
    the array as the call leaves it, and the areas. *)
Fixpoint compute_area (contour : list (side F)) : list (side F) * result (list F) :=
  match contour with
  | [] => ([], Ok [])
  | pts :: rest =>
      let '(pts', a) := frame_area pts in
      let '(rest', areas) := compute_area rest in
      (pts' :: rest', a0 <- a ;; l <- areas ;; Ok (a0 :: l))
  end.

End Area.

(** ** The two arithmetics *)

(** Real numbers: the exact arithmetic the floating-point code approximates. *)
#[export] Instance R_ops : NumOps R := {
  of_Z := IZR;
  fadd := Rplus;
  fsub := Rminus;
  fmul := Rmult;
  fdiv := Rdiv;
  fsqrt := sqrt;
  feqb := fun x y => if Req_dec_T x y then true else false;
  fltb := fun x y => if Rlt_dec x y then true else false;
  fleb := fun x y => if Rle_dec x y then true else false;
  ffloor := Int_part;
  fceil := fun x => (- Int_part (- x))%Z
}.

(** IEEE 754 binary64, numpy's float64. *)
Definition float_of_Z (z : Z) : float :=
  match z with
  | Z0 => PrimFloat.zero
  | Zpos _ => PrimFloat.of_uint63 (Uint63.of_Z z)
  | Zneg p => PrimFloat.opp (PrimFloat.of_uint63 (Uint63.of_Z (Zpos p)))
  end.

(** The integer part of a finite float; not-a-number and the infinities,
    which Python refuses to use as an index, are mapped to 0. *)
Definition float_floor (x : float) : Z :=
  match Prim2SF x with
  | S754_finite s m e =>
      let v := if s then Zneg m else Zpos m in
      if 0 <=? e then v * 2 ^ e else v / 2 ^ (- e)
  | _ => 0
  end.

#[export] Instance float_ops : NumOps float := {
  of_Z := float_of_Z;
  fadd := PrimFloat.add;
  fsub := PrimFloat.sub;
  fmul := PrimFloat.mul;
  fdiv := PrimFloat.div;
  fsqrt := PrimFloat.sqrt;
  feqb := PrimFloat.eqb;
  fltb := PrimFloat.ltb;
  fleb := PrimFloat.leb;
  ffloor := float_floor;
  fceil := fun x => - float_floor (PrimFloat.opp x)
}.

(** ** Vocabulary of the properties *)

(** The cursors of a walk lie strictly before their ends, in the direction
    the walk moves in. *)
Definition before_ends (s1 e1 e2 : Z) (st : walk_state) : Prop :=
  if e1 <? s1 then e1 < c1 st /\ e2 < c2 st
  else c1 st < e1 /\ c2 st < e2.

(** A straight side [(0,y), (1,y), ..., (n-1,y)] in binary64. *)
Definition straight_side (y : float) (n : nat) : side float :=
  map (fun i => (float_of_Z i, y)) (zrange_from 0 n).

(** A matrix with [n1] rows of [n2] entries. *)
Definition rectangular {A} (d : list (list A)) (n1 n2 : nat) : Prop :=
  length d = n1 /\ Forall (fun row => length row = n2) d.

(** The state of a walk that goes up from (0,0): after [k] pairs no cursor is
    beyond [k], and the buffers hold 200 indices between 0 and 200. *)
Definition up_walk_inv (st : walk_state) : Prop :=
  0 <= c1 st <= cur_p_I st + 1 /\ 0 <= c2 st <= cur_p_I st + 1
  /\ -1 <= cur_p_I st <= 199
  /\ length (p1_I st) = BUFFER_SIZE /\ length (p2_I st) = BUFFER_SIZE
  /\ Forall (fun a => 0 <= a <= 200) (p1_I st)
  /\ Forall (fun a => 0 <= a <= 200) (p2_I st).

(** Step 6 of the spec, on the candidate pairs (side-1 index, side-2 index):
    a pair other than the first and the last is kept when its side-2 index
    is at most that of the candidate after it and at least that of the
    candidate before it; both endpoints are always kept. *)
Fixpoint keep_locally_ordered (prev : Z) (l : list (Z * Z)) : list (Z * Z) :=
  match l with
  | [] => []
  | x :: t =>
      match t with
      | [] => [x]
      | y :: _ =>
          if (snd x <=? snd y) && (prev <=? snd x)
          then x :: keep_locally_ordered (snd x) t
          else keep_locally_ordered (snd x) t
      end
  end.

Definition three_point_repair (l : list (Z * Z)) : list (Z * Z) :=
  match l with
  | [] => []
  | first :: t => first :: keep_locally_ordered (snd first) t
  end.

(** The mask entries after the leading [True], seen from the previous
    side-2 index. *)
Fixpoint good_tail (prev : Z) (l : list Z) : list bool :=
  match l with
  | [] => [true]
  | x :: t =>
      match t with
      | [] => [true]
      | y :: _ => ((x <=? y) && (x >=? prev)) :: good_tail x t
      end
  end.

Fixpoint nondecreasingb (l : list Z) : bool :=
  match l with
  | x :: ((y :: _) as t) => (x <=? y) && nondecreasingb t
  | _ => true
  end.

(** Stand-ins for the three functions outside the sources, on straight
    horizontal sides with evenly spaced points: a Savitzky-Golay filter
    reproduces such a row (a polynomial of degree at most 3), the unit
    normals all point up, and 60 points give a window of 5. *)
Definition sgolay_on_straight {F} (x : list F) (window_length polyorder : Z)
  : result (list F) := Ok x.
Definition round_to_odd_60 {F} (x : F) : Z := 5.
Definition normals_of_straight {F} {NF : NumOps F} (s : side F)
  : result (list F * list F) :=
  Ok (map (fun _ => of_Z 0) s, map (fun _ => of_Z 1) s).

(** What scipy's [savgol_filter(x, 5, 3)] computes (mode 'interp', the
    default), written out in the arithmetic of the caller: a value is replaced
    by the value, at its place, of the least-squares cubic through the five
    values around it, and the first two and the last two values by those of
    the cubic through the first five and the last five.  (scipy gets the same
    weights from a least-squares solve, so its binary64 results can differ
    from these in the last bits.) *)
Section SavitzkyGolay.
Context {F : Type} {NF : NumOps F}.

Definition sg_first (a b c d e : F) : F :=
  fdiv (fsub (fadd (fsub (fadd (fmul (of_Z 69) a) (fmul (of_Z 4) b))
                         (fmul (of_Z 6) c))
                   (fmul (of_Z 4) d)) e)
       (of_Z 70).
Definition sg_second (a b c d e : F) : F :=
  fdiv (fadd (fsub (fadd (fadd (fmul (of_Z 2) a) (fmul (of_Z 27) b))
                         (fmul (of_Z 12) c))
                   (fmul (of_Z 8) d))
             (fmul (of_Z 2) e))
       (of_Z 35).
Definition sg_centre (a b c d e : F) : F :=
  fdiv (fsub (fadd (fadd (fadd (fmul (of_Z (-3)) a) (fmul (of_Z 12) b))
                         (fmul (of_Z 17) c))
                   (fmul (of_Z 12) d))
             (fmul (of_Z 3) e))
       (of_Z 35).
Definition sg_fourth (a b c d e : F) : F := sg_second e d c b a.
Definition sg_last (a b c d e : F) : F := sg_first e d c b a.

(** The values from the third one on: one centre per window of five, and
    the last window also gives the last two values. *)
Fixpoint sg_from_third (x : list F) : list F :=
  match x with
  | a :: ((b :: c :: d :: e :: rest) as t) =>
      sg_centre a b c d e
      :: match rest with
         | [] => [sg_fourth a b c d e; sg_last a b c d e]
         | _ :: _ => sg_from_third t
         end
  | _ => []
  end.

(** A row shorter than the window makes scipy raise; no other window or
    order is needed for sides of 60 points. *)
Definition savgol_filter_5_3 (x : list F) (window_length polyorder : Z)
  : result (list F) :=
  if (window_length =? 5) && (polyorder =? 3) then
    match x with
    | a :: b :: c :: d :: e :: _ =>
        Ok (sg_first a b c d e :: sg_second a b c d e :: sg_from_third x)
    | _ => Raise LibraryError
    end
  else Raise LibraryError.

End SavitzkyGolay.

(** A side 2 of 60 points that folds back over itself: 31 points along
    y = 3 from x = 0 to x = 30, three points back and down to (22, 1.5), eight
    points along y = 1 from x = 20 to x = 27, and 18 points along y = 6 from
    x = 28 to x = 62. *)
Definition folded_side : side float :=
  map (fun j => (float_of_Z j, 3%float)) (zrange_from 0 31)
  ++ [(28, 2.5); (25, 2); (22, 1.5)]%float
  ++ map (fun k => (float_of_Z (20 + k), 1%float)) (zrange_from 0 8)
  ++ map (fun k => (float_of_Z (28 + 2 * k), 6%float)) (zrange_from 0 18).

(** A side all of whose [n] points are the origin. *)
Definition origin_side (n : nat) : side float := repeat (0%float, 0%float) n.

(** The points (0,y), (1,y), ..., (n-1,y) over the reals. *)
Definition level_line (y : R) (n : nat) : side R :=
  map (fun i => (IZR i, y)) (zrange_from 0 n).

(** What the smoothing step leaves in an array that held [a]: the two rows
    that scipy's filter returns for the rows of [a]. *)
Definition smoothed_by {F} {NF : NumOps F}
           (sgolay : list F -> Z -> Z -> result (list F)) (round_to_odd : F -> Z)
           (a s : side F) : Prop :=
  let filter_width :=
    round_to_odd (fmul (of_Z (Z.of_nat (length a))) FRACTION_WORM_SMOOTH) in
  exists x y,
    sgolay (map fst a) filter_width SMOOTHING_ORDER = Ok x
    /\ sgolay (map snd a) filter_width SMOOTHING_ORDER = Ok y
    /\ length x = length a /\ length y = length a
    /\ s = combine x y.

(** The filter returns both rows of [a] as they are. *)
Definition reproduced_by {F} {NF : NumOps F}
           (sgolay : list F -> Z -> Z -> result (list F)) (round_to_odd : F -> Z)
           (a : side F) : Prop :=
  let filter_width :=
    round_to_odd (fmul (of_Z (Z.of_nat (length a))) FRACTION_WORM_SMOOTH) in
  sgolay (map fst a) filter_width SMOOTHING_ORDER = Ok (map fst a)
  /\ sgolay (map snd a) filter_width SMOOTHING_ORDER = Ok (map snd a).

(** The effect of one turn of the frame loop: arrays before and after, and
    the frame's entries in the two output lists. *)
Definition frame_effect {F} {NF : NumOps F}
           (sgolay : list F -> Z -> Z -> result (list F)) (round_to_odd : F -> Z)
           (compute_normal_vectors : side F -> result (list F * list F))
           (pre post : option (side F) * option (side F))
           (out : option (list F) * option (side F)) : Prop :=
  match fst pre with
  | None => post = pre /\ out = (None, None)
  | Some a1 =>
      exists a2 s1 s2 w sk,
        snd pre = Some a2 /\ post = (Some s1, Some s2)
        /\ smoothed_by sgolay round_to_odd a1 s1
        /\ smoothed_by sgolay round_to_odd a2 s2
        /\ skeleton_of_smoothed compute_normal_vectors s1 s2 = Ok (w, sk)
        /\ out = (Some w, Some sk)
  end.

(** Cumulative lengths with one and the same increment [h] between
    neighbours. *)
Definition evenly_spaced (cc : list R) (h : R) : Prop :=
  forall i, (S i < length cc)%nat -> (nth (S i) cc 0 - nth i cc 0 = h)%R.

(** Samples in the order [np.interp] expects, where samples at one position
    carry one value. *)
Definition knot_le (p q : R * R) : Prop :=
  (fst p <= fst q)%R /\ (fst p = fst q -> snd p = snd q).

(** The points (0,0), (1,0), ..., (n-1,0) over the reals. *)
Definition unit_line (n : nat) : side R :=
  map (fun i => (IZR i, 0%R)) (zrange_from 0 n).

(** The state of a head walk with extents [e1], [e2]: the cursors are inside
    their extents, and each stored pair has moved at least one cursor. *)
Definition head_walk_inv (e1 e2 : Z) (st : walk_state) : Prop :=
  0 <= c1 st <= e1 /\ 0 <= c2 st <= e2 /\ cur_p_I st + 1 <= c1 st + c2 st.

(** What a pass of [h__getMatches] leaves in [match_I]: entry [i] holds an
    index of the window of point [i]. *)
Definition in_window (left_I right_I m : list Z) (i : nat) : Prop :=
  nth i left_I 0 <= nth i m 0 < nth i right_I 0.

(** One move of the walk, from the pair of cursors [p] to the pair [q]:
    both cursors step, or one of them does. *)
Definition walk_move (s1 e1 : Z) (p q : Z * Z) : Prop :=
  (fst q = walk_next s1 e1 (fst p) /\ snd q = walk_next s1 e1 (snd p))
  \/ (fst q = walk_next s1 e1 (fst p) /\ snd q = snd p)
  \/ (fst q = fst p /\ snd q = walk_next s1 e1 (snd p)).

(** A sequence of pairs, each one move after the one before; [p] is where
    the walk starts. *)
Fixpoint walk_path (s1 e1 : Z) (p : Z * Z) (l : list (Z * Z)) : Prop :=
  match l with
  | [] => True
  | q :: t => walk_move s1 e1 p q /\ walk_path s1 e1 q t
  end.

(** The state of a walk from ([s1], [s2]) after at least one turn: the pairs
    written so far are [done] followed by the pair of cursors. *)
Definition walk_written (s1 e1 s2 e2 : Z) (done : list (Z * Z)) (st : walk_state)
  : Prop :=
  Z.of_nat (length done) = cur_p_I st
  /\ firstn (S (length done)) (p1_I st) = map fst done ++ [c1 st]
  /\ firstn (S (length done)) (p2_I st) = map snd done ++ [c2 st]
  /\ walk_path s1 e1 (s1, s2) (done ++ [(c1 st, c2 st)])
  /\ Forall (fun q => fst q <> e1 /\ snd q <> e2) done.

(** numpy's [arctan2] over the reals, from the arc tangent of the library. *)
Definition R_arctan2 (y x : R) : R :=
  if Rlt_dec 0 x then atan (y / x)
  else if Rlt_dec x 0 then
         (if Rle_dec 0 y then atan (y / x) + PI else atan (y / x) - PI)%R
       else if Rlt_dec 0 y then (PI / 2)%R
            else if Rlt_dec y 0 then (- PI / 2)%R else 0%R.

(** [isnan] over the reals: no real number is not-a-number. *)
Definition no_nan (x : R) : bool := false.

(** The state of a walk whose reads and writes are all in range. *)
Definition walk_in_range (s1 e1 s2 e2 : Z) (n1 n2 : nat) (st : walk_state) : Prop :=
  (if e1 <? s1 then e1 <= c1 st <= s1 /\ e2 <= c2 st <= s2
   else s1 <= c1 st <= e1 /\ s2 <= c2 st <= e2)
  /\ -1 <= cur_p_I st
  /\ cur_p_I st + 1 <= Z.abs (c1 st - s1) + Z.abs (c2 st - s2)
  /\ length (p1_I st) = BUFFER_SIZE /\ length (p2_I st) = BUFFER_SIZE
  /\ Forall (fun a => 0 <= a < Z.of_nat n1) (p1_I st)
  /\ Forall (fun a => 0 <= a < Z.of_nat n2) (p2_I st).

(** The three arrays of [h__getMatches], for sides of [n1] and [n2] points:
    they hold one entry per point of side 1, and every match but the last is
    an index of side 2. *)
Definition matching_state {F} (n1 n2 : nat) (st : match_state F) : Prop :=
  length (match_I st) = n1 /\ length (dp_values st) = n1
  /\ length (all_signs_used st) = n1
  /\ forall k, (S k < n1)%nat -> 0 <= nth k (match_I st) 0 < Z.of_nat n2.

(** * Properties *)

Unset Implicit Arguments.

(** ** The error monad and Python indexing *)

Lemma bind_Ok {A B} (r : result A) (k : A -> result B) (b : B) :
  bind r k = Ok b -> exists a, r = Ok a /\ k a = Ok b.
Proof. destruct r as [a|e]; simpl; intros H; [eauto | discriminate]. Qed.

Ltac inv_bind H :=
  let x := fresh "x" in
  let Hx := fresh "Hx" in
  apply bind_Ok in H; destruct H as (x & Hx & H).

Lemma upd_length {A} (k : nat) (x : A) (l : list A) : length (upd k x l) = length l.
Proof.
  revert k; induction l as [|h t IH]; intros [|k]; simpl; auto.
Qed.

Lemma py_norm_Some (n : nat) (i : Z) (k : nat) :
  py_norm n i = Some k ->
  (k < n)%nat /\ (Z.of_nat k = i \/ Z.of_nat k = Z.of_nat n + i).
Proof.
  unfold py_norm.
  destruct (0 <=? i) eqn:H0.
  - destruct (i <? Z.of_nat n) eqn:H1; intros E; inversion E; subst. lia.
  - destruct (- Z.of_nat n <=? i) eqn:H1; intros E; inversion E; subst. lia.
Qed.

Lemma py_norm_nonneg (n : nat) (i : Z) :
  0 <= i < Z.of_nat n -> py_norm n i = Some (Z.to_nat i).
Proof.
  intros H. unfold py_norm.
  destruct (0 <=? i) eqn:H0; [|lia].
  destruct (i <? Z.of_nat n) eqn:H1; [reflexivity|lia].
Qed.

Lemma py_norm_too_big (n : nat) (i : Z) : Z.of_nat n <= i -> py_norm n i = None.
Proof.
  intros H. unfold py_norm.
  destruct (0 <=? i) eqn:H0; [|lia].
  destruct (i <? Z.of_nat n) eqn:H1; [lia|reflexivity].
Qed.

Lemma py_get_in_range {A} (l : list A) (i : Z) :
  0 <= i < Z.of_nat (length l) -> exists x, py_get l i = Ok x /\ nth_error l (Z.to_nat i) = Some x.
Proof.
  intros H. unfold py_get. rewrite py_norm_nonneg by assumption.
  destruct (nth_error l (Z.to_nat i)) as [x|] eqn:E; [eauto|].
  apply nth_error_None in E. lia.
Qed.

Lemma py_get_Ok {A} (l : list A) (i : Z) (x : A) :
  py_get l i = Ok x -> exists k, py_norm (length l) i = Some k /\ nth_error l k = Some x.
Proof.
  unfold py_get. destruct (py_norm (length l) i) as [k|]; [|discriminate].
  destruct (nth_error l k) as [y|] eqn:E; [|discriminate].
  intros H; inversion H; subst. eauto.
Qed.

Lemma py_set_Ok {A} (l : list A) (i : Z) (x : A) (l' : list A) :
  py_set l i x = Ok l' ->
  exists k, py_norm (length l) i = Some k /\ l' = upd k x l.
Proof.
  unfold py_set. destruct (py_norm (length l) i) as [k|]; [|discriminate].
  intros H; inversion H; eauto.
Qed.

Lemma py_set_length {A} (l : list A) (i : Z) (x : A) (l' : list A) :
  py_set l i x = Ok l' -> length l' = length l.
Proof.
  intros H. apply py_set_Ok in H. destruct H as (k & _ & ->). apply upd_length.
Qed.

Lemma py_set_in_range {A} (l : list A) (i : Z) (x : A) :
  0 <= i < Z.of_nat (length l) -> py_set l i x = Ok (upd (Z.to_nat i) x l).
Proof. intros H. unfold py_set. now rewrite py_norm_nonneg. Qed.

Lemma Forall_upd {A} (P : A -> Prop) (k : nat) (x : A) (l : list A) :
  P x -> Forall P l -> Forall P (upd k x l).
Proof.
  intros Hx Hl. revert k. induction Hl as [|h t Hh Ht IH]; intros [|k]; simpl; auto.
Qed.

(** ** The end walk: shape of a step, fuel, buffer *)

Section WalkFacts.
Context {F : Type} {NF : NumOps F}.

Lemma emit_Ok (st : walk_state) (k a b : Z) (st' : walk_state) :
  emit st k a b = Ok st' ->
  c1 st' = a /\ c2 st' = b /\ cur_p_I st' = k
  /\ (exists j, py_norm (length (p1_I st)) k = Some j /\ p1_I st' = upd j a (p1_I st))
  /\ (exists j, py_norm (length (p2_I st)) k = Some j /\ p2_I st' = upd j b (p2_I st)).
Proof.
  unfold emit. intros H. inv_bind H. inv_bind H. inversion H; subst; simpl.
  apply py_set_Ok in Hx, Hx0. auto.
Qed.

(** What a completed turn of the loop did: it read the three distances and
    wrote the new pair of cursors, which is one of three moves; on a tie of
    the two one-sided distances it is the joint move. *)
Lemma walk_step_Ok (s1 e1 : Z) (d : matrix F) (xy1 xy2 : side F)
      (st st' : walk_state) :
  walk_step s1 e1 d xy1 xy2 st = Ok st' ->
  let next1 := walk_next s1 e1 (c1 st) in
  let next2 := walk_next s1 e1 (c2 st) in
  exists d_n1c2 d_n2c1 a b,
    py_get2 d next1 (c2 st) = Ok d_n1c2
    /\ py_get2 d (c1 st) next2 = Ok d_n2c1
    /\ emit st (cur_p_I st + 1) a b = Ok st'
    /\ ((a = next1 /\ b = next2) \/ (a = next1 /\ b = c2 st) \/ (a = c1 st /\ b = next2))
    /\ (feqb d_n1c2 d_n2c1 = true -> a = next1 /\ b = next2).
Proof.
  intros H. cbv zeta. unfold walk_step in H.
  set (next1 := walk_next s1 e1 (c1 st)) in *.
  set (next2 := walk_next s1 e1 (c2 st)) in *.
  inv_bind H. inv_bind H. inv_bind H. inv_bind H. inv_bind H.
  exists x2, x3.
  destruct (feqb x2 x3) eqn:Etie; simpl in H.
  - exists next1, (next2). repeat split; auto.
  - destruct (fleb x1 x2 && fleb x1 x3).
    + exists next1, next2. repeat split; auto; discriminate.
    + destruct (negb (count_positive_products x x0 =? 0)).
      * destruct (fltb x2 x3).
        -- exists next1, (c2 st). repeat split; auto; discriminate.
        -- exists (c1 st), next2. repeat split; auto; discriminate.
      * inv_bind H.
        destruct (fltb x4 x2 && fltb x4 x3).
        -- exists next1, next2. repeat split; auto; discriminate.
        -- destruct (fltb x2 x3).
           ++ exists next1, (c2 st). repeat split; auto; discriminate.
           ++ exists (c1 st), next2. repeat split; auto; discriminate.
Qed.

End WalkFacts.

Section WalkClaims.
Context {F : Type} {NF : NumOps F}.

(** C8.  A completed step of the end walk read the two one-sided distances
    [d(next1,c2)] and [d(c1,next2)]; when they are equal it moved both
    cursors; in every case it moved side 1 only, side 2 only or both, and a
    moved cursor is exactly one position closer to its end. *)
Theorem walk_step_tie_moves_both (s1 e1 e2 : Z) (d : matrix F) (xy1 xy2 : side F)
        (st st' : walk_state) :
  walk_step s1 e1 d xy1 xy2 st = Ok st' ->
  before_ends s1 e1 e2 st ->
  let next1 := walk_next s1 e1 (c1 st) in
  let next2 := walk_next s1 e1 (c2 st) in
  (exists d_n1c2 d_n2c1,
      py_get2 d next1 (c2 st) = Ok d_n1c2
      /\ py_get2 d (c1 st) next2 = Ok d_n2c1
      /\ (feqb d_n1c2 d_n2c1 = true -> c1 st' = next1 /\ c2 st' = next2))
  /\ ((c1 st' = next1 /\ c2 st' = next2)
      \/ (c1 st' = next1 /\ c2 st' = c2 st)
      \/ (c1 st' = c1 st /\ c2 st' = next2))
  /\ Z.abs (e1 - next1) = Z.abs (e1 - c1 st) - 1
  /\ Z.abs (e2 - next2) = Z.abs (e2 - c2 st) - 1.
Proof.
  intros Hstep Hbefore. cbv zeta.
  apply walk_step_Ok in Hstep. cbv zeta in Hstep.
  destruct Hstep as (w12 & w21 & a & b & Hr1 & Hr2 & Hemit & Hmove & Htie).
  apply emit_Ok in Hemit. destruct Hemit as (Ha & Hb & _).
  rewrite Ha, Hb.
  split; [exists w12, w21; auto|].
  split; [exact Hmove|].
  unfold before_ends in Hbefore. unfold walk_next.
  destruct (e1 <? s1); lia.
Qed.

(** The cursors stay before their ends for as long as the loop goes on. *)
Lemma before_ends_preserved (s1 e1 e2 : Z) (d : matrix F) (xy1 xy2 : side F)
      (st st' : walk_state) :
  walk_step s1 e1 d xy1 xy2 st = Ok st' ->
  before_ends s1 e1 e2 st ->
  negb (c1 st' =? e1) && negb (c2 st' =? e2) = true ->
  before_ends s1 e1 e2 st'.
Proof.
  intros Hstep Hbefore Hguard.
  apply walk_step_Ok in Hstep. cbv zeta in Hstep.
  destruct Hstep as (w12 & w21 & a & b & _ & _ & Hemit & Hmove & _).
  apply emit_Ok in Hemit. destruct Hemit as (Ha & Hb & _).
  apply andb_true_iff in Hguard. destruct Hguard as (G1 & G2).
  apply negb_true_iff, Z.eqb_neq in G1, G2.
  unfold before_ends in *. unfold walk_next in Hmove.
  destruct (e1 <? s1); lia.
Qed.

(** Both walks of [h__updateEndsByWalking] start before their ends when the
    loop is entered at all (the walk extent [w] is a ceiling, hence [0 <= w]). *)
Lemma before_ends_initial (n1 n2 w : Z) :
  0 <= w ->
  (negb (0 =? w) && negb (0 =? 2 * w) = true ->
   before_ends 0 w (2 * w) (walk_init 0 0))
  /\ (negb (n1 - 1 =? n1 - w + 1) && negb (n2 - 1 =? n2 - 2 * w + 1) = true ->
      before_ends (n1 - 1) (n1 - w + 1) (n2 - 2 * w + 1) (walk_init (n1 - 1) (n2 - 1))).
Proof.
  intros Hw. unfold before_ends, walk_init; simpl c1; simpl c2. split; intros G;
    apply andb_true_iff in G; destruct G as (G1 & G2);
    apply negb_true_iff, Z.eqb_neq in G1, G2.
  - destruct (w <? 0) eqn:E; [apply Z.ltb_lt in E|]; lia.
  - destruct (n1 - w + 1 <? n1 - 1) eqn:E;
      [apply Z.ltb_lt in E | apply Z.ltb_ge in E]; lia.
Qed.

End WalkClaims.

(** C8, on a concrete step: the first step of the head walk between two
    straight parallel sides of 20 points is a tie and moves both cursors. *)
Lemma walk_step_tie_moves_both_witness :
  exists st',
    walk_step 0 3 (cross_distances (straight_side 0 20) (straight_side 1 20))
              (straight_side 0 20) (straight_side 1 20) (walk_init 0 0) = Ok st'
    /\ before_ends 0 3 6 (walk_init 0 0)
    /\ c1 st' = 1 /\ c2 st' = 1.
Proof.
  assert (Hb : before_ends 0 3 6 (walk_init 0 0)) by (vm_compute; split; reflexivity).
  destruct (walk_step 0 3 (cross_distances (straight_side 0 20) (straight_side 1 20))
              (straight_side 0 20) (straight_side 1 20) (walk_init 0 0))
    as [st'|e] eqn:Hs; [|vm_compute in Hs; discriminate].
  exists st'. split; [reflexivity|]. split; [exact Hb|].
  pose proof (walk_step_tie_moves_both 0 3 6 _ _ _ _ _ Hs Hb) as H.
  cbv zeta in H. destruct H as ((w12 & w21 & H1 & H2 & Htie) & _).
  vm_compute in H1, H2. inversion H1; inversion H2; subst.
  apply Htie. vm_compute. reflexivity.
Defined.

(** ** The pair buffers of the end walk *)

Lemma py_get_valid {A} (l : list A) (i : Z) :
  - Z.of_nat (length l) <= i < Z.of_nat (length l) ->
  exists x, py_get l i = Ok x /\ In x l.
Proof.
  intros H. unfold py_get, py_norm.
  destruct (0 <=? i) eqn:H0.
  - destruct (i <? Z.of_nat (length l)) eqn:H1; [|lia].
    destruct (nth_error l (Z.to_nat i)) as [x|] eqn:E.
    + exists x. split; [reflexivity|]. eapply nth_error_In; eauto.
    + apply nth_error_None in E. lia.
  - destruct (- Z.of_nat (length l) <=? i) eqn:H1; [|lia].
    destruct (nth_error l (Z.to_nat (Z.of_nat (length l) + i))) as [x|] eqn:E.
    + exists x. split; [reflexivity|]. eapply nth_error_In; eauto.
    + apply nth_error_None in E. lia.
Qed.

Lemma py_get2_in_range {A} (d : list (list A)) (n1 n2 : nat) (i j : Z) :
  rectangular d n1 n2 -> 0 <= i < Z.of_nat n1 -> 0 <= j < Z.of_nat n2 ->
  exists x, py_get2 d i j = Ok x.
Proof.
  intros (Hlen & Hrows) Hi Hj. unfold py_get2.
  destruct (py_get_valid d i) as (row & Hrow & Hin); [lia|].
  rewrite Hrow. simpl.
  rewrite Forall_forall in Hrows. specialize (Hrows row Hin).
  destruct (py_get_valid row j) as (x & Hx & _); [lia|]. eauto.
Qed.

Section WalkBuffer.
Context {F : Type} {NF : NumOps F}.

Lemma col_diff_in_range (xy : side F) (a b : Z) :
  0 <= a < Z.of_nat (length xy) -> 0 <= b < Z.of_nat (length xy) ->
  exists v, col_diff xy a b = Ok v.
Proof.
  intros Ha Hb. unfold col_diff.
  destruct (py_get_valid xy a) as (pa & -> & _); [lia|].
  destruct (py_get_valid xy b) as (pb & -> & _); [lia|].
  simpl. eauto.
Qed.

(** When all its reads are in range, a turn of the loop comes down to the
    write of one of the three moves. *)
Lemma walk_step_shape (s1 e1 : Z) (d : matrix F) (xy1 xy2 : side F)
      (st : walk_state) (n1 n2 : nat) :
  rectangular d n1 n2 -> length xy1 = n1 -> length xy2 = n2 ->
  0 <= c1 st < Z.of_nat n1 -> 0 <= walk_next s1 e1 (c1 st) < Z.of_nat n1 ->
  0 <= c2 st < Z.of_nat n2 -> 0 <= walk_next s1 e1 (c2 st) < Z.of_nat n2 ->
  - Z.of_nat (length (p1_I st)) <= cur_p_I st < Z.of_nat (length (p1_I st)) ->
  length (p2_I st) = length (p1_I st) ->
  Forall (fun a => 0 <= a < Z.of_nat n1) (p1_I st) ->
  Forall (fun a => 0 <= a < Z.of_nat n2) (p2_I st) ->
  exists a b,
    walk_step s1 e1 d xy1 xy2 st = emit st (cur_p_I st + 1) a b
    /\ (a = walk_next s1 e1 (c1 st) \/ a = c1 st)
    /\ (b = walk_next s1 e1 (c2 st) \/ b = c2 st).
Proof.
  intros Hd H1 H2 Hc1 Hn1 Hc2 Hn2 Hk Hlen Hp1 Hp2.
  unfold walk_step.
  set (next1 := walk_next s1 e1 (c1 st)) in *.
  set (next2 := walk_next s1 e1 (c2 st)) in *.
  destruct (col_diff_in_range xy1 next1 (c1 st)) as (v1 & ->); [lia|lia|].
  destruct (col_diff_in_range xy2 next2 (c2 st)) as (v2 & ->); [lia|lia|].
  destruct (py_get2_in_range d n1 n2 next1 next2 Hd) as (w & ->); [lia|lia|].
  destruct (py_get2_in_range d n1 n2 next1 (c2 st) Hd) as (w12 & ->); [lia|lia|].
  destruct (py_get2_in_range d n1 n2 (c1 st) next2 Hd) as (w21 & ->); [lia|lia|].
  simpl.
  assert (Both : exists a b,
             emit st (cur_p_I st + 1) next1 next2 = emit st (cur_p_I st + 1) a b
             /\ (a = next1 \/ a = c1 st) /\ (b = next2 \/ b = c2 st))
    by (exists next1, next2; auto).
  assert (Side1 : exists a b,
             emit st (cur_p_I st + 1) next1 (c2 st) = emit st (cur_p_I st + 1) a b
             /\ (a = next1 \/ a = c1 st) /\ (b = next2 \/ b = c2 st))
    by (exists next1, (c2 st); auto).
  assert (Side2 : exists a b,
             emit st (cur_p_I st + 1) (c1 st) next2 = emit st (cur_p_I st + 1) a b
             /\ (a = next1 \/ a = c1 st) /\ (b = next2 \/ b = c2 st))
    by (exists (c1 st), next2; auto).
  destruct (feqb w12 w21 || fleb w w12 && fleb w w21); [exact Both|].
  destruct (negb (count_positive_products v1 v2 =? 0)).
  { destruct (fltb w12 w21); assumption. }
  assert (Hprev : exists pw,
             (if cur_p_I st + 1 =? 1 then Ok (of_Z 0)
              else a <- py_get (p1_I st) (cur_p_I st + 1 - 1) ;;
                   b <- py_get (p2_I st) (cur_p_I st + 1 - 1) ;;
                   py_get2 d a b) = Ok pw).
  { destruct (cur_p_I st + 1 =? 1); [eauto|].
    replace (cur_p_I st + 1 - 1) with (cur_p_I st) by lia.
    destruct (py_get_valid (p1_I st) (cur_p_I st)) as (a & -> & Ha); [lia|].
    destruct (py_get_valid (p2_I st) (cur_p_I st)) as (b & -> & Hb); [lia|].
    simpl. rewrite Forall_forall in Hp1, Hp2.
    apply (py_get2_in_range d n1 n2 a b Hd); auto. }
  destruct Hprev as (pw & ->). simpl.
  destruct (fltb pw w12 && fltb pw w21); [exact Both|].
  destruct (fltb w12 w21); assumption.
Qed.

Lemma emit_in_range (st : walk_state) (k a b : Z) :
  0 <= k < Z.of_nat (length (p1_I st)) -> length (p2_I st) = length (p1_I st) ->
  emit st k a b
  = Ok (mkWalk a b k (upd (Z.to_nat k) a (p1_I st)) (upd (Z.to_nat k) b (p2_I st))).
Proof.
  intros Hk Hlen. unfold emit.
  rewrite py_set_in_range by assumption. simpl.
  rewrite py_set_in_range by lia. reflexivity.
Qed.

Lemma emit_full (st : walk_state) (k a b : Z) :
  Z.of_nat (length (p1_I st)) <= k -> emit st k a b = Raise IndexError.
Proof.
  intros Hk. unfold emit, py_set. now rewrite py_norm_too_big.
Qed.

(** A completed turn moved the pair counter by one, kept the buffers' sizes
    and wrote inside them. *)
Lemma walk_step_counter (s1 e1 : Z) (d : matrix F) (xy1 xy2 : side F)
      (st st' : walk_state) :
  walk_step s1 e1 d xy1 xy2 st = Ok st' ->
  cur_p_I st' = cur_p_I st + 1
  /\ length (p1_I st') = length (p1_I st)
  /\ length (p2_I st') = length (p2_I st)
  /\ (0 <= cur_p_I st + 1 -> cur_p_I st + 1 < Z.of_nat (length (p1_I st))).
Proof.
  intros H. apply walk_step_Ok in H. cbv zeta in H.
  destruct H as (_ & _ & a & b & _ & _ & Hemit & _).
  apply emit_Ok in Hemit.
  destruct Hemit as (_ & _ & Hk & (j1 & Hj1 & E1) & (j2 & Hj2 & E2)).
  rewrite Hk, E1, E2, !upd_length. repeat split; auto.
  intros Hpos. apply py_norm_Some in Hj1. lia.
Qed.

(** The loop returns within [S BUFFER_SIZE] turns: the fuel of
    [h__getPartnersViaWalk] never runs out. *)
Lemma walk_loop_fuel (fuel : nat) (s1 e1 e2 : Z) (d : matrix F) (xy1 xy2 : side F)
      (st : walk_state) :
  length (p1_I st) = BUFFER_SIZE ->
  -1 <= cur_p_I st <= 199 ->
  200 <= Z.of_nat fuel + cur_p_I st ->
  exists r, walk_loop fuel s1 e1 e2 d xy1 xy2 st = Some r.
Proof.
  revert st. induction fuel as [|fuel IH]; intros st Hlen Hk Hfuel; [lia|].
  simpl. destruct (negb (c1 st =? e1) && negb (c2 st =? e2)); [|eauto].
  destruct (walk_step s1 e1 d xy1 xy2 st) as [st'|e] eqn:Hstep; [|eauto].
  apply walk_step_counter in Hstep. destruct Hstep as (Hk' & Hl1 & _ & Hin).
  rewrite Hlen in Hin. unfold BUFFER_SIZE in Hin.
  apply IH; [congruence | lia | lia].
Qed.

Lemma walk_fuel_enough (s1 e1 s2 e2 : Z) (d : matrix F) (xy1 xy2 : side F) :
  exists r,
    walk_loop (S BUFFER_SIZE) s1 e1 e2 d xy1 xy2 (walk_init s1 s2) = Some r
    /\ h__getPartnersViaWalk s1 e1 s2 e2 d xy1 xy2
       = match r with Ok st => Ok (walk_trim st) | Raise e => Raise e end.
Proof.
  destruct (walk_loop_fuel (S BUFFER_SIZE) s1 e1 e2 d xy1 xy2 (walk_init s1 s2))
    as (r & Hr).
  - apply repeat_length.
  - simpl. lia.
  - simpl cur_p_I. unfold BUFFER_SIZE. lia.
  - exists r. split; [exact Hr|]. unfold h__getPartnersViaWalk. rewrite Hr.
    destruct r; reflexivity.
Qed.

End WalkBuffer.

Section WalkOverflow.
Context {F : Type} {NF : NumOps F}.
Variables (d : matrix F) (xy1 xy2 : side F) (n1 n2 : nat).
Hypothesis Hd : rectangular d n1 n2.
Hypothesis Hxy1 : length xy1 = n1.
Hypothesis Hxy2 : length xy2 = n2.
Hypothesis Hn1 : (201 < n1)%nat.
Hypothesis Hn2 : (201 < n2)%nat.

Lemma up_walk_init : up_walk_inv (walk_init 0 0).
Proof.
  unfold up_walk_inv, walk_init; cbn [c1 c2 cur_p_I p1_I p2_I].
  repeat split; try lia; try apply repeat_length;
    apply Forall_forall; intros a Ha; apply repeat_spec in Ha; lia.
Qed.

(** A turn of a walk going up: it completes while a buffer slot is left,
    and raises [IndexError] at the write once 200 pairs are stored. *)
Lemma up_walk_step (s1 e1 : Z) (st : walk_state) :
  s1 <= e1 -> up_walk_inv st ->
  (cur_p_I st + 1 < 200 ->
   exists st', walk_step s1 e1 d xy1 xy2 st = Ok st' /\ up_walk_inv st'
               /\ cur_p_I st' = cur_p_I st + 1)
  /\ (cur_p_I st + 1 = 200 -> walk_step s1 e1 d xy1 xy2 st = Raise IndexError).
Proof.
  intros Hdir (Hc1 & Hc2 & Hk & Hl1 & Hl2 & Hp1 & Hp2).
  assert (Hnext : forall c, walk_next s1 e1 c = c + 1).
  { intros c. unfold walk_next. destruct (e1 <? s1) eqn:E; [|reflexivity].
    apply Z.ltb_lt in E. lia. }
  unfold BUFFER_SIZE in *.
  destruct (walk_step_shape s1 e1 d xy1 xy2 st n1 n2) as (a & b & Hstep & Ha & Hb);
    try assumption; rewrite ?Hnext; try lia.
  - eapply Forall_impl; [|exact Hp1]. simpl. intros; lia.
  - eapply Forall_impl; [|exact Hp2]. simpl. intros; lia.
  - rewrite !Hnext in Ha, Hb. rewrite Hstep. split; intros Hslot.
    + rewrite emit_in_range by lia.
      eexists. split; [reflexivity|]. split; [|reflexivity].
      unfold up_walk_inv, BUFFER_SIZE; cbn [c1 c2 cur_p_I p1_I p2_I].
      rewrite !upd_length.
      repeat split; try lia; apply Forall_upd; auto; lia.
    + apply emit_full. lia.
Qed.

Lemma up_walk_overflows (fuel : nat) (s1 e1 e2 : Z) (st : walk_state) :
  s1 <= e1 -> 200 < e1 -> 200 < e2 -> up_walk_inv st ->
  200 < Z.of_nat fuel + (cur_p_I st + 1) ->
  walk_loop fuel s1 e1 e2 d xy1 xy2 st = Some (Raise IndexError).
Proof.
  intros Hdir He1 He2. revert st.
  induction fuel as [|fuel IH]; intros st Hinv Hfuel.
  - destruct Hinv as (_ & _ & Hk & _). lia.
  - simpl.
    assert (G : negb (c1 st =? e1) && negb (c2 st =? e2) = true).
    { destruct Hinv as (Hc1 & Hc2 & Hk & _).
      apply andb_true_iff; split; apply negb_true_iff, Z.eqb_neq; lia. }
    rewrite G.
    destruct (up_walk_step s1 e1 st Hdir Hinv) as (Hgo & Hstop).
    destruct (Z.eq_dec (cur_p_I st + 1) 200) as [E|E].
    + now rewrite (Hstop E).
    + destruct Hgo as (st' & -> & Hinv' & Hk').
      { destruct Hinv as (_ & _ & Hk & _). lia. }
      apply IH; [exact Hinv'|lia].
Qed.

(** A head walk with extents beyond 200 fills both buffers and fails on the
    write of pair number 200, whatever the distances are. *)
Lemma head_walk_overflows (e1 e2 : Z) :
  200 < e1 -> 200 < e2 ->
  h__getPartnersViaWalk 0 e1 0 e2 d xy1 xy2 = Raise IndexError.
Proof.
  intros He1 He2. unfold h__getPartnersViaWalk.
  rewrite (up_walk_overflows (S BUFFER_SIZE) 0 e1 e2 (walk_init 0 0));
    auto using up_walk_init; try lia.
  simpl cur_p_I. unfold BUFFER_SIZE. lia.
Qed.

End WalkOverflow.

Section Distances.
Context {F : Type} {NF : NumOps F}.

Lemma map2_length {A B C} (f : A -> B -> C) (l1 : list A) (l2 : list B) :
  length l1 = length l2 -> length (map2 f l1 l2) = length l1.
Proof.
  intros H. unfold map2. rewrite length_map, length_combine. lia.
Qed.

Lemma cross_distances_rectangular (s1 s2 : side F) :
  rectangular (cross_distances s1 s2) (length s1) (length s2).
Proof.
  unfold rectangular, cross_distances, mat_map2, across. split.
  - rewrite map2_length; rewrite !length_map; reflexivity.
  - induction s1 as [|p s1 IH]; [constructor|].
    unfold map2 in *. simpl. constructor; [|exact IH].
    rewrite length_map, length_combine, !length_map. lia.
Qed.

(** Where the pair buffers are large enough: in a head walk every write
    index is at most [e1 + e2 - 2], that is [3 * ceil(n_s1 * 0.15) - 2],
    which stays below 200 for sides of up to 446 points. *)
Lemma head_walk_write_index (e1 e2 : Z) (d : matrix F) (xy1 xy2 : side F)
      (st st' : walk_state) :
  0 <= e1 -> head_walk_inv e1 e2 st ->
  negb (c1 st =? e1) && negb (c2 st =? e2) = true ->
  walk_step 0 e1 d xy1 xy2 st = Ok st' ->
  head_walk_inv e1 e2 st' /\ cur_p_I st' <= e1 + e2 - 2.
Proof.
  intros He1 (Hc1 & Hc2 & Hk) G Hstep.
  apply andb_true_iff in G. destruct G as (G1 & G2).
  apply negb_true_iff, Z.eqb_neq in G1, G2.
  apply walk_step_Ok in Hstep. cbv zeta in Hstep.
  destruct Hstep as (_ & _ & a & b & _ & _ & Hemit & Hmove & _).
  apply emit_Ok in Hemit. destruct Hemit as (Ha & Hb & Hcur & _).
  unfold walk_next in Hmove.
  destruct (e1 <? 0) eqn:E; [apply Z.ltb_lt in E; lia|].
  unfold head_walk_inv. rewrite Ha, Hb, Hcur. lia.
Qed.

Lemma head_walk_inv_init (e1 e2 : Z) :
  0 <= e1 -> 0 <= e2 -> head_walk_inv e1 e2 (walk_init 0 0).
Proof. intros H1 H2. unfold head_walk_inv, walk_init; cbn [c1 c2 cur_p_I]. lia. Qed.

(** C10.  On a frame whose walk extent [ceil(n_s1 * 0.15)] exceeds 200, with
    more than 201 points on each side, the head walk of
    [h__updateEndsByWalking] writes past the 200 slots of the pair buffers:
    the call ends in [IndexError], whatever the contour looks like. *)
Theorem end_walk_overflows_buffer (d_across : matrix F) (match_I1 : list Z)
        (s1 s2 : side F) :
  rectangular d_across (length s1) (length s2) ->
  200 < fceil (fmul (of_Z (Z.of_nat (length s1))) END_S1_WALK_PCT) ->
  (201 < length s1)%nat -> (201 < length s2)%nat ->
  h__updateEndsByWalking d_across match_I1 s1 s2 END_S1_WALK_PCT = Raise IndexError.
Proof.
  intros Hd Hw H1 H2. unfold h__updateEndsByWalking.
  rewrite (head_walk_overflows d_across s1 s2 (length s1) (length s2));
    auto; lia.
Qed.

End Distances.

Lemma zrange_from_length (a : Z) (n : nat) : length (zrange_from a n) = n.
Proof. revert a; induction n as [|n IH]; intros a; simpl; auto. Qed.

Lemma straight_side_length (y : float) (n : nat) : length (straight_side y n) = n.
Proof. unfold straight_side. now rewrite length_map, zrange_from_length. Qed.

(** C10 at a frame of two straight sides of 2000 points: the walk extent is
    300 and the buffers overflow. *)
Lemma end_walk_overflows_buffer_witness :
  h__updateEndsByWalking
    (cross_distances (straight_side 0 2000) (straight_side 1 2000))
    (repeat 0 2000) (straight_side 0 2000) (straight_side 1 2000)
    END_S1_WALK_PCT
  = Raise IndexError.
Proof.
  apply end_walk_overflows_buffer.
  - apply cross_distances_rectangular.
  - rewrite straight_side_length. vm_compute. reflexivity.
  - rewrite straight_side_length. lia.
  - rewrite straight_side_length. lia.
Defined.

(** ** The ordering repair *)

Lemma py_clip_nonneg (n : nat) (i : Z) : 0 <= i -> py_clip n i = Nat.min n (Z.to_nat i).
Proof. intros H. unfold py_clip. destruct (i <? 0) eqn:E; [lia|reflexivity]. Qed.

Lemma py_clip_neg (n : nat) (i : Z) :
  i < 0 -> py_clip n i = Z.to_nat (Z.max 0 (Z.of_nat n + i)).
Proof. intros H. unfold py_clip. destruct (i <? 0) eqn:E; [reflexivity|lia]. Qed.

Lemma py_clip_minus (n k : nat) : (0 < k)%nat -> py_clip n (- Z.of_nat k) = (n - k)%nat.
Proof. intros H. rewrite py_clip_neg by lia. lia. Qed.

Lemma py_slice_inner {A} (l : list A) :
  py_slice l 1 (-1) = firstn (length l - 2) (skipn 1 l).
Proof.
  unfold py_slice. rewrite (py_clip_nonneg _ 1) by lia.
  change (-1) with (- Z.of_nat 1). rewrite py_clip_minus by lia.
  destruct l as [|a [|b t]]; reflexivity.
Qed.

Lemma py_from_two {A} (l : list A) : py_from l 2 = skipn 2 l.
Proof.
  unfold py_from. rewrite py_clip_nonneg by lia.
  destruct l as [|a [|b t]]; try reflexivity.
  simpl length. replace (Nat.min (S (S (length t))) (Z.to_nat 2)) with 2%nat by lia.
  reflexivity.
Qed.

Lemma py_upto_minus_two {A} (l : list A) : py_upto l (-2) = firstn (length l - 2) l.
Proof.
  unfold py_upto, py_slice. rewrite (py_clip_nonneg _ 0) by lia.
  change (-2) with (- Z.of_nat 2). rewrite py_clip_minus by lia.
  replace (Nat.min (length l) (Z.to_nat 0)) with 0%nat by lia.
  simpl skipn. f_equal. lia.
Qed.

Lemma is_good_mask_cons (a : Z) (l : list Z) :
  is_good_mask (a :: l) = true :: good_tail a l.
Proof.
  unfold is_good_mask. rewrite py_slice_inner, py_from_two, py_upto_minus_two.
  simpl app. f_equal.
  revert a. induction l as [|x t IH]; intros a; [reflexivity|].
  destruct t as [|y r]; [reflexivity|].
  specialize (IH x).
  change (good_tail a (x :: y :: r))
    with (((x <=? y) && (x >=? a)) :: good_tail x (y :: r)).
  rewrite <- IH.
  cbn [length Nat.sub skipn firstn]. unfold map2.
  cbn [combine map fst snd app]. rewrite !Nat.sub_0_r. reflexivity.
Qed.

Lemma mask_select_map {A B} (f : A -> B) (l : list A) (mask : list bool) (r : list A) :
  mask_select l mask = Ok r -> mask_select (map f l) mask = Ok (map f r).
Proof.
  revert mask r. induction l as [|x l IH]; intros [|b mask] r; simpl; try discriminate.
  - intros H; inversion H; reflexivity.
  - intros H. inv_bind H. inversion H; subst. rewrite (IH _ _ Hx). simpl.
    destruct b; reflexivity.
Qed.

Lemma mask_select_good_tail (prev : Z) (l : list (Z * Z)) :
  l <> [] ->
  mask_select l (good_tail prev (map snd l)) = Ok (keep_locally_ordered prev l).
Proof.
  revert prev. induction l as [|x t IH]; intros prev Hne; [congruence|].
  destruct t as [|y r]; [reflexivity|].
  specialize (IH (snd x) ltac:(discriminate)).
  cbn [map] in *.
  change (good_tail prev (snd x :: snd y :: map snd r))
    with (((snd x <=? snd y) && (snd x >=? prev))
            :: good_tail (snd x) (snd y :: map snd r)).
  change (mask_select (x :: y :: r)
            (((snd x <=? snd y) && (snd x >=? prev))
               :: good_tail (snd x) (snd y :: map snd r)))
    with (bind (mask_select (y :: r) (good_tail (snd x) (snd y :: map snd r)))
               (fun r0 => Ok (if (snd x <=? snd y) && (snd x >=? prev)
                              then x :: r0 else r0))).
  rewrite IH. cbn [bind].
  change (keep_locally_ordered prev (x :: y :: r))
    with (if (snd x <=? snd y) && (prev <=? snd x)
          then x :: keep_locally_ordered (snd x) (y :: r)
          else keep_locally_ordered (snd x) (y :: r)).
  rewrite Z.geb_leb. destruct ((snd x <=? snd y) && (prev <=? snd x)); reflexivity.
Qed.

Lemma combine_fst_snd {A B} (l : list (A * B)) : combine (map fst l) (map snd l) = l.
Proof. induction l as [|(a, b) l IH]; simpl; [reflexivity|]. now rewrite IH. Qed.

Lemma combine_fst {A B} (l1 : list A) (l2 : list B) :
  length l1 = length l2 -> map fst (combine l1 l2) = l1.
Proof.
  revert l2; induction l1 as [|a l1 IH]; intros [|b l2]; simpl; intros H;
    try discriminate; auto. f_equal; auto.
Qed.

Lemma combine_snd {A B} (l1 : list A) (l2 : list B) :
  length l1 = length l2 -> map snd (combine l1 l2) = l2.
Proof.
  revert l2; induction l1 as [|a l1 IH]; intros [|b l2]; simpl; intros H;
    try discriminate; auto. f_equal; auto.
Qed.

(** The mask of the repair pass selects the three-point filter. *)
Lemma is_good_mask_selects (C : list (Z * Z)) :
  (2 <= length C)%nat ->
  mask_select C (is_good_mask (map snd C)) = Ok (three_point_repair C).
Proof.
  intros H2. destruct C as [|c0 [|c1 t]]; simpl in H2; try lia.
  change (map snd (c0 :: c1 :: t)) with (snd c0 :: map snd (c1 :: t)).
  rewrite is_good_mask_cons.
  change (mask_select (c0 :: c1 :: t)
            (true :: good_tail (snd c0) (map snd (c1 :: t))))
    with (bind (mask_select (c1 :: t) (good_tail (snd c0) (map snd (c1 :: t))))
               (fun r => Ok (c0 :: r))).
  rewrite (mask_select_good_tail (snd c0) (c1 :: t)) by discriminate.
  reflexivity.
Qed.

(** On at least two candidate pairs the repair pass always returns, and
    what it retains is the three-point filter of the candidate sequence: an
    interior pair is kept exactly when its side-2 index lies between those of
    its two neighbouring candidates, and the first and last pairs are kept.
    The mask is computed once, on the candidates as they are before any of
    them is dropped. *)
Lemma ordering_repair_is_three_point_filter (I_1 I_2 : list Z) :
  length I_1 = length I_2 -> (2 <= length I_2)%nat ->
  ordering_repair I_1 I_2
  = Ok (map fst (three_point_repair (combine I_1 I_2)),
        map snd (three_point_repair (combine I_1 I_2))).
Proof.
  intros Hlen H2.
  pose proof (is_good_mask_selects (combine I_1 I_2)) as Hsel.
  rewrite combine_snd in Hsel by assumption.
  rewrite length_combine in Hsel.
  specialize (Hsel ltac:(lia)).
  unfold ordering_repair.
  pose proof (mask_select_map fst _ _ _ Hsel) as Hf.
  pose proof (mask_select_map snd _ _ _ Hsel) as Hs.
  rewrite combine_fst in Hf by assumption.
  rewrite combine_snd in Hs by assumption.
  rewrite Hf, Hs. reflexivity.
Qed.

(** C1 fails on the code.  Side 1 is straight, 60 points one unit apart on
    y = 0; side 2 is [folded_side].  The frame runs through the whole call
    (smoothing, bounds, projections, end walks, repair) and yields widths
    and a skeleton; the pairs they are computed from hold, next to
    each other, (27, 41) and (30, 30): from one retained pair to the next the
    side-2 index goes down from 41 to 30.  The projections jump back from
    42 to 29 between points 28 and 29 of side 1; the mask drops those two
    candidates, which fail the test against a neighbour, and keeps the
    candidates on either side of them, which pass it. *)
Theorem crossing_pairs_are_emitted :
  exists s2' I_1 I_2 w sk,
    compute_skeleton_and_widths savgol_filter_5_3 round_to_odd_60 normals_of_straight
                                [Some (straight_side 0 60)] [Some folded_side]
    = (([Some (straight_side 0 60)], [Some s2']), Ok ([Some w], [Some sk]))
    /\ retained_pairs normals_of_straight (straight_side 0 60) s2' = Ok (I_1, I_2)
    /\ finalize (straight_side 0 60) s2' I_1 I_2 = Ok (w, sk)
    /\ nth_error I_1 26 = Some 27 /\ nth_error I_2 26 = Some 41
    /\ nth_error I_1 27 = Some 30 /\ nth_error I_2 27 = Some 30.
Proof.
  do 5 eexists.
  split; [vm_compute; reflexivity|].
  split; [vm_compute; reflexivity|].
  split; [vm_compute; reflexivity|].
  repeat split; reflexivity.
Qed.

(** The same frame with the unit normals pointing down instead of up: the
    sign handling of the projections makes up for it, and the same pairs
    come out. *)
Example crossing_pairs_with_normals_down :
  match frame_turn savgol_filter_5_3 round_to_odd_60 normals_of_straight
                   (Some (straight_side 0 60)) (Some folded_side) with
  | ((Some s1', Some s2'), Ok _) =>
      retained_pairs (fun s => Ok (map (fun _ => 0%float) s,
                                   map (fun _ => (-1)%float) s)) s1' s2'
      = retained_pairs normals_of_straight s1' s2'
  | _ => False
  end.
Proof. vm_compute. reflexivity. Qed.

(** ** Shape of the retained pairs *)

Lemma py_set_many_length {A} (l : list A) (idx : list Z) (vals l' : list A) :
  py_set_many l idx vals = Ok l' -> length l' = length l.
Proof.
  revert l vals. induction idx as [|i idx IH]; intros l [|v vals]; simpl;
    try discriminate.
  - intros H; inversion H; reflexivity.
  - intros H. inv_bind H. apply IH in H. apply py_set_length in Hx. congruence.
Qed.

Lemma py_set_all_length {A} (l : list A) (idx : list Z) (v : A) (l' : list A) :
  py_set_all l idx v = Ok l' -> length l' = length l.
Proof.
  revert l. induction idx as [|i idx IH]; intros l; simpl.
  - intros H; inversion H; reflexivity.
  - intros H. inv_bind H. apply IH in H. apply py_set_length in Hx. congruence.
Qed.

Lemma py_slice_fill_length {A} (l : list A) (lo hi : Z) (v : A) :
  length (py_slice_fill l lo hi v) = length l.
Proof.
  unfold py_slice_fill.
  assert (Hclip : forall i, (py_clip (length l) i <= length l)%nat).
  { intros i. unfold py_clip. destruct (i <? 0) eqn:E; [apply Z.ltb_lt in E|]; lia. }
  pose proof (Hclip lo). pose proof (Hclip hi).
  rewrite !length_app, length_firstn, repeat_length, length_skipn. lia.
Qed.

Lemma upd_last {A} (y : A) (l : list A) :
  l <> [] -> upd (length l - 1) y l = removelast l ++ [y].
Proof.
  induction l as [|a t IH]; [congruence|]. intros _.
  destruct t as [|b r]; [reflexivity|].
  replace (length (a :: b :: r) - 1)%nat with (S (length (b :: r) - 1))
    by (simpl length; lia).
  change (upd (S (length (b :: r) - 1)) y (a :: b :: r))
    with (a :: upd (length (b :: r) - 1) y (b :: r)).
  rewrite IH by discriminate. reflexivity.
Qed.

Lemma py_norm_minus_one (n : nat) : (0 < n)%nat -> py_norm n (-1) = Some (n - 1)%nat.
Proof.
  intros H. unfold py_norm.
  destruct (0 <=? -1) eqn:E0; [discriminate|].
  destruct (- Z.of_nat n <=? -1) eqn:E.
  - f_equal. lia.
  - apply Z.leb_gt in E. lia.
Qed.

(** [l[0] = x; l[-1] = y] on a list of at least two entries. *)
Lemma set_ends {A} (l l1 l2 : list A) (x y : A) :
  (2 <= length l)%nat ->
  py_set l 0 x = Ok l1 -> py_set l1 (-1) y = Ok l2 ->
  exists mid, l2 = x :: mid ++ [y] /\ length mid = (length l - 2)%nat.
Proof.
  intros Hlen H1 H2.
  destruct l as [|a [|b t]]; simpl in Hlen; try lia.
  unfold py_set in H1. simpl in H1. inversion H1; subst l1; clear H1.
  unfold py_set in H2. rewrite py_norm_minus_one in H2 by (simpl; lia).
  inversion H2; subst l2; clear H2.
  replace (length (x :: b :: t) - 1)%nat with (S (length (b :: t) - 1))
    by (simpl length; lia).
  change (upd (S (length (b :: t) - 1)) y (x :: b :: t))
    with (x :: upd (length (b :: t) - 1) y (b :: t)).
  replace (upd (length t) y (b :: t)) with (upd (length (b :: t) - 1) y (b :: t))
    by (f_equal; simpl length; lia).
  rewrite upd_last by discriminate.
  exists (removelast (b :: t)). split; [reflexivity|].
  pose proof (app_removelast_last b (l:=b :: t) ltac:(discriminate)) as Hrl.
  apply (f_equal (@length A)) in Hrl. rewrite length_app in Hrl. simpl length in *. lia.
Qed.

Lemma find_from_app (k : Z) (m1 m2 : list bool) :
  find_from k (m1 ++ m2) = find_from k m1 ++ find_from (k + Z.of_nat (length m1)) m2.
Proof.
  revert k. induction m1 as [|b m1 IH]; intros k; simpl.
  - f_equal. lia.
  - rewrite IH. replace (k + 1 + Z.of_nat (length m1))
      with (k + Z.pos (Pos.of_succ_nat (length m1))) by lia.
    destruct b; reflexivity.
Qed.

Lemma mask_select_app {A} (l1 l2 : list A) (m1 m2 : list bool) :
  length l1 = length m1 ->
  mask_select (l1 ++ l2) (m1 ++ m2)
  = (r1 <- mask_select l1 m1 ;; r2 <- mask_select l2 m2 ;; Ok (r1 ++ r2))%result.
Proof.
  revert m1. induction l1 as [|x l1 IH]; intros [|b m1] H; simpl in H; try discriminate.
  - simpl. destruct (mask_select l2 m2); reflexivity.
  - simpl. rewrite IH by lia.
    destruct (mask_select l1 m1) as [r1|e]; simpl; [|reflexivity].
    destruct (mask_select l2 m2) as [r2|e]; simpl; [|reflexivity].
    destruct b; reflexivity.
Qed.

Lemma mask_select_Ok_length {A} (l : list A) (mask : list bool) (r : list A) :
  mask_select l mask = Ok r -> length l = length mask.
Proof.
  revert mask r. induction l as [|x l IH]; intros [|b mask] r; simpl; try discriminate.
  - reflexivity.
  - intros H. inv_bind H. f_equal. eauto.
Qed.

Lemma mask_select_find_length {A} (l : list A) (mask : list bool) (r : list A) (k : Z) :
  mask_select l mask = Ok r -> length r = length (find_from k mask).
Proof.
  revert mask r k. induction l as [|x l IH]; intros [|b mask] r k; simpl;
    try discriminate.
  - intros H; inversion H; reflexivity.
  - intros H. inv_bind H. inversion H; subst.
    destruct b; simpl; [f_equal|]; eauto.
Qed.

Lemma mask_select_total {A} (l : list A) (mask : list bool) :
  length l = length mask -> exists r, mask_select l mask = Ok r.
Proof.
  revert mask. induction l as [|x l IH]; intros [|b mask] H; simpl in H;
    try discriminate; simpl; [eauto|].
  destruct (IH mask) as (r & ->); [lia|]. simpl. eauto.
Qed.

(** A mask and an array that both carry their two ends:
    what [find] and the selection return. *)
Lemma select_with_ends (mid : list bool) (ms : list Z) (a b : Z) (I_2 : list Z) :
  length ms = length mid ->
  mask_select (a :: ms ++ [b]) (true :: mid ++ [true]) = Ok I_2 ->
  exists A B,
    find (true :: mid ++ [true]) = 0 :: A ++ [Z.of_nat (length mid) + 1]
    /\ I_2 = a :: B ++ [b] /\ length A = length B.
Proof.
  intros Hlen Hsel.
  exists (find_from 1 mid).
  destruct (mask_select_total ms mid Hlen) as (B & HB).
  exists B.
  split.
  - unfold find. cbn [find_from]. rewrite find_from_app. cbn [find_from app].
    do 3 f_equal. lia.
  - cbn [mask_select] in Hsel. rewrite mask_select_app in Hsel by assumption.
    rewrite HB in Hsel. simpl in Hsel. inversion Hsel; subst.
    split; [reflexivity|].
    symmetry. eapply mask_select_find_length; eauto.
Qed.

Lemma keep_locally_ordered_last (l : list (Z * Z)) (prev : Z) (z : Z * Z) :
  exists X, keep_locally_ordered prev (l ++ [z]) = X ++ [z].
Proof.
  revert prev. induction l as [|x t IH]; intros prev.
  - exists []. reflexivity.
  - destruct (IH (snd x)) as (X & HX).
    destruct t as [|y r].
    + simpl. destruct ((snd x <=? snd z) && (prev <=? snd x));
        [exists [x] | exists []]; reflexivity.
    + change (keep_locally_ordered prev ((x :: y :: r) ++ [z]))
        with (if (snd x <=? snd y) && (prev <=? snd x)
              then x :: keep_locally_ordered (snd x) ((y :: r) ++ [z])
              else keep_locally_ordered (snd x) ((y :: r) ++ [z])).
      rewrite HX.
      destruct ((snd x <=? snd y) && (prev <=? snd x));
        [exists (x :: X) | exists X]; reflexivity.
Qed.

Lemma combine_snoc {A B} (l1 : list A) (l2 : list B) (x : A) (y : B) :
  length l1 = length l2 -> combine (l1 ++ [x]) (l2 ++ [y]) = combine l1 l2 ++ [(x, y)].
Proof.
  revert l2. induction l1 as [|a l1 IH]; intros [|b l2] H; simpl in H;
    try discriminate; [reflexivity|].
  simpl. f_equal. apply IH. lia.
Qed.

(** The repair pass keeps the two end pairs. *)
Lemma ordering_repair_keeps_ends (A B : list Z) (a1 b1 a2 b2 : Z) (R_1 R_2 : list Z) :
  length A = length B ->
  ordering_repair (a1 :: A ++ [b1]) (a2 :: B ++ [b2]) = Ok (R_1, R_2) ->
  exists A' B',
    R_1 = a1 :: A' ++ [b1] /\ R_2 = a2 :: B' ++ [b2] /\ length A' = length B'.
Proof.
  intros Hlen Hrep.
  assert (HC : combine (a1 :: A ++ [b1]) (a2 :: B ++ [b2])
               = (a1, a2) :: combine A B ++ [(b1, b2)]).
  { cbn [combine]. rewrite combine_snoc by assumption. reflexivity. }
  assert (Hl : length (a1 :: A ++ [b1]) = length (a2 :: B ++ [b2]))
    by (simpl; rewrite !length_app; simpl; lia).
  pose proof (is_good_mask_selects (combine (a1 :: A ++ [b1]) (a2 :: B ++ [b2])))
    as Hsel.
  rewrite combine_snd in Hsel by exact Hl.
  assert (H2 : (2 <= length (combine (a1 :: A ++ [b1]) (a2 :: B ++ [b2])))%nat).
  { rewrite HC. simpl. rewrite length_app. simpl. lia. }
  specialize (Hsel H2).
  unfold ordering_repair in Hrep.
  pose proof (mask_select_map fst _ _ _ Hsel) as Hf.
  pose proof (mask_select_map snd _ _ _ Hsel) as Hs.
  rewrite combine_fst in Hf by exact Hl.
  rewrite combine_snd in Hs by exact Hl.
  rewrite Hf, Hs in Hrep. cbn [bind] in Hrep. inversion Hrep; subst R_1 R_2.
  clear Hrep. rewrite combine_snoc by assumption.
  destruct (keep_locally_ordered_last (combine A B) a2 (b1, b2)) as (X & ->).
  exists (map fst X), (map snd X).
  rewrite !map_app. cbn [map fst snd].
  repeat split. now rewrite !length_map.
Qed.

Section FrameShape.
Context {F : Type} {NF : NumOps F}.

Lemma project_point_lengths (norm_x norm_y : list F) (dx dy d : matrix F)
      (sign_use Ix lb rb : Z) (st st' : match_state F) :
  project_point norm_x norm_y dx dy d sign_use Ix lb rb st = Ok st' ->
  length (match_I st') = length (match_I st)
  /\ length (all_signs_used st') = length (all_signs_used st).
Proof.
  unfold project_point. intros H.
  do 6 inv_bind H. destruct x4 as ((v & i) & sgn).
  do 3 inv_bind H. inversion H; subst; simpl.
  split; eapply py_set_length; eauto.
Qed.

Lemma first_pass_lengths (norm_x norm_y : list F) (dx dy d : matrix F)
      (bounds : list (Z * Z)) (Ix : Z) (st st' : match_state F) :
  first_pass norm_x norm_y dx dy d Ix bounds st = Ok st' ->
  length (match_I st') = length (match_I st)
  /\ length (all_signs_used st') = length (all_signs_used st).
Proof.
  revert Ix st. induction bounds as [|(lb, rb) bounds IH]; intros Ix st; simpl.
  - intros H; inversion H; auto.
  - intros H. inv_bind H. apply IH in H. apply project_point_lengths in Hx.
    destruct H, Hx. split; congruence.
Qed.

Lemma second_pass_lengths (norm_x norm_y : list F) (dx dy d : matrix F)
      (left_I right_I : list Z) (sign_use : Z) (I_bad : list Z)
      (st st' : match_state F) :
  second_pass norm_x norm_y dx dy d left_I right_I sign_use I_bad st = Ok st' ->
  length (match_I st') = length (match_I st)
  /\ length (all_signs_used st') = length (all_signs_used st).
Proof.
  revert st. induction I_bad as [|Ix I_bad IH]; intros st; simpl.
  - intros H; inversion H; auto.
  - intros H. do 3 inv_bind H. apply IH in H. apply project_point_lengths in Hx1.
    destruct H, Hx1. split; congruence.
Qed.

(** The matches of a frame: one per point of side 1, and side 1 has at
    least two points when the matching returns. *)
Lemma h__getMatches_length (s1 s2 : side F) (norm_x norm_y : list F)
      (dx dy d : matrix F) (left_I right_I : list Z) (dps : list F) (m : list Z) :
  h__getMatches s1 s2 norm_x norm_y dx dy d left_I right_I = Ok (dps, m) ->
  length m = length s1 /\ (2 <= length s1)%nat.
Proof.
  unfold h__getMatches. intros H.
  inv_bind H. inv_bind H. inv_bind H. inv_bind H. inv_bind H.
  inversion H; subst; clear H.
  apply py_set_length in Hx, Hx0. rewrite repeat_length in Hx.
  apply first_pass_lengths in Hx1. simpl in Hx1. destruct Hx1 as (Hm1 & Hs1).
  rewrite repeat_length in Hs1.
  apply py_get_Ok in Hx2. destruct Hx2 as (k & Hk & _).
  apply py_norm_Some in Hk. rewrite Hs1 in Hk.
  assert (Hm2 : length (match_I x3) = length (match_I x1)).
  { destruct (negb (forallb (fun s => s =? x2) (py_slice (all_signs_used x1) 1 (-1)))).
    - destruct (0 <? fold_left Z.add (all_signs_used x1) 0);
        apply second_pass_lengths in Hx3; tauto.
    - inversion Hx3; reflexivity. }
  split; [congruence | lia].
Qed.

(** The candidate pairs after the end walks start with (0, 0) and end with
    (last of side 1, last of side 2). *)
Lemma h__updateEndsByWalking_ends (d_across : matrix F) (match_I1 : list Z)
      (s1 s2 : side F) (pct : F) (I_1 I_2 : list Z) :
  (2 <= length match_I1)%nat ->
  h__updateEndsByWalking d_across match_I1 s1 s2 pct = Ok (I_1, I_2) ->
  exists A B,
    I_1 = 0 :: A ++ [Z.of_nat (length match_I1) - 1]
    /\ I_2 = 0 :: B ++ [Z.of_nat (length s2) - 1]
    /\ length A = length B.
Proof.
  intros Hlen H. unfold h__updateEndsByWalking in H.
  inv_bind H. destruct x as (p1 & p2).
  inv_bind H. inv_bind H. inv_bind H. destruct x1 as (q1 & q2).
  inv_bind H. inv_bind H. inv_bind H. inv_bind H. inv_bind H. inv_bind H.
  inv_bind H. inversion H; subst; clear H.
  apply py_set_many_length in Hx0, Hx3.
  apply py_set_all_length in Hx1, Hx4. rewrite repeat_length in Hx1.
  assert (Hk : length (py_slice_fill x2
                 (fceil (fmul (of_Z (Z.of_nat (length s1))) pct) + 1)
                 (Z.of_nat (length s1)
                  - fceil (fmul (of_Z (Z.of_nat (length s1))) pct) + 1) true)
               = length match_I1)
    by (rewrite py_slice_fill_length; congruence).
  assert (Hk2 : (2 <= length (py_slice_fill x2
                 (fceil (fmul (of_Z (Z.of_nat (length s1))) pct) + 1)
                 (Z.of_nat (length s1)
                  - fceil (fmul (of_Z (Z.of_nat (length s1))) pct) + 1) true))%nat)
    by lia.
  assert (Hm2 : (2 <= length x1)%nat) by lia.
  destruct (set_ends _ _ _ _ _ Hk2 Hx5 Hx6) as (mid & -> & Hmid).
  destruct (set_ends _ _ _ _ _ Hm2 Hx7 Hx8) as (ms & -> & Hms).
  rewrite Hk in Hmid. rewrite Hx3, Hx0 in Hms.
  destruct (select_with_ends mid ms 0 (Z.of_nat (length s2) - 1) I_2)
    as (A & B & HA & HB & HAB); [lia | assumption |].
  exists A, B. rewrite HA. repeat split; auto.
  do 3 f_equal. lia.
Qed.

Lemma py_take_length {A} (l : list A) (idx : list Z) (xs : list A) :
  py_take l idx = Ok xs -> length xs = length idx.
Proof.
  revert xs. induction idx as [|i idx IH]; intros xs; simpl.
  - intros H; inversion H; reflexivity.
  - intros H. do 2 inv_bind H. inversion H; subst. simpl. f_equal. eauto.
Qed.




End FrameShape.

Section ValidFrames.
Context {F : Type} {NF : NumOps F}.
Variable sgolay : list F -> Z -> Z -> result (list F).
Variable round_to_odd : F -> Z.
Variable compute_normal_vectors : side F -> result (list F * list F).

(** A frame with both sides present that yields a result: both smoothing
    steps completed, the arrays hold the smoothed sides, and the result is
    computed from them. *)
Lemma frame_turn_valid (a1 a2 : side F) (o1 o2 : option (side F))
      (r : option (list F * side F)) :
  frame_turn sgolay round_to_odd compute_normal_vectors (Some a1) (Some a2)
  = ((o1, o2), Ok r) ->
  exists s1 s2 w sk,
    o1 = Some s1 /\ o2 = Some s2 /\ r = Some (w, sk)
    /\ smooth_in_place sgolay round_to_odd a1 = (s1, Ok tt)
    /\ smooth_in_place sgolay round_to_odd a2 = (s2, Ok tt)
    /\ skeleton_of_smoothed compute_normal_vectors s1 s2 = Ok (w, sk).
Proof.
  unfold frame_turn.
  destruct (smooth_in_place sgolay round_to_odd a1) as (s1 & [[]|e1]);
    [|intros H; inversion H].
  destruct (smooth_in_place sgolay round_to_odd a2) as (s2 & [[]|e2]);
    [|intros H; inversion H].
  intros H. inversion H as [[Ho1 Ho2 Hr]]; clear H.
  destruct (skeleton_of_smoothed compute_normal_vectors s1 s2) as [(w & sk)|e] eqn:Hsk;
    simpl in Hr; inversion Hr; subst.
  exists s1, s2, w, sk. repeat split; reflexivity || assumption.
Qed.

(** The retained pairs of a frame begin with (0, 0) and end with the last
    points of the two sides. *)
Lemma retained_pairs_ends (s1 s2 : side F) (I_1 I_2 : list Z) :
  retained_pairs compute_normal_vectors s1 s2 = Ok (I_1, I_2) ->
  exists A B,
    I_1 = 0 :: A ++ [Z.of_nat (length s1) - 1]
    /\ I_2 = 0 :: B ++ [Z.of_nat (length s2) - 1]
    /\ length A = length B.
Proof.
  unfold retained_pairs. intros H.
  destruct (h__getBounds (length s1) (length s2) PERCENT_BACK_SEARCH
                         PERCENT_FORWARD_SEARCH) as (left_I & right_I).
  apply bind_Ok in H. destruct H as ((norm_x & norm_y) & _ & H).
  apply bind_Ok in H. destruct H as ((dps & m) & Hm & H).
  apply h__getMatches_length in Hm. destruct Hm as (Hlen & Hn).
  unfold pairs_after_matching in H.
  apply bind_Ok in H. destruct H as ((C_1 & C_2) & Hends & Hrep).
  apply h__updateEndsByWalking_ends in Hends; [|lia].
  destruct Hends as (A & B & -> & -> & HAB).
  apply ordering_repair_keeps_ends in Hrep; [|assumption].
  destruct Hrep as (A' & B' & -> & -> & HAB').
  exists A', B'. rewrite Hlen. auto.
Qed.

End ValidFrames.


Section FrameClaims.
Context {F : Type} {NF : NumOps F}.
Variable sgolay : list F -> Z -> Z -> result (list F).
Variable round_to_odd : F -> Z.
Variable compute_normal_vectors : side F -> result (list F * list F).


End FrameClaims.


(** ** Widths *)

Section Finalize.
Context {F : Type} {NF : NumOps F}.

Lemma finalize_Ok (s1 s2 : side F) (I_1 I_2 : list Z) (w : list F) (sk : side F) :
  finalize s1 s2 I_1 I_2 = Ok (w, sk) ->
  exists ps qs,
    py_take s1 I_1 = Ok ps /\ py_take s2 I_2 = Ok qs
    /\ length ps = length I_1 /\ length qs = length I_2
    /\ w = map2 width_between ps qs /\ sk = map2 midpoint ps qs.
Proof.
  unfold finalize. intros H.
  apply bind_Ok in H. destruct H as (ps & Hps & H).
  apply bind_Ok in H. destruct H as (qs & Hqs & H).
  inversion H; subst. exists ps, qs.
  repeat split; eauto using py_take_length.
Qed.

End Finalize.

Lemma Forall_map2 {A B C} (P : C -> Prop) (f : A -> B -> C) (l1 : list A) (l2 : list B) :
  (forall a b, P (f a b)) -> Forall P (map2 f l1 l2).
Proof.
  intros H. unfold map2. apply Forall_forall. intros c Hc.
  apply in_map_iff in Hc. destruct Hc as ((a & b) & <- & _). apply H.
Qed.

Lemma py_take_nth {A} (l : list A) (idx : list Z) (xs : list A) (k : nat) (d : A) :
  py_take l idx = Ok xs -> (k < length idx)%nat ->
  py_get l (nth k idx 0) = Ok (nth k xs d).
Proof.
  revert xs k. induction idx as [|i idx IH]; intros xs k H Hk; [cbn [length] in Hk; lia|].
  cbn [py_take] in H.
  apply bind_Ok in H. destruct H as (x & Hx & H).
  apply bind_Ok in H. destruct H as (t & Ht & H).
  inversion H; subst xs; clear H.
  destruct k as [|k]; [exact Hx|]. cbn [nth]. apply IH; [exact Ht|].
  cbn [length] in Hk. lia.
Qed.

Lemma nth_map2 {A B C} (f : A -> B -> C) (l1 : list A) (l2 : list B) (k : nat)
      (d : C) (d1 : A) (d2 : B) :
  (k < length l1)%nat -> (k < length l2)%nat ->
  nth k (map2 f l1 l2) d = f (nth k l1 d1) (nth k l2 d2).
Proof.
  revert l2 k. induction l1 as [|a l1 IH]; intros [|b l2] k H1 H2;
    cbn [length] in H1, H2; try lia.
  destruct k as [|k]; [reflexivity|].
  change (map2 f (a :: l1) (b :: l2)) with (f a b :: map2 f l1 l2).
  cbn [nth]. apply IH; lia.
Qed.

(** C7.  Over the reals: for a frame that yields a result, the skeleton and
    the widths have one entry per retained pair, there are at least two
    retained pairs, and width number k is the Euclidean distance between
    point [I_1[k]] of side 1 and point [I_2[k]] of side 2 (of the arrays as
    the call leaves them), hence not negative. *)
Theorem widths_match_retained_pairs
        (sgolay : list R -> Z -> Z -> result (list R)) (round_to_odd : R -> Z)
        (compute_normal_vectors : side R -> result (list R * list R))
        (a1 a2 : side R) (o1 o2 : option (side R)) (w : list R) (sk : side R) :
  frame_turn sgolay round_to_odd compute_normal_vectors (Some a1) (Some a2)
  = ((o1, o2), Ok (Some (w, sk))) ->
  exists s1 s2 I_1 I_2,
    o1 = Some s1 /\ o2 = Some s2
    /\ retained_pairs compute_normal_vectors s1 s2 = Ok (I_1, I_2)
    /\ length I_1 = length I_2
    /\ length sk = length I_1 /\ length w = length I_1
    /\ (2 <= length I_1)%nat
    /\ forall k, (k < length I_1)%nat ->
         exists x1 y1 x2 y2,
           py_get s1 (nth k I_1 0) = Ok (x1, y1)
           /\ py_get s2 (nth k I_2 0) = Ok (x2, y2)
           /\ nth k w 0%R
              = sqrt ((x2 - x1) * (x2 - x1) + (y2 - y1) * (y2 - y1))
           /\ (0 <= nth k w 0)%R.
Proof.
  intros H. apply frame_turn_valid in H.
  destruct H as (s1 & s2 & w' & sk' & -> & -> & E & _ & _ & Hsk).
  inversion E; subst w' sk'; clear E.
  unfold skeleton_of_smoothed in Hsk.
  apply bind_Ok in Hsk. destruct Hsk as ((I_1 & I_2) & Hpairs & Hfin).
  destruct (retained_pairs_ends _ _ _ _ _ Hpairs) as (A & B & E1 & E2 & HAB).
  destruct (finalize_Ok _ _ _ _ _ _ Hfin) as (ps & qs & Hps & Hqs & Lp & Lq & Hw & Hs).
  assert (L12 : length I_1 = length I_2).
  { rewrite E1, E2. cbn [length]. rewrite !length_app. cbn [length]. lia. }
  exists s1, s2, I_1, I_2.
  split; [reflexivity|]. split; [reflexivity|]. split; [exact Hpairs|].
  split; [exact L12|].
  split; [rewrite Hs, map2_length; congruence|].
  split; [rewrite Hw, map2_length; congruence|].
  split; [rewrite E1; cbn [length]; rewrite length_app; cbn [length]; lia|].
  intros k Hk.
  pose proof (py_take_nth s1 I_1 ps k (0%R, 0%R) Hps Hk) as G1.
  pose proof (py_take_nth s2 I_2 qs k (0%R, 0%R) Hqs ltac:(lia)) as G2.
  destruct (nth k ps (0%R, 0%R)) as (x1 & y1) eqn:P1.
  destruct (nth k qs (0%R, 0%R)) as (x2 & y2) eqn:P2.
  exists x1, y1, x2, y2.
  split; [exact G1|]. split; [exact G2|].
  assert (Ew : nth k w 0%R
               = sqrt ((x2 - x1) * (x2 - x1) + (y2 - y1) * (y2 - y1))).
  { rewrite Hw, (nth_map2 _ ps qs k 0%R (0%R, 0%R) (0%R, 0%R)) by lia.
    rewrite P1, P2. reflexivity. }
  split; [exact Ew|]. rewrite Ew. apply sqrt_pos.
Qed.

(** *** Unfolding the walk loop *)

Lemma walk_loop_unfold {F} {NF : NumOps F} (fuel : nat) (s1 e1 e2 : Z)
      (d : matrix F) (xy1 xy2 : side F) (st : walk_state) :
  walk_loop (S fuel) s1 e1 e2 d xy1 xy2 st
  = if negb (c1 st =? e1) && negb (c2 st =? e2) then
      match walk_step s1 e1 d xy1 xy2 st with
      | Ok st' => walk_loop fuel s1 e1 e2 d xy1 xy2 st'
      | Raise e => Some (Raise e)
      end
    else Some (Ok st).
Proof. reflexivity. Qed.

Lemma walk_loop_done {F} {NF : NumOps F} (fuel : nat) (s1 e1 e2 : Z)
      (d : matrix F) (xy1 xy2 : side F) (st : walk_state) :
  negb (c1 st =? e1) && negb (c2 st =? e2) = false ->
  walk_loop fuel s1 e1 e2 d xy1 xy2 st = Some (Ok st).
Proof. intros H. destruct fuel; simpl; rewrite H; reflexivity. Qed.

(** ** The frame loop and the caller's arrays *)

Section Batch.
Context {F : Type} {NF : NumOps F}.
Variable sgolay : list F -> Z -> Z -> result (list F).
Variable round_to_odd : F -> Z.
Variable compute_normal_vectors : side F -> result (list F * list F).

Local Notation "'frame_turn''" :=
  (frame_turn sgolay round_to_odd compute_normal_vectors).
Local Notation "'compute''" :=
  (compute_skeleton_and_widths sgolay round_to_odd compute_normal_vectors).

Lemma smooth_in_place_Ok (a s : side F) :
  smooth_in_place sgolay round_to_odd a = (s, Ok tt) ->
  smoothed_by sgolay round_to_odd a s.
Proof.
  unfold smooth_in_place, smoothed_by.
  set (fw := round_to_odd (fmul (of_Z (Z.of_nat (length a))) FRACTION_WORM_SMOOTH)).
  destruct (sgolay (map fst a) fw SMOOTHING_ORDER) as [x|e] eqn:Ex; simpl;
    [|intros H; inversion H].
  unfold set_row0.
  destruct (length x =? length a)%nat eqn:Lx; [|intros H; inversion H].
  apply Nat.eqb_eq in Lx.
  rewrite combine_snd by (rewrite length_map; exact Lx).
  destruct (sgolay (map snd a) fw SMOOTHING_ORDER) as [y|e] eqn:Ey; simpl;
    [|intros H; inversion H].
  unfold set_row1. rewrite length_combine, length_map, Lx, Nat.min_id.
  destruct (length y =? length a)%nat eqn:Ly; [|intros H; inversion H].
  apply Nat.eqb_eq in Ly.
  rewrite combine_fst by (rewrite length_map; exact Lx).
  intros H; inversion H; subst.
  exists x, y. auto.
Qed.

(** The array left by the smoothing step is the one passed in exactly when
    the filter returns both rows as they were: wherever the filter moves a
    point, the caller's array differs from what it held before the call. *)
Lemma smoothed_by_same_iff (a s : side F) (x y : list F) :
  let filter_width :=
    round_to_odd (fmul (of_Z (Z.of_nat (length a))) FRACTION_WORM_SMOOTH) in
  smoothed_by sgolay round_to_odd a s ->
  sgolay (map fst a) filter_width SMOOTHING_ORDER = Ok x ->
  sgolay (map snd a) filter_width SMOOTHING_ORDER = Ok y ->
  s = a <-> x = map fst a /\ y = map snd a.
Proof.
  intros fw (x' & y' & Hx & Hy & Lx & Ly & ->) Ex Ey.
  fold fw in Hx, Hy. rewrite Hx in Ex. rewrite Hy in Ey.
  inversion Ex; inversion Ey; subst x' y'; clear Ex Ey.
  split.
  - intros Heq. split; rewrite <- Heq.
    + symmetry. apply combine_fst. congruence.
    + symmetry. apply combine_snd. congruence.
  - intros (-> & ->). apply combine_fst_snd.
Qed.

(** A frame whose side 1 is missing is skipped: its arrays are untouched,
    its two outputs are [None], and the loop goes on with the next frame. *)
Lemma missing_side1_is_skipped (s2 : option (side F)) (hv hd : list (option (side F))) :
  compute' (None :: hv) (s2 :: hd)
  = let '((hv', hd'), rest) := compute' hv hd in
    ((None :: hv', s2 :: hd'),
     match rest with
     | Raise e => Raise e
     | Ok (h_widths, h_skeleton) => Ok (None :: h_widths, None :: h_skeleton)
     end).
Proof. reflexivity. Qed.

Lemma frame_turn_missing_side2 (a1 : side F) :
  exists st e, frame_turn' (Some a1) None = (st, Raise e).
Proof.
  unfold frame_turn.
  destruct (smooth_in_place sgolay round_to_odd a1) as (s1 & [[]|e]); eauto.
Qed.

(** C2 fails where only side 2 is missing: a frame with side 1 present and
    side 2 [None] ends the whole call with an exception, whatever the other
    frames are. *)
Theorem missing_side2_aborts_batch (hv hd : list (option (side F))) (i : nat)
        (a1 : side F) :
  nth_error hv i = Some (Some a1) -> nth_error hd i = Some None ->
  exists st e, compute' hv hd = (st, Raise e).
Proof.
  revert hv hd. induction i as [|i IH]; intros [|v hv] [|d hd]; simpl;
    try discriminate.
  - intros Hv Hd. inversion Hv; inversion Hd; subst.
    destruct (frame_turn_missing_side2 a1) as ((s1' & s2') & e & ->). eauto.
  - intros Hv Hd.
    destruct (frame_turn' v d) as ((s1' & s2') & [o|e]); [|eauto].
    destruct (IH hv hd Hv Hd) as ((hv' & hd') & e & ->). eauto.
Qed.

(** The array left by the smoothing step is the one passed in exactly when
    the filter returns both rows as they were. *)
Lemma smoothed_same_iff_reproduced (a s : side F) :
  smoothed_by sgolay round_to_odd a s ->
  s = a <-> reproduced_by sgolay round_to_odd a.
Proof.
  intros Hs. pose proof Hs as (x & y & Hx & Hy & _).
  pose proof (smoothed_by_same_iff a s x y Hs Hx Hy) as Hiff.
  cbv zeta in Hiff. unfold reproduced_by. rewrite Hiff, Hx, Hy. split.
  - intros (-> & ->). split; reflexivity.
  - intros (E1 & E2). inversion E1. inversion E2. split; reflexivity.
Qed.

(** C9, as the code has it.  When the call returns: the two lists keep
    their lengths; a frame the loop visits (its index is inside both lists)
    with side 1 present has both of its arrays overwritten with the rows the
    filter returns, and its outputs are computed from the overwritten arrays,
    so that its arrays differ from what was passed in unless the filter
    returns all four rows as they were; a visited frame with side 1 missing is
    unchanged; and so is every array beyond the end of the other list. *)
Theorem contours_are_smoothed_in_place (hv hd hv' hd' : list (option (side F)))
        (h_widths : list (option (list F))) (h_skeleton : list (option (side F))) :
  compute' hv hd = ((hv', hd'), Ok (h_widths, h_skeleton)) ->
  length hv' = length hv /\ length hd' = length hd
  /\ (forall i pre,
        nth_error (combine hv hd) i = Some pre ->
        exists post out,
          nth_error (combine hv' hd') i = Some post
          /\ nth_error (combine h_widths h_skeleton) i = Some out
          /\ frame_effect sgolay round_to_odd compute_normal_vectors pre post out
          /\ forall a1 a2, pre = (Some a1, Some a2) ->
               (post = pre <-> reproduced_by sgolay round_to_odd a1
                               /\ reproduced_by sgolay round_to_odd a2))
  /\ (forall i, (length hd <= i)%nat -> nth_error hv' i = nth_error hv i)
  /\ (forall i, (length hv <= i)%nat -> nth_error hd' i = nth_error hd i).
Proof.
  revert hd hv' hd' h_widths h_skeleton.
  induction hv as [|v hv IH]; intros [|d hd] hv' hd' ws sks H;
    cbn [compute_skeleton_and_widths] in H.
  - inversion H; subst. repeat split; auto. intros [|i] pre Hi; discriminate.
  - inversion H; subst. repeat split; auto. intros [|i] pre Hi; discriminate.
  - inversion H; subst. repeat split; auto. intros [|i] pre Hi; discriminate.
  - destruct (frame_turn' v d) as ((s1' & s2') & [o|e]) eqn:Hturn; [|inversion H].
    destruct (compute' hv hd) as ((hv1 & hd1) & [(ws1 & sks1)|e]) eqn:Hrest;
      inversion H; subst; clear H.
    destruct (IH hd hv1 hd1 ws1 sks1 Hrest) as (L1 & L2 & Hall & Hv & Hd).
    cbn [length]. split; [lia|]. split; [lia|]. split; [|split].
    + intros [|i] pre Hi; cbn [combine nth_error] in Hi |- *; [|apply Hall; exact Hi].
      inversion Hi; subst pre; clear Hi.
      exists (s1', s2'), (option_map fst o, option_map snd o).
      split; [reflexivity|]. split; [reflexivity|].
      destruct v as [a1|].
      * destruct d as [a2|].
        -- apply frame_turn_valid in Hturn.
           destruct Hturn as (s1 & s2 & w & sk & -> & -> & -> & Hs1 & Hs2 & Hsk).
           apply smooth_in_place_Ok in Hs1, Hs2. split.
           ++ unfold frame_effect. cbn [fst snd option_map].
              exists a2, s1, s2, w, sk. repeat split; assumption.
           ++ intros b1 b2 E. inversion E; subst b1 b2; clear E.
              rewrite <- (smoothed_same_iff_reproduced a1 s1 Hs1),
                      <- (smoothed_same_iff_reproduced a2 s2 Hs2).
              split; [intros E; inversion E; split; reflexivity
                     | intros (-> & ->); reflexivity].
        -- destruct (frame_turn_missing_side2 a1) as (st & e & He).
           rewrite He in Hturn. inversion Hturn.
      * cbn [frame_turn] in Hturn. inversion Hturn; subst. split.
        -- unfold frame_effect. cbn [fst option_map]. auto.
        -- intros b1 b2 E. discriminate.
    + intros [|i] Hi; cbn [length] in Hi; [lia|]. cbn [nth_error]. apply Hv. lia.
    + intros [|i] Hi; cbn [length] in Hi; [lia|]. cbn [nth_error]. apply Hd. lia.
Qed.

End Batch.

(** C2 at a batch of one frame: side 1 has 60 points, side 2 is missing. *)
Lemma missing_side2_aborts_batch_witness :
  exists st e,
    compute_skeleton_and_widths sgolay_on_straight round_to_odd_60 normals_of_straight
                                [Some (straight_side 0 60)] [None]
    = (st, Raise e).
Proof.
  exact (missing_side2_aborts_batch sgolay_on_straight round_to_odd_60
           normals_of_straight [Some (straight_side 0 60)] [None] 0
           (straight_side 0 60) eq_refl eq_refl).
Defined.

(** The exception of that batch is the [AttributeError] of [s2.shape], and
    side 1 has been through the smoothing step by then. *)
Example missing_side2_raises_attribute_error :
  compute_skeleton_and_widths sgolay_on_straight round_to_odd_60 normals_of_straight
                              [Some (straight_side 0 60)] [None]
  = (([Some (straight_side 0 60)], [None]), Raise AttributeError).
Proof. vm_compute. reflexivity. Qed.

(** Smoothing moves the points of the folded side: point 29 no longer has
    x = 29. *)
Lemma folded_side_is_not_reproduced :
  ~ reproduced_by savgol_filter_5_3 round_to_odd_60 folded_side.
Proof.
  intros (E & _).
  apply (f_equal (fun r => match r with
                           | Ok x => PrimFloat.eqb (nth 29 x 0%float) 29
                           | Raise _ => true
                           end)) in E.
  vm_compute in E. discriminate.
Qed.

(** C9 at a batch of three ventral and two dorsal arrays: frame 0 has a
    straight side 1 and the folded side 2, and comes back changed; frame 1 is
    missing and frame 2 has no dorsal entry, and both come back as they
    were. *)
Lemma contours_are_smoothed_in_place_witness :
  let hv := [Some (straight_side 0 60); None; Some (straight_side 0 60)] in
  let hd := [Some folded_side; None] in
  exists hv' hd' h_widths h_skeleton,
    compute_skeleton_and_widths savgol_filter_5_3 round_to_odd_60 normals_of_straight
                                hv hd
    = ((hv', hd'), Ok (h_widths, h_skeleton))
    /\ nth_error (combine hv' hd') 0 <> nth_error (combine hv hd) 0
    /\ nth_error (combine hv' hd') 1 = nth_error (combine hv hd) 1
    /\ nth_error hv' 2 = nth_error hv 2.
Proof.
  intros hv hd.
  assert (H : exists hv' hd' h_widths h_skeleton,
             compute_skeleton_and_widths savgol_filter_5_3 round_to_odd_60
               normals_of_straight hv hd
             = ((hv', hd'), Ok (h_widths, h_skeleton)))
    by (do 4 eexists; vm_compute; reflexivity).
  destruct H as (hv' & hd' & ws & sks & H).
  pose proof (contours_are_smoothed_in_place
                savgol_filter_5_3 round_to_odd_60 normals_of_straight
                hv hd hv' hd' ws sks H) as (_ & _ & Hall & Hbeyond & _).
  exists hv', hd', ws, sks. split; [exact H|]. split; [|split].
  - destruct (Hall 0%nat (Some (straight_side 0 60), Some folded_side) eq_refl)
      as (post & out & Hpost & _ & _ & Hiff).
    rewrite Hpost. intros E. inversion E as [E'].
    apply (Hiff _ _ eq_refl) in E'. destruct E' as (_ & E').
    exact (folded_side_is_not_reproduced E').
  - destruct (Hall 1%nat (None, None) eq_refl) as (post & out & Hpost & _ & Heff & _).
    rewrite Hpost. destruct Heff as (-> & _). reflexivity.
  - apply Hbeyond. cbn [length hd]. lia.
Defined.

(** C9 as stated fails: a frame with both sides present can come back
    exactly as it was passed in.  The filter is linear, so it returns a row
    of zeros as it is; on a frame whose 60 + 60 points all lie at the origin
    the call returns widths and a skeleton and leaves both arrays as they
    were.  (Every direction across such a frame is 0/0, so the projections
    do not depend on the normals.) *)
Lemma origin_frame_is_left_as_passed_in :
  exists ws sks,
    compute_skeleton_and_widths savgol_filter_5_3 round_to_odd_60 normals_of_straight
      [Some (origin_side 60)] [Some (origin_side 60)]
    = (([Some (origin_side 60)], [Some (origin_side 60)]),
       Ok ([Some ws], [Some sks])).
Proof. do 2 eexists. vm_compute. reflexivity. Qed.

(** The same call with normals that are not-a-number throughout. *)
Example origin_frame_whatever_the_normals :
  compute_skeleton_and_widths savgol_filter_5_3 round_to_odd_60
    (fun s => Ok (map (fun _ => PrimFloat.nan) s, map (fun _ => PrimFloat.nan) s))
    [Some (origin_side 60)] [Some (origin_side 60)]
  = compute_skeleton_and_widths savgol_filter_5_3 round_to_odd_60
      normals_of_straight
      [Some (origin_side 60)] [Some (origin_side 60)].
Proof. vm_compute. reflexivity. Qed.

(** ** Chain-code lengths *)

Lemma chain_code_lengths_length {F} {NF : NumOps F} (pts : side F) :
  length (chain_code_lengths pts) = pred (length pts).
Proof.
  induction pts as [|p [|q rest] IH]; try reflexivity.
  change (chain_code_lengths (p :: q :: rest))
    with (segment_length p q :: chain_code_lengths (q :: rest)).
  simpl length in *. rewrite IH. reflexivity.
Qed.

Lemma cumsum_from_length {F} {NF : NumOps F} (acc : F) (l : list F) :
  length (cumsum_from acc l) = length l.
Proof. revert acc; induction l as [|x t IH]; intros acc; simpl; auto. Qed.

Lemma chain_code_lengths_nonneg (pts : side R) :
  Forall (fun x => (0 <= x)%R) (chain_code_lengths pts).
Proof.
  induction pts as [|p [|q rest] IH]; try constructor.
  - apply sqrt_pos.
  - exact IH.
Qed.

Lemma cumsum_from_sorted (acc : R) (l : list R) :
  Forall (fun x => (0 <= x)%R) l -> Sorted Rle (acc :: cumsum_from acc l).
Proof.
  intros H. revert acc. induction H as [|x t Hx Ht IH]; intros acc.
  - repeat constructor.
  - cbn [cumsum_from]. constructor; [apply IH|].
    constructor. simpl. lra.
Qed.

Lemma chain_code_lengths_cum_sum_length {F} {NF : NumOps F} (pts : side F) :
  length (chain_code_lengths_cum_sum pts) = length pts.
Proof.
  destruct pts as [|p rest]; [reflexivity|].
  unfold chain_code_lengths_cum_sum.
  change (np_cumsum ([of_Z 0] ++ chain_code_lengths (p :: rest)))
    with (of_Z 0 :: cumsum_from (of_Z 0) (chain_code_lengths (p :: rest))).
  cbn [length]. rewrite cumsum_from_length, chain_code_lengths_length. reflexivity.
Qed.

(** C5.  Over the reals: the cumulative chain-code lengths of a non-empty
    point sequence have one entry per point, start with 0 and never go
    down; for (0,0), (1,0), (2,0) they are 0, 1, 2. *)
Theorem chain_code_cum_sum_is_monotone (pts : side R) :
  pts <> [] ->
  length (chain_code_lengths_cum_sum pts) = length pts
  /\ nth_error (chain_code_lengths_cum_sum pts) 0 = Some 0%R
  /\ Sorted Rle (chain_code_lengths_cum_sum pts)
  /\ chain_code_lengths_cum_sum [(0, 0); (1, 0); (2, 0)]%R = [0; 1; 2]%R.
Proof.
  intros Hne. destruct pts as [|p rest]; [congruence|].
  unfold chain_code_lengths_cum_sum.
  change (np_cumsum ([of_Z 0] ++ chain_code_lengths (p :: rest)))
    with (0%R :: cumsum_from 0%R (chain_code_lengths (p :: rest))).
  repeat split.
  - exact (chain_code_lengths_cum_sum_length (p :: rest)).
  - apply cumsum_from_sorted, chain_code_lengths_nonneg.
  - cbn -[Rplus Rminus Rmult sqrt IZR].
    replace ((1 - 0) * (1 - 0) + (0 - 0) * (0 - 0))%R with 1%R by lra.
    replace ((2 - 1) * (2 - 1) + (0 - 0) * (0 - 0))%R with 1%R by lra.
    rewrite sqrt_1. repeat (f_equal; try lra).
Qed.

(** C5 on the three points of the spec. *)
Lemma chain_code_cum_sum_is_monotone_witness :
  length (chain_code_lengths_cum_sum [(0, 0); (1, 0); (2, 0)]%R) = 3%nat
  /\ Sorted Rle (chain_code_lengths_cum_sum [(0, 0); (1, 0); (2, 0)]%R).
Proof.
  destruct (chain_code_cum_sum_is_monotone [(0, 0); (1, 0); (2, 0)]%R)
    as (Hlen & _ & Hsorted & _); [discriminate|].
  split; [exact Hlen | exact Hsorted].
Defined.

(** The same three points in binary64, as numpy computes them. *)
Example chain_code_cum_sum_float :
  chain_code_lengths_cum_sum [(0, 0); (1, 0); (2, 0)]%float = [0; 1; 2]%float.
Proof. vm_compute. reflexivity. Qed.

(** ** Resampling *)

Lemma zrange_from_nth (a : Z) (n i : nat) :
  (i < n)%nat -> nth i (zrange_from a n) 0 = a + Z.of_nat i.
Proof.
  revert a i. induction n as [|n IH]; intros a i H; [lia|].
  destruct i as [|i]; simpl.
  - lia.
  - rewrite IH by lia. lia.
Qed.

Section Interp.

Lemma interp_scan_at_knot (rest : list (R * R)) (cur : R * R) (x y : R) :
  StronglySorted knot_le (cur :: rest) -> In (x, y) (cur :: rest) ->
  interp_scan x cur rest = y.
Proof.
  revert cur. induction rest as [|nxt rest IH]; intros cur Hs Hin.
  - destruct Hin as [E|[]]. subst cur. reflexivity.
  - cbn [interp_scan]. cbn [fleb R_ops].
    inversion Hs as [|? ? Hs' Hall]; subst.
    inversion Hall as [|? ? Hcn Hrest]; subst.
    destruct (Rle_dec (fst nxt) x) as [Hle|Hgt].
    + apply IH; [exact Hs'|].
      destruct Hin as [E|Hin]; [|exact Hin].
      left. subst cur. destruct Hcn as (Hc1 & Hc2).
      destruct nxt as (nx & ny). simpl in *.
      assert (nx = x) by lra. subst nx. f_equal. symmetry; auto.
    + destruct Hin as [E|Hin].
      * subst cur. cbn [fadd fmul fdiv fsub R_ops fst snd]. lra.
      * exfalso. apply Hgt.
        destruct Hin as [E|Hin]; [subst nxt; simpl; lra|].
        inversion Hs' as [|? ? _ Hall']; subst.
        rewrite Forall_forall in Hall'. apply Hall' in Hin.
        destruct Hin as (Hle & _). exact Hle.
Qed.

Lemma interp_one_at_knot (xp fp : list R) (x y : R) :
  StronglySorted knot_le (combine xp fp) -> In (x, y) (combine xp fp) ->
  interp_one xp fp x = y.
Proof.
  unfold interp_one. destruct (combine xp fp) as [|p0 rest]; [intros _ []|].
  intros Hs Hin. cbn [fltb R_ops].
  destruct (Rlt_dec x (fst p0)) as [Hlt|_].
  - exfalso. destruct Hin as [E|Hin]; [subst p0; simpl in Hlt; lra|].
    inversion Hs as [|? ? _ Hall]; subst.
    rewrite Forall_forall in Hall. apply Hall in Hin.
    destruct Hin as (Hle & _). simpl in Hle. lra.
  - apply interp_scan_at_knot; assumption.
Qed.

(** Interpolating at the sample positions themselves returns the sample
    values. *)
Lemma np_interp_at_knots (xp fp : list R) :
  length xp = length fp -> xp <> [] ->
  StronglySorted knot_le (combine xp fp) ->
  np_interp xp xp fp = Ok fp.
Proof.
  intros Hlen Hne Hs. unfold np_interp.
  rewrite Hlen, Nat.eqb_refl. simpl negb. cbv iota.
  destruct xp as [|x0 xp']; [congruence|].
  f_equal.
  rewrite <- (combine_fst (x0 :: xp') fp Hlen) at 2.
  rewrite <- (combine_snd (x0 :: xp') fp Hlen) at 3.
  rewrite map_map. apply map_ext_in.
  intros (x & y) Hin. apply interp_one_at_knot; assumption.
Qed.

End Interp.

Section OwnArcLength.

Lemma chain_code_lengths_cons (p q : R * R) (rest : side R) :
  chain_code_lengths (p :: q :: rest)
  = segment_length p q :: chain_code_lengths (q :: rest).
Proof. reflexivity. Qed.

Lemma segment_length_nonneg (p q : R * R) : (0 <= segment_length p q)%R.
Proof. apply sqrt_pos. Qed.

Lemma segment_length_zero (p q : R * R) : segment_length p q = 0%R -> q = p.
Proof.
  unfold segment_length. destruct p as (px & py), q as (qx & qy).
  cbn [fst snd fsqrt fadd fmul fsub R_ops].
  intros H.
  pose proof (Rle_0_sqr (qx - px)) as Hx. pose proof (Rle_0_sqr (qy - py)) as Hy.
  unfold Rsqr in Hx, Hy.
  apply sqrt_eq_0 in H; [|lra].
  assert (Ex : ((qx - px) * (qx - px) = 0)%R) by lra.
  assert (Ey : ((qy - py) * (qy - py) = 0)%R) by lra.
  apply Rmult_integral in Ex, Ey.
  f_equal; lra.
Qed.

Variable coord : R * R -> R.

Lemma own_knots_tail (pts : side R) (p : R * R) (acc : R) :
  Forall (fun cq => (acc <= fst cq)%R /\ (fst cq = acc -> snd cq = coord p))
         (combine (cumsum_from acc (chain_code_lengths (p :: pts))) (map coord pts)).
Proof.
  revert p acc. induction pts as [|q pts IH]; intros p acc; [constructor|].
  rewrite chain_code_lengths_cons. cbn [cumsum_from map combine fadd R_ops].
  pose proof (segment_length_nonneg p q) as Hd.
  constructor.
  - cbn [fst snd]. split; [lra|]. intros E.
    assert (segment_length p q = 0)%R by lra.
    apply segment_length_zero in H. now subst q.
  - eapply Forall_impl; [|apply IH]. cbn beta.
    intros (c & v) (Hle & Heq). cbn [fst snd] in *.
    split; [lra|]. intros E. assert (segment_length p q = 0)%R by lra.
    apply segment_length_zero in H. subst q. apply Heq. lra.
Qed.

(** A curve sampled against its own cumulative lengths: the samples are in
    order, and points at one and the same length coincide. *)
Lemma own_knots_sorted (pts : side R) (p : R * R) (acc : R) :
  StronglySorted knot_le
    ((acc, coord p)
       :: combine (cumsum_from acc (chain_code_lengths (p :: pts))) (map coord pts)).
Proof.
  revert p acc. induction pts as [|q pts IH]; intros p acc.
  - repeat constructor.
  - constructor.
    + rewrite chain_code_lengths_cons. cbn [cumsum_from map combine]. apply IH.
    + eapply Forall_impl; [|apply own_knots_tail].
      intros (c & v) (Hle & Heq). unfold knot_le. simpl in *.
      split; [exact Hle|]. intros E. symmetry. auto.
Qed.

Lemma np_interp_own_lengths (xy : side R) :
  xy <> [] ->
  np_interp (chain_code_lengths_cum_sum xy) (chain_code_lengths_cum_sum xy)
            (map coord xy)
  = Ok (map coord xy).
Proof.
  intros Hne. destruct xy as [|p pts]; [congruence|].
  assert (Hcc : chain_code_lengths_cum_sum (p :: pts)
                = 0%R :: cumsum_from 0%R (chain_code_lengths (p :: pts)))
    by reflexivity.
  apply np_interp_at_knots.
  - rewrite Hcc, length_map. cbn [length].
    rewrite cumsum_from_length, chain_code_lengths_length. reflexivity.
  - rewrite Hcc. discriminate.
  - rewrite Hcc. cbn [map combine]. apply own_knots_sorted.
Qed.

End OwnArcLength.

Lemma linspace_length {F} {NF : NumOps F} (a b : F) (n : nat) :
  length (linspace a b n) = n.
Proof.
  destruct n as [|[|m]]; try reflexivity.
  unfold linspace. rewrite length_app, length_map, zrange_from_length. simpl. lia.
Qed.

Lemma linspace_nth (a b : R) (m i : nat) :
  (i < S m)%nat ->
  nth i (linspace a b (S (S m))) 0%R
  = (IZR (Z.of_nat i) * ((b - a) / IZR (Z.of_nat (S m))) + a)%R.
Proof.
  intros Hi. unfold linspace. cbn [fadd fmul fdiv fsub of_Z R_ops].
  rewrite app_nth1 by (rewrite length_map, zrange_from_length; exact Hi).
  set (f := fun i0 : Z => (IZR i0 * ((b - a) / IZR (Z.of_nat (S m))) + a)%R).
  rewrite (nth_indep _ 0%R (f 0)) by (rewrite length_map, zrange_from_length; exact Hi).
  rewrite map_nth, zrange_from_nth by exact Hi. unfold f. f_equal.
Qed.

Lemma linspace_last (a b : R) (m : nat) :
  nth (S m) (linspace a b (S (S m))) 0%R = b.
Proof.
  unfold linspace.
  rewrite app_nth2 by (rewrite length_map, zrange_from_length; lia).
  rewrite length_map, zrange_from_length, Nat.sub_diag. reflexivity.
Qed.

Lemma evenly_spaced_nth (cc : list R) (h : R) (i : nat) :
  evenly_spaced cc h -> (i < length cc)%nat ->
  nth i cc 0%R = (nth 0 cc 0 + IZR (Z.of_nat i) * h)%R.
Proof.
  intros He. induction i as [|i IH]; intros Hi.
  - simpl. lra.
  - specialize (He i Hi). rewrite Nat2Z.inj_succ, succ_IZR.
    rewrite IH in He by lia. lra.
Qed.

(** Positions evenly spaced between the first and last of evenly spaced
    lengths are those lengths. *)
Lemma linspace_of_evenly_spaced (cc : list R) (h : R) (m : nat) :
  evenly_spaced cc h -> length cc = S (S m) ->
  linspace (nth 0 cc 0%R) (nth (S m) cc 0%R) (S (S m)) = cc.
Proof.
  intros He Hlen.
  apply (nth_ext _ _ 0%R 0%R); [rewrite linspace_length; auto|].
  rewrite linspace_length. intros i Hi.
  destruct (Nat.eq_dec i (S m)) as [->|Hne].
  - apply linspace_last.
  - rewrite linspace_nth by lia.
    rewrite (evenly_spaced_nth cc h (S m) He) by lia.
    rewrite (evenly_spaced_nth cc h i He) by lia.
    assert (Hm : IZR (Z.of_nat (S m)) <> 0%R) by (apply not_0_IZR; lia).
    field. exact Hm.
Qed.

Lemma py_get_minus_one {A} (l : list A) (d : A) :
  l <> [] -> py_get l (-1) = Ok (nth (length l - 1) l d).
Proof.
  intros Hne. unfold py_get.
  rewrite py_norm_minus_one by (destruct l; [congruence | simpl; lia]).
  destruct (nth_error l (length l - 1)) as [x|] eqn:E.
  - f_equal. symmetry. apply nth_error_nth. exact E.
  - apply nth_error_None in E. destruct l; [congruence | simpl in E; lia].
Qed.

(** C6.  Over the reals: a curve of N points whose cumulative chain-code
    lengths are evenly spaced is returned unchanged by [normalize_parameter]
    run against those lengths. *)
Theorem resampling_is_idempotent (xy : side R) (h : R) :
  length xy = N_POINTS_NORMALIZED ->
  evenly_spaced (chain_code_lengths_cum_sum xy) h ->
  normalize_parameter (Some (Arr2 xy)) (chain_code_lengths_cum_sum xy)
  = Ok (Arr2 xy).
Proof.
  intros Hlen He.
  assert (Hne : xy <> []) by (intros ->; discriminate).
  set (cc := chain_code_lengths_cum_sum xy) in *.
  assert (Hcc : length cc = N_POINTS_NORMALIZED).
  { unfold cc. rewrite chain_code_lengths_cum_sum_length. exact Hlen. }
  assert (Hcne : cc <> []) by (intros E; rewrite E in Hcc; discriminate).
  unfold normalize_parameter.
  assert (H0 : py_get cc 0 = Ok (nth 0 cc 0%R)).
  { destruct (py_get_in_range cc 0) as (x & -> & Hx);
      [rewrite Hcc; unfold N_POINTS_NORMALIZED; lia|].
    f_equal. symmetry. apply nth_error_nth. exact Hx. }
  rewrite H0. cbn [bind].
  rewrite (py_get_minus_one cc 0%R Hcne). cbn [bind].
  rewrite Hcc. unfold N_POINTS_NORMALIZED in *.
  change (49 - 1)%nat with 48%nat.
  rewrite (linspace_of_evenly_spaced cc h 47 He Hcc).
  unfold cc. rewrite !np_interp_own_lengths by exact Hne. cbn [bind].
  now rewrite combine_fst_snd.
Qed.

Lemma chain_code_lengths_unit_steps (a : Z) (n : nat) :
  chain_code_lengths (map (fun i => (IZR i, 0%R)) (zrange_from a n))
  = repeat 1%R (pred n).
Proof.
  revert a. induction n as [|[|k] IH]; intros a; try reflexivity.
  specialize (IH (a + 1)).
  change (zrange_from a (S (S k))) with (a :: zrange_from (a + 1) (S k)).
  change (zrange_from (a + 1) (S k)) with (a + 1 :: zrange_from (a + 1 + 1) k) in *.
  cbn [map] in *. rewrite chain_code_lengths_cons, IH.
  cbn [pred repeat fst snd]. f_equal.
  rewrite plus_IZR. unfold segment_length. cbn [fst snd fsqrt fadd fmul fsub R_ops].
  replace ((IZR a + 1 - IZR a) * (IZR a + 1 - IZR a) + (0 - 0) * (0 - 0))%R
    with 1%R by lra.
  apply sqrt_1.
Qed.

Lemma evenly_spaced_cumsum_repeat (n : nat) (acc h : R) :
  evenly_spaced (acc :: cumsum_from acc (repeat h n)) h.
Proof.
  revert acc. induction n as [|k IH]; intros acc i Hi.
  - simpl in Hi. lia.
  - cbn [repeat cumsum_from fadd R_ops] in *.
    destruct i as [|j].
    + simpl. lra.
    + apply (IH (acc + h)%R j). simpl in Hi |- *. lia.
Qed.

(** C6 on the straight line (0,0), (1,0), ..., (48,0). *)
Lemma resampling_is_idempotent_witness :
  normalize_parameter (Some (Arr2 (unit_line 49)))
                      (chain_code_lengths_cum_sum (unit_line 49))
  = Ok (Arr2 (unit_line 49)).
Proof.
  apply (resampling_is_idempotent (unit_line 49) 1%R).
  - reflexivity.
  - change (chain_code_lengths_cum_sum (unit_line 49))
      with (0%R :: cumsum_from 0%R (chain_code_lengths (unit_line 49))).
    unfold unit_line. rewrite chain_code_lengths_unit_steps.
    apply evenly_spaced_cumsum_repeat.
Defined.

(** ** normalize_all_frames *)

Section NormalizeAll.
Context {F : Type} {NF : NumOps F}.
Variable NaN : F.

Lemma np_shape_all_empty {A} (n : nat) :
  np_shape (repeat (Some (@nil A)) (S n)) = [S n; O].
Proof.
  change (repeat (Some (@nil A)) (S n)) with (Some (@nil A) :: repeat (Some []) n).
  unfold np_shape.
  replace (forallb (fun o : option (list A) =>
                      match o with
                      | Some w => (length w =? length (@nil A))%nat
                      | None => false
                      end) (repeat (Some []) n)) with true.
  - cbn [length]. now rewrite repeat_length.
  - symmetry. apply forallb_forall. intros o Ho. apply repeat_spec in Ho. now subst.
Qed.

Lemma normalize_loop_all_missing (props : list (option (list F))) (n : nat)
      (iFrame : Z) (nd : norm_data F) :
  normalize_loop iFrame props (repeat None n) nd = Ok nd.
Proof.
  revert props iFrame. induction n as [|n IH]; intros [|v props] iFrame;
    try reflexivity.
  cbn [repeat normalize_loop bind]. apply IH.
Qed.

(** C4 fails on a batch in which every frame is missing, passed the way
    [compute_angles] passes it (an empty list per frame, [None] as its
    skeleton): the array returned has shape (N, n, 0), so it holds no entry
    at all instead of one column of N undefined values per frame. *)
Theorem all_missing_batch_has_no_columns (n : nat) :
  normalize_all_frames NaN (repeat (Some []) (S n)) (repeat None (S n))
  = Ok (Rank3 (repeat (repeat [] (S n)) N_POINTS_NORMALIZED)).
Proof.
  unfold normalize_all_frames. rewrite np_shape_all_empty.
  cbn [app]. apply normalize_loop_all_missing.
Qed.

End NormalizeAll.

(** *** Where the output is the (N, n) array of the docstring *)

Lemma nth_error_upd_other {A} (l : list A) (j i : nat) (x : A) :
  i <> j -> nth_error (upd j x l) i = nth_error l i.
Proof.
  revert j i. induction l as [|h t IH]; intros [|j] [|i] H; simpl; auto; try lia.
Qed.

Section NormalizeRank2.
Context {F : Type} {NF : NumOps F}.
Variable NaN : F.

(** The assignment of one frame changes column [iFrame] and nothing else. *)
Lemma assign_frame2_columns (rows : list (list F)) (iFrame : Z) (v : list F)
      (rows' : list (list F)) :
  0 <= iFrame -> assign_frame2 rows iFrame v = Ok rows' ->
  map (@length F) rows' = map (@length F) rows
  /\ forall i, i <> Z.to_nat iFrame ->
               map (fun r => nth_error r i) rows' = map (fun r => nth_error r i) rows.
Proof.
  intros Hk. revert v rows'.
  induction rows as [|row rows IH]; intros [|x v] rows' H; simpl in H;
    try discriminate.
  - inversion H; subst. auto.
  - apply bind_Ok in H. destruct H as (row' & Hrow & H).
    apply bind_Ok in H. destruct H as (rest & Hrest & H).
    inversion H; subst; clear H.
    destruct (IH _ _ Hrest) as (IHlen & IHcol).
    apply py_set_Ok in Hrow. destruct Hrow as (j & Hj & ->).
    apply py_norm_Some in Hj.
    assert (j = Z.to_nat iFrame) by lia. subst j.
    split.
    + simpl. rewrite upd_length, IHlen. reflexivity.
    + intros i Hi. simpl. rewrite nth_error_upd_other by exact Hi.
      rewrite IHcol by exact Hi. reflexivity.
Qed.

(** The frame loop on an array of shape (N, n): the shape stays, the columns
    before the current frame stay, and so do the columns of the frames to
    come that are missing. *)
Lemma normalize_loop_columns (props : list (option (list F)))
      (xys : list (option (side F))) (k : nat) (rows : list (list F))
      (nd : norm_data F) :
  normalize_loop (Z.of_nat k) props xys (Rank2 rows) = Ok nd ->
  exists rows',
    nd = Rank2 rows'
    /\ map (@length F) rows' = map (@length F) rows
    /\ (forall i, (i < k)%nat ->
                  map (fun r => nth_error r i) rows' = map (fun r => nth_error r i) rows)
    /\ (forall j, nth_error xys j = Some None -> (j < length props)%nat ->
                  map (fun r => nth_error r (k + j)) rows'
                  = map (fun r => nth_error r (k + j)) rows).
Proof.
  revert xys k rows. induction props as [|cur props IH]; intros xys k rows H.
  - simpl in H. inversion H; subst. exists rows.
    split; [reflexivity|]. split; [reflexivity|]. split; [reflexivity|].
    intros j _ Hj. simpl in Hj. lia.
  - destruct xys as [|cur_xy xys].
    { simpl in H. inversion H; subst. exists rows.
      split; [reflexivity|]. split; [reflexivity|]. split; [reflexivity|].
      intros [|j] Hj; discriminate. }
    cbn [normalize_loop] in H.
    apply bind_Ok in H. destruct H as (nd1 & Hnd1 & H).
    assert (H1 : exists rows1,
               nd1 = Rank2 rows1
               /\ map (@length F) rows1 = map (@length F) rows
               /\ (forall i, i <> k ->
                             map (fun r => nth_error r i) rows1
                             = map (fun r => nth_error r i) rows)
               /\ (cur_xy = None -> rows1 = rows)).
    { destruct cur_xy as [xy|].
      - apply bind_Ok in Hnd1. destruct Hnd1 as (v & _ & Hassign).
        unfold assign_frame in Hassign. destruct v as [x|x]; [|discriminate].
        apply bind_Ok in Hassign. destruct Hassign as (rows1 & Hr & E).
        inversion E; subst.
        destruct (assign_frame2_columns rows (Z.of_nat k) x rows1
                    (Nat2Z.is_nonneg k) Hr) as (Hl & Hc).
        exists rows1. repeat split; auto.
        + intros i Hi. apply Hc. lia.
        + discriminate.
      - inversion Hnd1; subst. exists rows. auto. }
    destruct H1 as (rows1 & -> & Hl1 & Hc1 & Hsame).
    replace (Z.of_nat k + 1) with (Z.of_nat (S k)) in H by lia.
    destruct (IH _ _ _ H) as (rows' & -> & Hl & Hbefore & Hmissing).
    exists rows'. split; [reflexivity|]. split; [congruence|]. split.
    + intros i Hi. rewrite Hbefore by lia. apply Hc1. lia.
    + intros [|j] Hj Hjlen; simpl in Hj.
      * inversion Hj; subst.
        rewrite Nat.add_0_r, Hbefore by lia.
        rewrite (Hsame eq_refl). reflexivity.
      * replace (k + S j)%nat with (S k + j)%nat by lia.
        rewrite (Hmissing j Hj) by (simpl in Hjlen; lia).
        apply Hc1. lia.
Qed.

Lemma nth_error_repeat_Some {A} (x : A) (n i : nat) :
  (i < n)%nat -> nth_error (repeat x n) i = Some x.
Proof.
  revert i. induction n as [|n IH]; intros [|i] H; simpl; auto; try lia.
  apply IH. lia.
Qed.

(** X16.  Where [np.shape] of the property list is (n,) - a list holding a
    [None], or sequences of different lengths - a returning call gives N rows
    of n entries, and the column of every frame whose skeleton is missing
    holds N undefined values. *)
Lemma normalize_all_frames_ragged (props : list (option (list F)))
      (xys : list (option (side F))) (nd : norm_data F) :
  np_shape props = [length props] ->
  normalize_all_frames NaN props xys = Ok nd ->
  exists rows,
    nd = Rank2 rows
    /\ map (@length F) rows = repeat (length props) N_POINTS_NORMALIZED
    /\ forall j, nth_error xys j = Some None -> (j < length props)%nat ->
                 map (fun r => nth_error r j) rows
                 = repeat (Some NaN) N_POINTS_NORMALIZED.
Proof.
  intros Hshape H. unfold normalize_all_frames in H. rewrite Hshape in H.
  cbn [app] in H.
  destruct (normalize_loop_columns props xys 0 _ _ H)
    as (rows & -> & Hl & _ & Hmissing).
  exists rows. split; [reflexivity|]. split.
  - rewrite Hl, map_repeat, repeat_length. reflexivity.
  - intros j Hj Hjn. specialize (Hmissing j Hj Hjn). simpl Nat.add in Hmissing.
    rewrite Hmissing.
    rewrite map_repeat, nth_error_repeat_Some by exact Hjn. reflexivity.
Qed.

End NormalizeRank2.

(** * Further properties of the code *)

(** ** h__getProjectionIndex *)

Lemma find_from_range (k : Z) (mask : list bool) :
  Forall (fun i => k <= i < k + Z.of_nat (length mask)) (find_from k mask).
Proof.
  revert k. induction mask as [|b mask IH]; intros k; [constructor|].
  cbn [find_from length]. specialize (IH (k + 1)).
  assert (H : Forall (fun i => k <= i < k + Z.of_nat (S (length mask)))
                     (find_from (k + 1) mask)).
  { eapply Forall_impl; [|exact IH]. cbn beta. intros i Hi. lia. }
  destruct b; [constructor; [lia | exact H] | exact H].
Qed.

Lemma find_from_sorted (k : Z) (mask : list bool) :
  StronglySorted Z.lt (find_from k mask).
Proof.
  revert k. induction mask as [|b mask IH]; intros k; [constructor|].
  cbn [find_from]. destruct b; [|apply IH].
  constructor; [apply IH|].
  eapply Forall_impl; [|apply (find_from_range (k + 1) mask)].
  cbn beta. intros i Hi. lia.
Qed.

Lemma py_slice_length {A} (l : list A) (lo hi : Z) :
  length (py_slice l lo hi)
  = (py_clip (length l) hi - py_clip (length l) lo)%nat.
Proof.
  unfold py_slice. rewrite length_firstn, length_skipn.
  assert (py_clip (length l) hi <= length l)%nat.
  { unfold py_clip. destruct (hi <? 0) eqn:E; lia. }
  lia.
Qed.

Lemma map2_length_min {A B C} (f : A -> B -> C) (l1 : list A) (l2 : list B) :
  length (map2 f l1 l2) = Nat.min (length l1) (length l2).
Proof. unfold map2. now rewrite length_map, length_combine. Qed.

Lemma py_take_total {A} (l : list A) (idx : list Z) :
  Forall (fun i => 0 <= i < Z.of_nat (length l)) idx ->
  exists xs, py_take l idx = Ok xs /\ length xs = length idx.
Proof.
  induction 1 as [|i idx Hi _ IH].
  - exists []. split; reflexivity.
  - destruct IH as (xs & Hxs & Hlen).
    destruct (py_get_in_range l i Hi) as (x & Hx & _).
    exists (x :: xs). cbn [py_take]. rewrite Hx, Hxs. cbn [bind length].
    split; [reflexivity | now rewrite Hlen].
Qed.

Section Argmin.
Context {F : Type} {NF : NumOps F}.

Lemma argmin_from_range (best : F) (bi i : Z) (l : list F) :
  argmin_from best bi i l = bi
  \/ i <= argmin_from best bi i l < i + Z.of_nat (length l).
Proof.
  revert best bi i. induction l as [|x t IH]; intros best bi i; [now left|].
  cbn [argmin_from length]. destruct (fltb x best).
  - right. destruct (IH x i (i + 1)) as [-> | H]; lia.
  - destruct (IH best bi (i + 1)) as [-> | H]; [now left | right; lia].
Qed.

Lemma np_argmin_range (l : list F) :
  l <> [] ->
  exists j, np_argmin l = Ok j /\ 0 <= j < Z.of_nat (length l).
Proof.
  destruct l as [|x t]; [congruence|]. intros _.
  exists (argmin_from x 0 1 t). split; [reflexivity|].
  cbn [length]. destruct (argmin_from_range x 0 1 t) as [-> | H]; lia.
Qed.

(** The choice among the window entries: the single local minimum, the local
    minimum nearest in distance, or the least entry. *)
Lemma projection_choice (dp d : list F) :
  dp <> [] -> length d = length dp ->
  let possible :=
    map2 andb (map2 fltb (py_slice dp 1 (-2)) (py_slice dp 2 (-1)))
              (map2 fltb (py_slice dp 1 (-2)) (py_slice dp 0 (-3))) in
  exists j,
    match find possible with
    | [ip] => Ok (ip + 1)
    | _ :: _ :: _ =>
        ds <- py_take d (find possible) ;;
        temp_I <- np_argmin ds ;;
        ip <- py_get (find possible) temp_I ;;
        Ok (ip + 1)
    | [] => np_argmin dp
    end = Ok j
    /\ 0 <= j < Z.of_nat (length dp).
Proof.
  intros Hne Hd possible.
  assert (Hlen : (length possible <= length dp - 3)%nat).
  { unfold possible. rewrite !map2_length_min, !py_slice_length.
    rewrite !(py_clip_neg (length dp) (-1)), !(py_clip_neg (length dp) (-2)),
      !(py_clip_neg (length dp) (-3)) by lia.
    rewrite !py_clip_nonneg by lia. lia. }
  pose proof (find_from_range 0 possible) as Hr. fold (find possible) in Hr.
  assert (Hr' : Forall (fun i => 0 <= i /\ i + 1 < Z.of_nat (length dp) - 1
                                 /\ i < Z.of_nat (length d)) (find possible)).
  { eapply Forall_impl; [|exact Hr]. cbn beta. intros i Hi. lia. }
  destruct (find possible) as [|ip [|ip' Ip]] eqn:E.
  - apply np_argmin_range. exact Hne.
  - exists (ip + 1). split; [reflexivity|].
    inversion Hr' as [|? ? Hi _]; subst. lia.
  - rewrite <- E in *. clear Hr.
    destruct (py_take_total d (find possible)) as (ds & Hds & Hdl).
    { eapply Forall_impl; [|exact Hr']. cbn beta. intros i Hi. lia. }
    rewrite Hds. cbn [bind].
    destruct (np_argmin_range ds) as (t & Ht & Htr).
    { intros ->. rewrite E in Hdl. discriminate. }
    rewrite Ht. cbn [bind]. rewrite Hdl in Htr.
    destruct (py_get_in_range (find possible) t Htr) as (ip0 & Hip & Hnth).
    rewrite Hip. cbn [bind]. exists (ip0 + 1). split; [reflexivity|].
    apply nth_error_In in Hnth. rewrite Forall_forall in Hr'.
    specialize (Hr' _ Hnth). lia.
Qed.

(** X2.  [h__getProjectionIndex] on a window of three equally long rows:
    an empty window raises ValueError ([np.argmin] of an empty array); on
    any other window it returns, and the index it returns lies inside the
    window (counted from [left_I]); the sign it reports is 1 or -1, and it is
    the sign asked for when [sign_use] is not 0. *)
Theorem projection_index_in_window (vc_dx_ortho vc_dy_ortho : F)
        (dx_across_worm dy_across_worm : list F) (left_I : Z)
        (d_across : list F) (sign_use : Z) :
  length dy_across_worm = length dx_across_worm ->
  length d_across = length dx_across_worm ->
  (dx_across_worm = [] ->
   h__getProjectionIndex vc_dx_ortho vc_dy_ortho dx_across_worm dy_across_worm
                         left_I d_across sign_use = Raise ValueError)
  /\ (dx_across_worm <> [] ->
      exists dp_value j sign_used,
        h__getProjectionIndex vc_dx_ortho vc_dy_ortho dx_across_worm dy_across_worm
                              left_I d_across sign_use
        = Ok (dp_value, left_I + j, sign_used)
        /\ 0 <= j < Z.of_nat (length dx_across_worm)
        /\ (sign_used = 1 \/ sign_used = -1)
        /\ (sign_use = 1 -> sign_used = 1)
        /\ (sign_use <> 0 -> sign_use <> 1 -> sign_used = -1)).
Proof.
  intros Hdy Hd. split.
  - intros ->. destruct dy_across_worm; [|discriminate].
    unfold h__getProjectionIndex. cbn [map2 combine map].
    destruct ((sign_use =? 0) && fltb (of_Z 0) (np_sum [])); [reflexivity|].
    destruct (sign_use =? 1); reflexivity.
  - intros Hne. unfold h__getProjectionIndex.
    set (dp0 := map2 _ dx_across_worm dy_across_worm).
    assert (L0 : length dp0 = length dx_across_worm).
    { unfold dp0. rewrite map2_length_min, Hdy. apply Nat.min_id. }
    assert (Hgo : forall (dp : list F) (s : Z),
               length dp = length dx_across_worm ->
               exists v j,
                 (dp_I <- match find (map2 andb
                                       (map2 fltb (py_slice dp 1 (-2)) (py_slice dp 2 (-1)))
                                       (map2 fltb (py_slice dp 1 (-2)) (py_slice dp 0 (-3)))) with
                          | [] => np_argmin dp
                          | [ip] => Ok (ip + 1)
                          | _ :: _ :: _ =>
                              ds <- py_take d_across
                                      (find (map2 andb
                                       (map2 fltb (py_slice dp 1 (-2)) (py_slice dp 2 (-1)))
                                       (map2 fltb (py_slice dp 1 (-2)) (py_slice dp 0 (-3))))) ;;
                              temp_I <- np_argmin ds ;;
                              ip <- py_get (find (map2 andb
                                       (map2 fltb (py_slice dp 1 (-2)) (py_slice dp 2 (-1)))
                                       (map2 fltb (py_slice dp 1 (-2)) (py_slice dp 0 (-3))))) temp_I ;;
                              Ok (ip + 1)
                          end ;;
                  dp_value <- py_get dp dp_I ;;
                  Ok (dp_value, left_I + dp_I, s))
                 = Ok (v, left_I + j, s)
                 /\ 0 <= j < Z.of_nat (length dx_across_worm)).
    { intros dp s L.
      destruct (projection_choice dp d_across) as (j & Hj & Hr).
      - intros ->. destruct dx_across_worm; [congruence | discriminate].
      - congruence.
      - cbv zeta in Hj.
        destruct (py_get_in_range dp j Hr) as (v & Hv & _).
        exists v, j. split; [|lia].
        destruct (find _) as [|ip [|ip' Ip]]; rewrite Hj; cbn [bind];
          rewrite Hv; reflexivity. }
    destruct ((sign_use =? 0) && fltb (of_Z 0) (np_sum dp0)) eqn:E0.
    + destruct (Hgo (map (fmul (of_Z (-1))) dp0) 1) as (v & j & H & Hr);
        [now rewrite length_map|].
      exists v, j, 1. split; [exact H|]. split; [exact Hr|].
      apply andb_true_iff in E0. destruct E0 as (E0 & _). apply Z.eqb_eq in E0.
      repeat split; auto; intros; lia.
    + destruct (sign_use =? 1) eqn:E1.
      * destruct (Hgo (map (fmul (of_Z (-1))) dp0) 1) as (v & j & H & Hr);
          [now rewrite length_map|].
        exists v, j, 1. split; [exact H|]. split; [exact Hr|].
        apply Z.eqb_eq in E1. repeat split; auto; intros; lia.
      * destruct (Hgo dp0 (-1)) as (v & j & H & Hr); [exact L0|].
        exists v, j, (-1). split; [exact H|]. split; [exact Hr|].
        apply Z.eqb_neq in E1. repeat split; auto; intros; lia.
Qed.

End Argmin.

(** X2 on a window of five entries starting at index 7. *)
Lemma projection_index_in_window_witness :
  exists dp_value j sign_used,
    h__getProjectionIndex 0%float 1%float
      [1; 1; 1; 1; 1]%float [(-3); (-4); (-5); (-4); (-3)]%float 7
      [3; 4; 5; 4; 3]%float 0
    = Ok (dp_value, 7 + j, sign_used)
    /\ 0 <= j < 5.
Proof.
  destruct (projection_index_in_window 0%float 1%float
              [1; 1; 1; 1; 1]%float [(-3); (-4); (-5); (-4); (-3)]%float 7
              [3; 4; 5; 4; 3]%float 0 eq_refl eq_refl) as (_ & H).
  destruct H as (v & j & s & H & Hj & _); [discriminate|].
  exists v, j, s. split; [exact H | exact Hj].
Defined.

(** ** h__getMatches *)

Lemma nth_upd {A} (l : list A) (k i : nat) (x d : A) :
  nth i (upd k x l) d = if (i =? k)%nat && (k <? length l)%nat then x else nth i l d.
Proof.
  revert k i. induction l as [|h t IH]; intros k i.
  - simpl. destruct i, k; simpl; try reflexivity; now rewrite andb_false_r.
  - destruct k as [|k], i as [|i]; simpl; try reflexivity.
    rewrite IH. reflexivity.
Qed.

Lemma py_set_nonneg {A} (l : list A) (i : Z) (x : A) (l' : list A) :
  py_set l i x = Ok l' -> 0 <= i ->
  i < Z.of_nat (length l) /\ l' = upd (Z.to_nat i) x l.
Proof.
  intros H Hi. apply py_set_Ok in H. destruct H as (k & Hk & ->).
  apply py_norm_Some in Hk. destruct Hk as (Hlt & [E|E]); [|lia].
  split; [lia|]. f_equal. lia.
Qed.

Lemma py_slice_nonneg_length {A} (l : list A) (lo hi : Z) :
  0 <= lo -> 0 <= hi ->
  lo + Z.of_nat (length (py_slice l lo hi)) <= Z.max lo (Z.min hi (Z.of_nat (length l))).
Proof.
  intros Hlo Hhi. rewrite py_slice_length, !py_clip_nonneg by lia. lia.
Qed.

Section Matches.
Context {F : Type} {NF : NumOps F}.

Lemma h__getProjectionIndex_Ok (nx ny : F) (dx dy : list F) (left_I : Z)
      (d : list F) (sign_use : Z) (v : F) (Ix s : Z) :
  h__getProjectionIndex nx ny dx dy left_I d sign_use = Ok (v, Ix, s) ->
  left_I <= Ix < left_I + Z.of_nat (Nat.min (length dx) (length dy)).
Proof.
  unfold h__getProjectionIndex.
  set (dp0 := map2 _ dx dy).
  assert (L0 : length dp0 = Nat.min (length dx) (length dy))
    by (unfold dp0; apply map2_length_min).
  assert (Hgo : forall (dp : list F) (s0 : Z),
             length dp = length dp0 ->
             (dp_I <- match find (map2 andb
                                   (map2 fltb (py_slice dp 1 (-2)) (py_slice dp 2 (-1)))
                                   (map2 fltb (py_slice dp 1 (-2)) (py_slice dp 0 (-3)))) with
                      | [] => np_argmin dp
                      | [ip] => Ok (ip + 1)
                      | _ :: _ :: _ =>
                          ds <- py_take d
                                  (find (map2 andb
                                   (map2 fltb (py_slice dp 1 (-2)) (py_slice dp 2 (-1)))
                                   (map2 fltb (py_slice dp 1 (-2)) (py_slice dp 0 (-3))))) ;;
                          temp_I <- np_argmin ds ;;
                          ip <- py_get (find (map2 andb
                                   (map2 fltb (py_slice dp 1 (-2)) (py_slice dp 2 (-1)))
                                   (map2 fltb (py_slice dp 1 (-2)) (py_slice dp 0 (-3))))) temp_I ;;
                          Ok (ip + 1)
                      end ;;
              dp_value <- py_get dp dp_I ;;
              Ok (dp_value, left_I + dp_I, s0))
             = Ok (v, Ix, s) ->
             left_I <= Ix < left_I + Z.of_nat (length dp0)).
  { intros dp s0 L H.
    set (possible := map2 andb _ _) in H.
    assert (Hlen : (length possible <= length dp - 3)%nat).
    { unfold possible. rewrite !map2_length_min, !py_slice_length.
      rewrite !(py_clip_neg (length dp) (-1)), !(py_clip_neg (length dp) (-2)),
        !(py_clip_neg (length dp) (-3)) by lia.
      rewrite !py_clip_nonneg by lia. lia. }
    pose proof (find_from_range 0 possible) as Hr. fold (find possible) in Hr.
    apply bind_Ok in H. destruct H as (j & Hj & H).
    apply bind_Ok in H. destruct H as (v' & Hv & H).
    inversion H; subst; clear H.
    enough (0 <= j < Z.of_nat (length dp)) by lia.
    destruct (find possible) as [|ip [|ip' Ip]] eqn:E.
    - destruct dp as [|x t]; [discriminate|].
      destruct (np_argmin_range (x :: t)) as (j' & Hj' & R); [discriminate|].
      rewrite Hj in Hj'. inversion Hj'; subst. exact R.
    - inversion Hj; subst. inversion Hr as [|? ? Hi _]; subst. lia.
    - rewrite <- E in *.
      apply bind_Ok in Hj. destruct Hj as (ds & Hds & Hj).
      apply bind_Ok in Hj. destruct Hj as (t & Ht & Hj).
      apply bind_Ok in Hj. destruct Hj as (ip0 & Hip & Hj).
      inversion Hj; subst; clear Hj.
      apply py_get_Ok in Hip. destruct Hip as (k & _ & Hk).
      apply nth_error_In in Hk. rewrite Forall_forall in Hr.
      specialize (Hr _ Hk). lia. }
  destruct ((sign_use =? 0) && fltb (of_Z 0) (np_sum dp0)).
  - intros H. rewrite <- L0. eapply Hgo; [|exact H]. now rewrite length_map.
  - destruct (sign_use =? 1).
    + intros H. rewrite <- L0. eapply Hgo; [|exact H]. now rewrite length_map.
    + intros H. rewrite <- L0. eapply Hgo; [|exact H]. reflexivity.
Qed.

(** One projection writes entry [Ix] of the three arrays; the index it
    stores lies in the window [lb:rb] of the row, and inside the row. *)
Lemma project_point_Ok (norm_x norm_y : list F) (dx dy d : matrix F)
      (sign_use Ix lb rb : Z) (st st' : match_state F) :
  project_point norm_x norm_y dx dy d sign_use Ix lb rb st = Ok st' ->
  0 <= Ix -> 0 <= lb -> 0 <= rb ->
  exists m v,
    lb <= m < rb
    /\ Ix < Z.of_nat (length (match_I st))
    /\ match_I st' = upd (Z.to_nat Ix) m (match_I st)
    /\ dp_values st' = upd (Z.to_nat Ix) v (dp_values st)
    /\ Ix < Z.of_nat (length (dp_values st)).
Proof.
  unfold project_point. intros H HIx Hlb Hrb.
  apply bind_Ok in H. destruct H as (nx & _ & H).
  apply bind_Ok in H. destruct H as (ny & _ & H).
  apply bind_Ok in H. destruct H as (dxr & _ & H).
  apply bind_Ok in H. destruct H as (dyr & _ & H).
  apply bind_Ok in H. destruct H as (dr & _ & H).
  apply bind_Ok in H. destruct H as (((v & m) & s) & Hp & H).
  apply bind_Ok in H. destruct H as (signs & _ & H).
  apply bind_Ok in H. destruct H as (dps & Hdps & H).
  apply bind_Ok in H. destruct H as (ms & Hms & H).
  inversion H; subst; clear H. cbn [match_I dp_values].
  apply h__getProjectionIndex_Ok in Hp.
  pose proof (py_slice_nonneg_length dxr lb rb Hlb Hrb) as Hs.
  destruct (py_set_nonneg _ _ _ _ Hms HIx) as (Hlt & ->).
  destruct (py_set_nonneg _ _ _ _ Hdps HIx) as (Hlt' & ->).
  exists m, v. repeat split; auto; lia.
Qed.

Lemma first_pass_Ok (norm_x norm_y : list F) (dx dy d : matrix F)
      (bounds : list (Z * Z)) (k : nat) (st st' : match_state F) :
  first_pass norm_x norm_y dx dy d (Z.of_nat k) bounds st = Ok st' ->
  Forall (fun b => 0 <= fst b /\ 0 <= snd b) bounds ->
  length (match_I st') = length (match_I st)
  /\ length (dp_values st') = length (dp_values st)
  /\ (forall i, (i < k \/ k + length bounds <= i)%nat ->
                nth i (match_I st') 0 = nth i (match_I st) 0)
  /\ (forall j, (j < length bounds)%nat ->
                fst (nth j bounds (0, 0)) <= nth (k + j) (match_I st') 0
                < snd (nth j bounds (0, 0))).
Proof.
  revert k st. induction bounds as [|(lb, rb) bounds IH]; intros k st H Hb.
  - simpl in H. inversion H; subst.
    split; [reflexivity|]. split; [reflexivity|]. split; [reflexivity|].
    intros j Hj. simpl in Hj. lia.
  - cbn [first_pass] in H. apply bind_Ok in H. destruct H as (st1 & H1 & H).
    inversion Hb as [|? ? (Hlb & Hrb) Hb']; subst. cbn [fst snd] in *.
    apply project_point_Ok in H1; try lia.
    destruct H1 as (m & v & Hm & Hlt & Em & Ev & Hlt').
    replace (Z.of_nat k + 1) with (Z.of_nat (S k)) in H by lia.
    destruct (IH (S k) st1 H Hb') as (L & L' & Hout & Hin).
    rewrite Em, Ev, !upd_length in *. rewrite Nat2Z.id in *.
    split; [exact L|]. split; [exact L'|]. split.
    + intros i Hi. cbn [length] in Hi. rewrite Hout by lia.
      rewrite nth_upd. replace (i =? k)%nat with false; [reflexivity|].
      symmetry. apply Nat.eqb_neq. lia.
    + intros [|j] Hj; cbn [length nth fst snd] in *.
      * rewrite Nat.add_0_r, Hout by lia. rewrite nth_upd, Nat.eqb_refl.
        replace (k <? length (match_I st))%nat with true; [exact Hm|].
        symmetry. apply Nat.ltb_lt. lia.
      * replace (k + S j)%nat with (S k + j)%nat by lia. apply Hin. lia.
Qed.

Lemma second_pass_Ok (norm_x norm_y : list F) (dx dy d : matrix F)
      (left_I right_I : list Z) (sign_use : Z) (I_bad : list Z)
      (st st' : match_state F) (n : nat) :
  second_pass norm_x norm_y dx dy d left_I right_I sign_use I_bad st = Ok st' ->
  length left_I = n -> length right_I = n ->
  Forall (fun i => 0 <= i) left_I -> Forall (fun i => 0 <= i) right_I ->
  Forall (fun i => 1 <= i < Z.of_nat n - 1) I_bad ->
  length (match_I st') = length (match_I st)
  /\ length (dp_values st') = length (dp_values st)
  /\ nth 0 (match_I st') 0 = nth 0 (match_I st) 0
  /\ nth (n - 1) (match_I st') 0 = nth (n - 1) (match_I st) 0
  /\ (forall i, in_window left_I right_I (match_I st) i ->
                in_window left_I right_I (match_I st') i).
Proof.
  intros H Ll Lr Hl Hr Hbad. revert st H.
  induction Hbad as [|Ix I_bad HIx _ IH]; intros st H.
  - simpl in H. inversion H; subst.
    split; [reflexivity|]. split; [reflexivity|]. split; [reflexivity|].
    split; [reflexivity|]. auto.
  - cbn [second_pass] in H.
    apply bind_Ok in H. destruct H as (lb & Hlb & H).
    apply bind_Ok in H. destruct H as (rb & Hrb & H).
    apply bind_Ok in H. destruct H as (st1 & H1 & H).
    destruct (py_get_in_range left_I Ix) as (lb' & Hlb' & Nl); [lia|].
    destruct (py_get_in_range right_I Ix) as (rb' & Hrb' & Nr); [lia|].
    rewrite Hlb in Hlb'. rewrite Hrb in Hrb'.
    inversion Hlb'; inversion Hrb'; subst lb' rb'; clear Hlb' Hrb'.
    assert (Plb : 0 <= lb).
    { rewrite Forall_forall in Hl. apply Hl. eapply nth_error_In; eauto. }
    assert (Prb : 0 <= rb).
    { rewrite Forall_forall in Hr. apply Hr. eapply nth_error_In; eauto. }
    apply project_point_Ok in H1; try lia.
    destruct H1 as (m & v & Hm & Hlt & Em & Ev & Hlt').
    destruct (IH st1 H) as (L & L' & Hz & Hn & Hw).
    rewrite Em, Ev, !upd_length in *.
    split; [exact L|]. split; [exact L'|]. split; [|split].
    + rewrite Hz, nth_upd.
      replace (0 =? Z.to_nat Ix)%nat with false; [reflexivity|].
      symmetry. apply Nat.eqb_neq. lia.
    + rewrite Hn, nth_upd.
      replace (n - 1 =? Z.to_nat Ix)%nat with false; [reflexivity|].
      symmetry. apply Nat.eqb_neq. lia.
    + intros i Hi. apply Hw. unfold in_window in *. rewrite nth_upd.
      destruct (Nat.eqb_spec i (Z.to_nat Ix)) as [->|Hne]; [|exact Hi].
      replace (Z.to_nat Ix <? length (match_I st))%nat with true
        by (symmetry; apply Nat.ltb_lt; lia).
      cbn [andb].
      rewrite (nth_error_nth _ _ 0 Nl), (nth_error_nth _ _ 0 Nr). exact Hm.
Qed.

End Matches.

Section MatchesThm.
Context {F : Type} {NF : NumOps F}.

(** The windows of the interior points, as the first loop zips them. *)
Lemma inner_bounds (left_I right_I : list Z) (n : nat) :
  length left_I = n -> length right_I = n ->
  let B := combine (py_slice left_I 1 (-1)) (py_slice right_I 1 (-1)) in
  length B = (n - 2)%nat
  /\ forall j, (j < n - 2)%nat ->
               nth j B (0, 0) = (nth (S j) left_I 0, nth (S j) right_I 0).
Proof.
  intros Ll Lr B. unfold B. rewrite !py_slice_inner, Ll, Lr.
  assert (La : forall l : list Z, length l = n ->
                 length (firstn (n - 2) (skipn 1 l)) = (n - 2)%nat).
  { intros l L. rewrite length_firstn, length_skipn. lia. }
  split.
  - rewrite length_combine, !La by assumption. lia.
  - intros j Hj. rewrite combine_nth by (rewrite !La by assumption; reflexivity).
    rewrite !nth_firstn, !nth_skipn.
    replace (j <? n - 2)%nat with true by (symmetry; apply Nat.ltb_lt; exact Hj).
    reflexivity.
Qed.

(** X3.  When [h__getMatches] returns (with one window per point of side 1,
    none of them starting or stopping below 0), side 1 has at least two
    points, both arrays have one entry per point, every point other than the
    first and the last is matched with an index [left_I[i] <= m < right_I[i]]
    of its window, entry 0 is 0, and the last entry is [len(s2)], one past
    the last index of side 2 (it is overwritten later, by
    [h__updateEndsByWalking]). *)
Theorem matches_lie_in_their_windows (s1 s2 : side F) (norm_x norm_y : list F)
        (dx_across dy_across d_across : matrix F) (left_I right_I : list Z)
        (dps : list F) (m : list Z) :
  h__getMatches s1 s2 norm_x norm_y dx_across dy_across d_across left_I right_I
  = Ok (dps, m) ->
  length left_I = length s1 -> length right_I = length s1 ->
  Forall (fun i => 0 <= i) left_I -> Forall (fun i => 0 <= i) right_I ->
  (2 <= length s1)%nat
  /\ length m = length s1 /\ length dps = length s1
  /\ nth 0 m 0 = 0
  /\ nth (length s1 - 1) m 0 = Z.of_nat (length s2)
  /\ forall i, (1 <= i < length s1 - 1)%nat ->
               nth i left_I 0 <= nth i m 0 < nth i right_I 0.
Proof.
  intros H Ll Lr Hl Hr.
  destruct (h__getMatches_length _ _ _ _ _ _ _ _ _ _ _ H) as (Lm & Hn).
  set (n := length s1) in *.
  unfold h__getMatches in H. fold n in H.
  destruct (inner_bounds left_I right_I n Ll Lr) as (LB & HB).
  set (B := combine (py_slice left_I 1 (-1)) (py_slice right_I 1 (-1))) in *.
  apply bind_Ok in H. destruct H as (m0 & Hm0 & H).
  apply bind_Ok in H. destruct H as (m1 & Hm1 & H).
  apply bind_Ok in H. destruct H as (st1 & H1 & H).
  apply bind_Ok in H. destruct H as (sign1 & _ & H).
  apply bind_Ok in H. destruct H as (st2 & H2 & H).
  inversion H; subst dps m; clear H.
  (* the two forced entries *)
  apply py_set_nonneg in Hm0; [|lia]. destruct Hm0 as (_ & ->).
  apply py_set_Ok in Hm1. destruct Hm1 as (k & Hk & ->).
  rewrite upd_length, repeat_length in Hk.
  rewrite py_norm_minus_one in Hk by lia. inversion Hk; subst k; clear Hk.
  set (m1 := upd (n - 1) (Z.of_nat (length s2)) (upd (Z.to_nat 0) 0 (repeat 0 n))) in *.
  assert (Lm1 : length m1 = n) by (unfold m1; now rewrite !upd_length, repeat_length).
  assert (Z1 : nth 0 m1 0 = 0).
  { unfold m1. rewrite !nth_upd.
    replace (0 =? n - 1)%nat with false by (symmetry; apply Nat.eqb_neq; lia).
    cbn [andb]. change (Z.to_nat 0) with O. rewrite Nat.eqb_refl.
    destruct (_ <? _)%nat; cbn [andb]; [reflexivity|].
    apply nth_repeat. }
  assert (E1 : nth (n - 1) m1 0 = Z.of_nat (length s2)).
  { unfold m1. rewrite nth_upd, Nat.eqb_refl, upd_length, repeat_length.
    replace (n - 1 <? n)%nat with true by (symmetry; apply Nat.ltb_lt; lia).
    reflexivity. }
  (* first loop *)
  assert (PB : Forall (fun b => 0 <= fst b /\ 0 <= snd b) B).
  { apply Forall_nth. intros j d Hj. rewrite (nth_indep _ d (0, 0)) by exact Hj.
    rewrite HB by lia. cbn [fst snd].
    rewrite Forall_forall in Hl, Hr.
    split; [apply Hl | apply Hr]; apply nth_In; lia. }
  pose proof (first_pass_lengths _ _ _ _ _ _ _ _ _ H1) as (_ & Ls).
  cbn [all_signs_used] in Ls. rewrite repeat_length in Ls.
  change 1 with (Z.of_nat 1) in H1.
  apply first_pass_Ok in H1; [|exact PB].
  cbn [match_I dp_values] in H1.
  destruct H1 as (L1 & L1' & Hout & Hin).
  assert (W1 : forall i, (1 <= i < n - 1)%nat ->
                         in_window left_I right_I (match_I st1) i).
  { intros i Hi. unfold in_window.
    specialize (Hin (i - 1)%nat ltac:(lia)).
    rewrite HB in Hin by lia. cbn [fst snd] in Hin.
    replace (1 + (i - 1))%nat with i in Hin by lia.
    replace (S (i - 1)) with i in Hin by lia. exact Hin. }
  (* second loop *)
  assert (S2 : length (match_I st2) = length (match_I st1)
               /\ length (dp_values st2) = length (dp_values st1)
               /\ nth 0 (match_I st2) 0 = nth 0 (match_I st1) 0
               /\ nth (n - 1) (match_I st2) 0
                  = nth (n - 1) (match_I st1) 0
               /\ (forall i, in_window left_I right_I (match_I st1) i ->
                             in_window left_I right_I (match_I st2) i)).
  { assert (Hbad : forall f : Z -> bool,
               Forall (fun i => 1 <= i < Z.of_nat n - 1)
                 (map (fun i => i + 1)
                      (find (map f (py_slice (all_signs_used st1) 1 (-1)))))).
    { intros f. apply Forall_map.
      eapply Forall_impl; [|apply find_from_range]. cbn beta.
      intros i Hi. rewrite length_map, py_slice_length in Hi.
      rewrite py_clip_neg, py_clip_nonneg in Hi by lia. lia. }
    destruct (negb (forallb _ _)).
    - destruct (0 <? _);
        exact (second_pass_Ok _ _ _ _ _ _ _ _ _ _ _ n H2 Ll Lr Hl Hr (Hbad _)).
    - inversion H2; subst st2.
      split; [reflexivity|]. split; [reflexivity|]. split; [reflexivity|].
      split; [reflexivity|]. auto. }
  destruct S2 as (L2 & L2' & Hz & He & Hw).
  split; [exact Hn|]. split; [exact Lm|].
  split; [rewrite L2', L1'; apply repeat_length|].
  split; [rewrite Hz, Hout by lia; exact Z1|].
  split; [rewrite He, Hout by lia; exact E1|].
  intros i Hi. apply Hw, W1, Hi.
Qed.

End MatchesThm.

(** ** h__getBounds *)

Lemma zrange_from_range (a : Z) (n : nat) :
  Forall (fun i => a <= i < a + Z.of_nat n) (zrange_from a n).
Proof.
  revert a. induction n as [|n IH]; intros a; [constructor|].
  cbn [zrange_from]. constructor; [lia|].
  eapply Forall_impl; [|apply IH]. cbn beta. intros i Hi. lia.
Qed.

Lemma combine_map_same {A B C} (f : A -> B) (g : A -> C) (l : list A) :
  combine (map f l) (map g l) = map (fun x => (f x, g x)) l.
Proof. induction l as [|x l IH]; simpl; [reflexivity | now rewrite IH]. Qed.

Lemma Int_part_floor (r : R) : (IZR (Int_part r) <= r < IZR (Int_part r) + 1)%R.
Proof. destruct (base_Int_part r). lra. Qed.

Lemma R_ceil (r : R) : (r <= IZR (- Int_part (- r)) < r + 1)%R.
Proof. rewrite opp_IZR. destruct (Int_part_floor (- r)). lra. Qed.

(** [np.linspace(0, 1, n)] over the reals stays between 0 and 1. *)
Lemma linspace_unit_range (n : nat) :
  Forall (fun p => (0 <= p <= 1)%R) (linspace (of_Z 0) (of_Z 1) n).
Proof.
  destruct n as [|[|m]]; [constructor | |].
  - constructor; [|constructor]. cbn [of_Z R_ops]. lra.
  - unfold linspace. apply Forall_app. split.
    + apply Forall_map. eapply Forall_impl; [|apply zrange_from_range].
      cbn beta. intros i Hi. cbn [fadd fmul fdiv fsub of_Z R_ops].
      assert (Hm : (0 < IZR (Z.of_nat (S m)))%R) by (apply IZR_lt; lia).
      assert (H0 : (0 <= IZR i)%R) by (apply IZR_le; lia).
      assert (H1 : (IZR i <= IZR (Z.of_nat (S m)))%R) by (apply IZR_le; lia).
      replace (IZR i * ((1 - 0) / IZR (Z.of_nat (S m))) + 0)%R
        with (IZR i / IZR (Z.of_nat (S m)))%R by (field; lra).
      split.
      * apply Rmult_le_pos; [exact H0|]. apply Rlt_le, Rinv_0_lt_compat, Hm.
      * apply Rmult_le_reg_r with (IZR (Z.of_nat (S m))); [exact Hm|].
        unfold Rdiv. rewrite Rmult_assoc, Rinv_l by lra. lra.
    + constructor; [|constructor]. cbn [of_Z R_ops]. lra.
Qed.

(** X1.  Over the reals: when side 2 has at least two points, the backward
    search fraction covers more than one point of it and the forward
    fraction is positive (0.3 and 0.3 in the code, so from four points on),
    [h__getBounds] gives every point of side 1 a window [left:right] that is
    not empty and lies inside side 2; its stop index is at most n2 - 1, so
    the last point of side 2 is in no window. *)
Theorem search_windows_are_valid (n1 n2 : nat) (p_left p_right : R) :
  (2 <= n2)%nat ->
  (1 < p_left * IZR (Z.of_nat n2))%R -> (0 < p_right)%R ->
  length (fst (h__getBounds n1 n2 p_left p_right)) = n1
  /\ length (snd (h__getBounds n1 n2 p_left p_right)) = n1
  /\ Forall (fun w => 0 <= fst w < snd w /\ snd w <= Z.of_nat n2 - 1)
            (combine (fst (h__getBounds n1 n2 p_left p_right))
                     (snd (h__getBounds n1 n2 p_left p_right))).
Proof.
  intros Hn2 Hl Hr. unfold h__getBounds. cbn [fst snd].
  rewrite !length_map, !linspace_length.
  split; [reflexivity|]. split; [reflexivity|].
  rewrite !map_map, combine_map_same. apply Forall_map.
  eapply Forall_impl; [|apply linspace_unit_range].
  cbn beta. intros p Hp.
  cbn [fst snd fadd fsub fmul of_Z ffloor fceil R_ops].
  set (N := IZR (Z.of_nat n2)) in *.
  assert (HN : (2 <= N)%R) by (unfold N; apply IZR_le; lia).
  destruct (Int_part_floor ((p - p_left) * N)) as (F1 & F2).
  destruct (R_ceil ((p + p_right) * N)) as (C1 & C2).
  set (i := Int_part ((p - p_left) * N)) in *.
  set (c := - Int_part (- ((p + p_right) * N))) in *.
  assert (Hic : i < c).
  { apply lt_IZR. apply Rle_lt_trans with ((p - p_left) * N)%R; [exact F1|].
    apply Rlt_le_trans with ((p + p_right) * N)%R; [|exact C1]. nra. }
  assert (Hi : i < Z.of_nat n2 - 1).
  { apply lt_IZR. rewrite minus_IZR. fold N.
    apply Rle_lt_trans with ((p - p_left) * N)%R; [exact F1|]. nra. }
  assert (Hc : 0 < c).
  { apply lt_IZR. apply Rlt_le_trans with ((p + p_right) * N)%R; [|exact C1]. nra. }
  destruct (i <? 0) eqn:Ei; destruct (Z.of_nat n2 <=? c) eqn:Ec;
    try apply Z.ltb_lt in Ei; try apply Z.ltb_ge in Ei;
    try apply Z.leb_le in Ec; try apply Z.leb_gt in Ec; lia.
Qed.

(** X1 for two sides of 60 points and the search fractions of the code. *)
Lemma search_windows_are_valid_witness :
  Forall (fun w => 0 <= fst w < snd w /\ snd w <= Z.of_nat 60 - 1)
         (combine (fst (h__getBounds 60 60 (PERCENT_BACK_SEARCH (F:=R))
                                     PERCENT_FORWARD_SEARCH))
                  (snd (h__getBounds 60 60 (PERCENT_BACK_SEARCH (F:=R))
                                     PERCENT_FORWARD_SEARCH))).
Proof.
  destruct (search_windows_are_valid 60 60 (PERCENT_BACK_SEARCH (F:=R))
                                     PERCENT_FORWARD_SEARCH) as (_ & _ & H).
  - lia.
  - unfold PERCENT_BACK_SEARCH. cbn [fdiv of_Z R_ops]. simpl Z.of_nat. lra.
  - unfold PERCENT_FORWARD_SEARCH. cbn [fdiv of_Z R_ops]. lra.
  - exact H.
Defined.

Lemma forallb_nonneg (l : list Z) :
  forallb (fun i => 0 <=? i) l = true -> Forall (fun i => 0 <= i) l.
Proof.
  intros H. apply Forall_forall. intros i Hi.
  rewrite forallb_forall in H. apply Z.leb_le. auto.
Qed.

(** X3 on two straight sides of 60 points, in binary64. *)
Lemma matches_lie_in_their_windows_witness :
  let s1 := straight_side 0 60 in
  let s2 := straight_side 1 60 in
  let d := cross_distances s1 s2 in
  let bounds := h__getBounds 60 60 (PERCENT_BACK_SEARCH (F:=float))
                             PERCENT_FORWARD_SEARCH in
  exists dps m,
    h__getMatches s1 s2 (map (fun _ => 0%float) s1) (map (fun _ => 1%float) s1)
                  (mat_map2 fdiv (across fst s1 s2) d)
                  (mat_map2 fdiv (across snd s1 s2) d) d (fst bounds) (snd bounds)
    = Ok (dps, m)
    /\ nth 0 m 0 = 0 /\ nth 59 m 0 = 60
    /\ forall i, (1 <= i < 59)%nat ->
                 nth i (fst bounds) 0 <= nth i m 0 < nth i (snd bounds) 0.
Proof.
  intros s1 s2 d bounds.
  assert (H : exists dps m,
             h__getMatches s1 s2 (map (fun _ => 0%float) s1)
                           (map (fun _ => 1%float) s1)
                           (mat_map2 fdiv (across fst s1 s2) d)
                           (mat_map2 fdiv (across snd s1 s2) d) d
                           (fst bounds) (snd bounds) = Ok (dps, m))
    by (do 2 eexists; vm_compute; reflexivity).
  destruct H as (dps & m & H).
  assert (L1 : length (fst bounds) = length s1) by (vm_compute; reflexivity).
  assert (L2 : length (snd bounds) = length s1) by (vm_compute; reflexivity).
  assert (P1 : Forall (fun i => 0 <= i) (fst bounds))
    by (apply forallb_nonneg; vm_compute; reflexivity).
  assert (P2 : Forall (fun i => 0 <= i) (snd bounds))
    by (apply forallb_nonneg; vm_compute; reflexivity).
  pose proof (matches_lie_in_their_windows s1 s2 _ _ _ _ d (fst bounds) (snd bounds)
                dps m H L1 L2 P1 P2) as (_ & _ & _ & Z0 & Zl & Hw).
  exists dps, m. split; [exact H|]. split; [exact Z0|]. split; [exact Zl|].
  exact Hw.
Defined.

(** ** The pairs of a walk *)

Lemma walk_path_snoc (s1 e1 : Z) (l : list (Z * Z)) (p q r : Z * Z) :
  walk_path s1 e1 p (l ++ [q]) -> walk_move s1 e1 q r ->
  walk_path s1 e1 p ((l ++ [q]) ++ [r]).
Proof.
  revert p. induction l as [|x l IH]; intros p; simpl.
  - intros (H & _) Hm. auto.
  - intros (H & Hp) Hm. split; [exact H|]. apply IH; assumption.
Qed.

Lemma walk_path_prefix (s1 e1 : Z) (l l' : list (Z * Z)) (p : Z * Z) :
  walk_path s1 e1 p (l ++ l') -> walk_path s1 e1 p l.
Proof.
  revert p. induction l as [|x l IH]; intros p; simpl; [auto|].
  intros (H & Hp). split; [exact H|]. apply IH; assumption.
Qed.

Lemma firstn_upd_snoc {A} (l : list A) (k : nat) (x : A) :
  (k < length l)%nat -> firstn (S k) (upd k x l) = firstn k l ++ [x].
Proof.
  revert k. induction l as [|h t IH]; intros k Hk; simpl in Hk; [lia|].
  destruct k as [|k]; [reflexivity|].
  cbn [upd]. rewrite !firstn_cons. rewrite IH by lia. reflexivity.
Qed.

Section WalkPath.
Context {F : Type} {NF : NumOps F}.

Lemma walk_step_written (s1 e1 s2 e2 : Z) (d : matrix F) (xy1 xy2 : side F)
      (st st' : walk_state) :
  walk_step s1 e1 d xy1 xy2 st = Ok st' ->
  negb (c1 st =? e1) && negb (c2 st =? e2) = true ->
  length (p1_I st) = BUFFER_SIZE -> length (p2_I st) = BUFFER_SIZE ->
  (cur_p_I st = -1 /\ c1 st = s1 /\ c2 st = s2
   \/ exists done, walk_written s1 e1 s2 e2 done st) ->
  length (p1_I st') = BUFFER_SIZE /\ length (p2_I st') = BUFFER_SIZE
  /\ exists done', walk_written s1 e1 s2 e2 done' st'.
Proof.
  intros Hs Hc L1 L2 Hst.
  destruct (walk_step_counter _ _ _ _ _ _ _ Hs) as (Hk & L1' & L2' & Hroom).
  destruct (walk_step_Ok _ _ _ _ _ _ _ Hs) as (x & y & a & b & _ & _ & He & Hab & _).
  cbv zeta in Hab.
  assert (Hmove : walk_move s1 e1 (c1 st, c2 st) (a, b)).
  { unfold walk_move. cbn [fst snd]. tauto. }
  destruct (emit_Ok _ _ _ _ _ He) as (Ea & Eb & _ & (j1 & Hj1 & P1) & (j2 & Hj2 & P2)).
  split; [congruence|]. split; [congruence|].
  apply andb_true_iff in Hc. destruct Hc as (Hc1 & Hc2).
  apply negb_true_iff in Hc1, Hc2. apply Z.eqb_neq in Hc1, Hc2.
  destruct Hst as [(Hcur & E1 & E2) | (done & Hlen & F1 & F2 & Hp & Hok)].
  - exists []. rewrite Hcur in *. change (-1 + 1) with 0 in *.
    apply py_norm_Some in Hj1, Hj2.
    assert (j1 = O) by lia. assert (j2 = O) by lia. subst j1 j2.
    unfold walk_written. cbn [length map app].
    rewrite P1, P2, Ea, Eb.
    rewrite !firstn_upd_snoc by (rewrite ?L1, ?L2; unfold BUFFER_SIZE; lia).
    cbn [firstn app walk_path].
    rewrite E1, E2 in Hmove. repeat split; auto; lia.
  - exists (done ++ [(c1 st, c2 st)]).
    assert (Hroom' : cur_p_I st + 1 < Z.of_nat (length (p1_I st))) by (apply Hroom; lia).
    apply py_norm_Some in Hj1, Hj2.
    assert (j1 = S (length done)) by lia. assert (j2 = S (length done)) by lia.
    subst j1 j2.
    unfold walk_written. rewrite length_app. cbn [length].
    replace (length done + 1)%nat with (S (length done)) by lia.
    rewrite P1, P2, Ea, Eb.
    rewrite !firstn_upd_snoc by lia.
    rewrite F1, F2, !map_app. cbn [map fst snd].
    split; [lia|]. split; [reflexivity|]. split; [reflexivity|]. split.
    + apply walk_path_snoc; assumption.
    + apply Forall_app. split; [exact Hok|].
      constructor; [|constructor]. cbn [fst snd]. auto.
Qed.

Lemma walk_loop_written (s1 e1 s2 e2 : Z) (d : matrix F) (xy1 xy2 : side F)
      (fuel : nat) (st st' : walk_state) (done : list (Z * Z)) :
  walk_loop fuel s1 e1 e2 d xy1 xy2 st = Some (Ok st') ->
  length (p1_I st) = BUFFER_SIZE -> length (p2_I st) = BUFFER_SIZE ->
  walk_written s1 e1 s2 e2 done st ->
  length (p1_I st') = BUFFER_SIZE
  /\ exists done', walk_written s1 e1 s2 e2 done' st'.
Proof.
  revert st done. induction fuel as [|fuel IH]; intros st done H L1 L2 Hw.
  - cbn [walk_loop] in H.
    destruct (negb (c1 st =? e1) && negb (c2 st =? e2)); [discriminate|].
    inversion H; subst. eauto.
  - rewrite walk_loop_unfold in H.
    destruct (negb (c1 st =? e1) && negb (c2 st =? e2)) eqn:Hc.
    + destruct (walk_step s1 e1 d xy1 xy2 st) as [st1|e] eqn:Hs; [|discriminate].
      destruct (walk_step_written s1 e1 s2 e2 _ _ _ _ _ Hs Hc L1 L2)
        as (L1' & L2' & done1 & Hw1); [eauto|].
      eapply IH; eauto.
    + inversion H; subst. eauto.
Qed.

Lemma walk_trim_written (s1 e1 s2 e2 : Z) (done : list (Z * Z)) (st : walk_state) :
  walk_written s1 e1 s2 e2 done st ->
  walk_trim st = (map fst done, map snd done).
Proof.
  intros (Hlen & F1 & F2 & _ & _).
  assert (B : forall (l : list Z) (x : Z) (m : list Z),
             firstn (S (length done)) l = m ++ [x] -> length m = length done ->
             py_upto l (cur_p_I st) = m).
  { intros l x m E Lm. unfold py_upto, py_slice.
    rewrite <- Hlen, !py_clip_nonneg by lia. rewrite Nat2Z.id.
    change (Z.to_nat 0) with O. rewrite Nat.min_0_r, Nat.sub_0_r. cbn [skipn].
    assert (Hl : (S (length done) <= length l)%nat).
    { apply (f_equal (@length Z)) in E. rewrite length_firstn, length_app in E.
      cbn [length] in E. lia. }
    rewrite Nat.min_r by lia.
    replace (length done) with (Nat.min (length done) (S (length done))) at 1 by lia.
    rewrite <- firstn_firstn, E, firstn_app, Lm, Nat.sub_diag. cbn [firstn].
    rewrite app_nil_r. rewrite <- Lm. apply firstn_all. }
  unfold walk_trim. f_equal; eapply B; eauto; now rewrite length_map.
Qed.

(** X4.  A walk that starts away from both of its ends returns fewer than
    200 pairs; they form a path from the start in which each pair moves the
    side-1 index, the side-2 index or both by one step in the direction of
    the walk; and no returned pair holds [e1] on side 1 or [e2] on side 2:
    the pair written in the last turn, with which the walk reaches an end,
    is cut off by [p1_I[:cur_p_I]]. *)
Theorem walk_returns_a_path_short_of_its_ends (s1 e1 s2 e2 : Z) (d : matrix F)
        (xy1 xy2 : side F) (p1 p2 : list Z) :
  h__getPartnersViaWalk s1 e1 s2 e2 d xy1 xy2 = Ok (p1, p2) ->
  s1 <> e1 -> s2 <> e2 ->
  length p1 = length p2 /\ (length p1 < BUFFER_SIZE)%nat
  /\ walk_path s1 e1 (s1, s2) (combine p1 p2)
  /\ Forall (fun q => fst q <> e1 /\ snd q <> e2) (combine p1 p2).
Proof.
  intros H N1 N2. unfold h__getPartnersViaWalk in H.
  destruct (walk_loop (S BUFFER_SIZE) s1 e1 e2 d xy1 xy2 (walk_init s1 s2))
    as [[st|e]|] eqn:Hl; try discriminate.
  assert (Ht : walk_trim st = (p1, p2)) by congruence. clear H.
  rewrite walk_loop_unfold in Hl. cbn [c1 c2 walk_init] in Hl.
  replace (negb (s1 =? e1) && negb (s2 =? e2)) with true in Hl
    by (symmetry; apply andb_true_iff; split; apply negb_true_iff, Z.eqb_neq; assumption).
  destruct (walk_step s1 e1 d xy1 xy2 (walk_init s1 s2)) as [st1|e] eqn:Hs;
    [|discriminate].
  destruct (walk_step_written s1 e1 s2 e2 _ _ _ _ _ Hs) as (L1 & L2 & done1 & Hw1).
  { cbn [c1 c2 walk_init].
    apply andb_true_iff; split; apply negb_true_iff, Z.eqb_neq; assumption. }
  { apply repeat_length. }
  { apply repeat_length. }
  { left. cbn. auto. }
  destruct (walk_loop_written _ _ _ _ _ _ _ _ _ _ done1 Hl L1 L2 Hw1)
    as (Lst & done & Hw).
  rewrite (walk_trim_written _ _ _ _ _ _ Hw) in Ht. inversion Ht; subst p1 p2.
  destruct Hw as (Hlen & F1 & _ & Hp & Hok).
  rewrite !length_map, combine_fst_snd.
  split; [reflexivity|]. split.
  - apply (f_equal (@length Z)) in F1.
    rewrite length_firstn, length_app, length_map, Lst in F1. cbn [length] in F1.
    lia.
  - split; [eapply walk_path_prefix; exact Hp | exact Hok].
Qed.

(** A walk that starts at one of its ends does not enter the loop;
    [cur_p_I] is still -1, and [p1_I[:-1]], [p2_I[:-1]] are the buffers
    without their last entry. *)
(** X5.  A walk that starts at one of its ends does not enter the loop;
    [cur_p_I] is still -1, and [p1_I[:-1]], [p2_I[:-1]] are the zeroed
    buffers without their last entry: 199 pairs (0, 0). *)
Theorem walk_from_an_end_returns_the_buffers (s1 e1 s2 e2 : Z) (d : matrix F)
        (xy1 xy2 : side F) :
  s1 = e1 \/ s2 = e2 ->
  h__getPartnersViaWalk s1 e1 s2 e2 d xy1 xy2
  = Ok (repeat 0 (BUFFER_SIZE - 1), repeat 0 (BUFFER_SIZE - 1)).
Proof.
  intros H. unfold h__getPartnersViaWalk.
  rewrite walk_loop_done.
  - reflexivity.
  - cbn [c1 c2 walk_init]. destruct H as [-> | ->]; rewrite Z.eqb_refl;
      cbn [negb andb]; [reflexivity | apply andb_false_r].
Qed.

End WalkPath.

(** X4 on the head walk of two straight sides of 20 points. *)
Lemma walk_returns_a_path_short_of_its_ends_witness :
  let s1 := straight_side 0 20 in
  let s2 := straight_side 1 20 in
  exists p1 p2,
    h__getPartnersViaWalk 0 3 0 6 (cross_distances s1 s2) s1 s2 = Ok (p1, p2)
    /\ length p1 = length p2
    /\ walk_path 0 3 (0, 0) (combine p1 p2)
    /\ Forall (fun q => fst q <> 3 /\ snd q <> 6) (combine p1 p2).
Proof.
  intros s1 s2.
  assert (H : exists p1 p2,
             h__getPartnersViaWalk 0 3 0 6 (cross_distances s1 s2) s1 s2 = Ok (p1, p2))
    by (do 2 eexists; vm_compute; reflexivity).
  destruct H as (p1 & p2 & H).
  pose proof (walk_returns_a_path_short_of_its_ends 0 3 0 6 (cross_distances s1 s2)
                s1 s2 p1 p2 H ltac:(lia) ltac:(lia)) as (L & _ & P & Q).
  exists p1, p2. repeat split; assumption.
Defined.

(** X5 for a walk whose side-1 start is its end. *)
Lemma walk_from_an_end_returns_the_buffers_witness :
  h__getPartnersViaWalk (F:=float) 12 12 19 7 [] [] []
  = Ok (repeat 0 (BUFFER_SIZE - 1), repeat 0 (BUFFER_SIZE - 1)).
Proof.
  apply (walk_from_an_end_returns_the_buffers (F:=float) 12 12 19 7 [] [] []).
  left. reflexivity.
Defined.

(** ** The retained pairs and the ordering repair *)

Lemma mask_select_length_le {A} (l : list A) (mask : list bool) (r : list A) :
  mask_select l mask = Ok r -> (length r <= length l)%nat.
Proof.
  revert mask r. induction l as [|x l IH]; intros [|b mask] r H; simpl in H;
    try discriminate.
  - inversion H; subst. auto.
  - apply bind_Ok in H. destruct H as (r' & Hr' & H). inversion H; subst.
    apply IH in Hr'. destruct b; simpl; lia.
Qed.

Lemma mask_select_Forall {A} (P : A -> Prop) (l : list A) (mask : list bool)
      (r : list A) :
  mask_select l mask = Ok r -> Forall P l -> Forall P r.
Proof.
  revert mask r. induction l as [|x l IH]; intros [|b mask] r H Hl; simpl in H;
    try discriminate.
  - inversion H; subst. constructor.
  - apply bind_Ok in H. destruct H as (r' & Hr' & H). inversion H; subst.
    inversion Hl; subst. destruct b; [constructor|]; eauto.
Qed.

Lemma mask_select_sorted {A} (R : A -> A -> Prop) (l : list A) (mask : list bool)
      (r : list A) :
  mask_select l mask = Ok r -> StronglySorted R l -> StronglySorted R r.
Proof.
  revert mask r. induction l as [|x l IH]; intros [|b mask] r H Hl; simpl in H;
    try discriminate.
  - inversion H; subst. constructor.
  - apply bind_Ok in H. destruct H as (r' & Hr' & H). inversion H; subst.
    inversion Hl; subst. destruct b; [|eauto].
    constructor; [eauto|]. eapply mask_select_Forall; eauto.
Qed.

Lemma mask_select_all {A} (l : list A) (mask : list bool) :
  mask_select l mask = Ok l -> forallb (fun b => b) mask = true.
Proof.
  revert mask. induction l as [|x l IH]; intros [|b mask] H; simpl in H;
    try discriminate; [reflexivity|].
  apply bind_Ok in H. destruct H as (r' & Hr' & H).
  destruct b.
  - inversion H; subst. simpl. apply IH. exact Hr'.
  - inversion H; subst. apply mask_select_length_le in Hr'. simpl in Hr'. lia.
Qed.

Lemma mask_select_all_true {A} (l : list A) (mask : list bool) :
  length mask = length l -> forallb (fun b => b) mask = true ->
  mask_select l mask = Ok l.
Proof.
  revert mask. induction l as [|x l IH]; intros [|b mask] L H; simpl in L;
    try discriminate; [reflexivity|].
  simpl in H. apply andb_true_iff in H. destruct H as (-> & H).
  simpl. rewrite IH by (auto; lia). reflexivity.
Qed.

(** The mask of the ordering repair is all [True] exactly on sequences that
    never go down (three entries at least: the check needs a neighbour on
    both sides). *)
Lemma good_tail_all (prev : Z) (l : list Z) :
  (2 <= length l)%nat ->
  forallb (fun b => b) (good_tail prev l) = nondecreasingb (prev :: l).
Proof.
  revert prev. induction l as [|x [|y t] IH]; intros prev Hl; simpl in Hl; try lia.
  destruct t as [|z t].
  - cbn [good_tail forallb nondecreasingb].
    rewrite !andb_true_r, Z.geb_leb. apply andb_comm.
  - change (good_tail prev (x :: y :: z :: t))
      with (((x <=? y) && (x >=? prev)) :: good_tail x (y :: z :: t)).
    cbn [forallb]. rewrite IH by (simpl; lia).
    change (nondecreasingb (prev :: x :: y :: z :: t))
      with ((prev <=? x) && nondecreasingb (x :: y :: z :: t)).
    change (nondecreasingb (x :: y :: z :: t))
      with ((x <=? y) && nondecreasingb (y :: z :: t)).
    rewrite Z.geb_leb.
    destruct (x <=? y), (prev <=? x); reflexivity.
Qed.

(** X7.  On three candidate pairs or more, the ordering repair keeps every
    pair exactly when the side-2 indices never go down. *)
Theorem ordering_repair_keeps_all_iff_ordered (I_1 I_2 : list Z) :
  length I_1 = length I_2 -> (3 <= length I_2)%nat ->
  ordering_repair I_1 I_2 = Ok (I_1, I_2) <-> nondecreasingb I_2 = true.
Proof.
  intros Hlen Hn. destruct I_2 as [|a l]; [simpl in Hn; lia|].
  unfold ordering_repair. rewrite is_good_mask_cons.
  assert (Hg : forallb (fun b => b) (true :: good_tail a l) = nondecreasingb (a :: l)).
  { cbn [forallb]. apply good_tail_all. simpl in Hn. lia. }
  assert (Lg : length (true :: good_tail a l) = length (a :: l)).
  { destruct (mask_select_total (a :: l) (is_good_mask (a :: l))) as (r & Hr).
    - unfold is_good_mask. rewrite !length_app, !map2_length_min, py_slice_length.
      unfold py_from, py_upto. rewrite length_skipn, py_slice_length.
      rewrite !(py_clip_neg _ (-1)), !(py_clip_neg _ (-2)) by lia.
      rewrite !py_clip_nonneg by lia. cbn [length] in *. lia.
    - rewrite is_good_mask_cons in Hr. apply mask_select_Ok_length in Hr.
      symmetry. exact Hr. }
  split.
  - intros H. apply bind_Ok in H. destruct H as (R_1 & _ & H).
    apply bind_Ok in H. destruct H as (R_2 & H2 & H).
    inversion H; subst R_1 R_2. rewrite <- Hg. eapply mask_select_all. exact H2.
  - intros H. rewrite <- Hg in H.
    rewrite (mask_select_all_true I_1), (mask_select_all_true (a :: l)); auto.
    congruence.
Qed.

Section Retained.
Context {F : Type} {NF : NumOps F}.
Variable compute_normal_vectors : side F -> result (list F * list F).

(** The pairs after the end walks are selected by one mask over the points of
    side 1. *)
Lemma h__updateEndsByWalking_mask (d_across : matrix F) (match_I1 : list Z)
      (s1 s2 : side F) (pct : F) (I_1 I_2 : list Z) :
  h__updateEndsByWalking d_across match_I1 s1 s2 pct = Ok (I_1, I_2) ->
  exists keep_mask m,
    length keep_mask = length match_I1
    /\ I_1 = find keep_mask /\ mask_select m keep_mask = Ok I_2.
Proof.
  intros H. unfold h__updateEndsByWalking in H.
  inv_bind H. destruct x as (p1 & p2).
  inv_bind H. inv_bind H. inv_bind H. destruct x1 as (q1 & q2).
  inv_bind H. inv_bind H. inv_bind H. inv_bind H. inv_bind H. inv_bind H.
  inv_bind H. inversion H; subst; clear H.
  apply py_set_many_length in Hx0, Hx3.
  apply py_set_all_length in Hx1, Hx4. rewrite repeat_length in Hx1.
  apply py_set_length in Hx5, Hx6.
  rewrite py_slice_fill_length in Hx5.
  eexists _, _. split; [|split; [reflexivity | eassumption]]. congruence.
Qed.

(** X6.  The side-1 indices of the retained pairs of a frame are strictly
    increasing indices of side 1, and there are as many of them as side-2
    indices; so a skeleton never has more points than side 1. *)
Theorem retained_side1_indices_increase (s1 s2 : side F) (I_1 I_2 : list Z) :
  retained_pairs compute_normal_vectors s1 s2 = Ok (I_1, I_2) ->
  StronglySorted Z.lt I_1
  /\ Forall (fun i => 0 <= i < Z.of_nat (length s1)) I_1
  /\ length I_2 = length I_1
  /\ (length I_1 <= length s1)%nat.
Proof.
  unfold retained_pairs. intros H.
  destruct (h__getBounds (length s1) (length s2) PERCENT_BACK_SEARCH
                         PERCENT_FORWARD_SEARCH) as (left_I & right_I).
  apply bind_Ok in H. destruct H as ((norm_x & norm_y) & _ & H).
  apply bind_Ok in H. destruct H as ((dps & m) & Hm & H).
  apply h__getMatches_length in Hm. destruct Hm as (Hlen & Hn).
  unfold pairs_after_matching in H.
  apply bind_Ok in H. destruct H as ((C_1 & C_2) & Hends & Hrep).
  apply h__updateEndsByWalking_mask in Hends.
  destruct Hends as (mask & m' & Lmask & -> & Hsel).
  unfold ordering_repair in Hrep.
  apply bind_Ok in Hrep. destruct Hrep as (R_1 & H1 & Hrep).
  apply bind_Ok in Hrep. destruct Hrep as (R_2 & H2 & Hrep).
  inversion Hrep; subst R_1 R_2; clear Hrep.
  assert (Hr : Forall (fun i => 0 <= i < Z.of_nat (length s1)) (find mask)).
  { eapply Forall_impl; [|apply find_from_range]. cbn beta. intros i Hi. lia. }
  split; [eapply mask_select_sorted; [exact H1 | apply find_from_sorted]|].
  split; [eapply mask_select_Forall; eauto|].
  split.
  - rewrite (mask_select_find_length _ _ _ 0 H1), (mask_select_find_length _ _ _ 0 H2).
    reflexivity.
  - pose proof (mask_select_length_le _ _ _ H1) as L1.
    pose proof (mask_select_find_length _ _ _ 0 Hsel) as L2.
    pose proof (mask_select_length_le _ _ _ Hsel) as L3.
    pose proof (mask_select_Ok_length _ _ _ Hsel) as L4.
    unfold find in L1. lia.
Qed.

End Retained.

(** X7 on four candidates in order. *)
Lemma ordering_repair_keeps_all_iff_ordered_witness :
  ordering_repair [0; 1; 2; 3] [0; 2; 2; 5] = Ok ([0; 1; 2; 3], [0; 2; 2; 5]).
Proof.
  apply (proj2 (ordering_repair_keeps_all_iff_ordered [0; 1; 2; 3] [0; 2; 2; 5]
                  eq_refl ltac:(simpl; lia))).
  reflexivity.
Defined.

(** X6 on two straight sides of 60 points. *)
Lemma retained_side1_indices_increase_witness :
  exists I_1 I_2,
    retained_pairs normals_of_straight (straight_side 0 60) (straight_side 1 60)
    = Ok (I_1, I_2)
    /\ StronglySorted Z.lt I_1
    /\ (length I_1 <= 60)%nat.
Proof.
  assert (H : exists I_1 I_2,
             retained_pairs normals_of_straight (straight_side 0 60)
                            (straight_side 1 60) = Ok (I_1, I_2))
    by (do 2 eexists; vm_compute; reflexivity).
  destruct H as (I_1 & I_2 & H).
  pose proof (retained_side1_indices_increase normals_of_straight
                (straight_side 0 60) (straight_side 1 60) I_1 I_2 H)
    as (S & _ & _ & L).
  exists I_1, I_2. rewrite straight_side_length in L. repeat split; assumption.
Defined.

(** ** The frame loop: list lengths and exceptions *)

Lemma nth_error_map_const {A B} (c : B) (l : list A) (i : nat) :
  (i < length l)%nat -> nth_error (map (fun _ => c) l) i = Some c.
Proof.
  revert i. induction l as [|x l IH]; intros [|i] H; simpl in *; try lia; auto.
  apply IH. lia.
Qed.

Section BatchEdges.
Context {F : Type} {NF : NumOps F}.
Variable sgolay : list F -> Z -> Z -> result (list F).
Variable round_to_odd : F -> Z.
Variable compute_normal_vectors : side F -> result (list F * list F).

Local Notation "'frame_turn''" :=
  (frame_turn sgolay round_to_odd compute_normal_vectors).
Local Notation "'compute''" :=
  (compute_skeleton_and_widths sgolay round_to_odd compute_normal_vectors).

(** X8.  A returning call gives two output lists with one entry per frame
    of [h_ventral_contour], whatever the length of [h_dorsal_contour]; the
    frames beyond the end of [h_dorsal_contour] are never visited ([zip]
    stops): their outputs are [None] and their arrays are untouched. *)
Theorem frame_loop_fills_every_slot (hv hd hv' hd' : list (option (side F)))
        (h_widths : list (option (list F))) (h_skeleton : list (option (side F))) :
  compute' hv hd = ((hv', hd'), Ok (h_widths, h_skeleton)) ->
  length h_widths = length hv /\ length h_skeleton = length hv
  /\ length hv' = length hv /\ length hd' = length hd
  /\ forall i, (length hd <= i < length hv)%nat ->
               nth_error hv' i = nth_error hv i
               /\ nth_error h_widths i = Some None
               /\ nth_error h_skeleton i = Some None.
Proof.
  revert hd hv' hd' h_widths h_skeleton.
  induction hv as [|v hv IH]; intros hd hv' hd' ws sks H.
  - simpl in H. inversion H; subst. repeat split; auto; simpl in *; lia.
  - destruct hd as [|d hd].
    + assert (E : compute' (v :: hv) []
                  = ((v :: hv, []), Ok (map (fun _ => None) (v :: hv),
                                        map (fun _ => None) (v :: hv))))
        by reflexivity.
      rewrite E in H. clear E.
      assert (E1 : hv' = v :: hv) by congruence.
      assert (E2 : hd' = []) by congruence.
      assert (E3 : ws = map (fun _ => None) (v :: hv)) by congruence.
      assert (E4 : sks = map (fun _ => None) (v :: hv)) by congruence.
      subst hv' hd' ws sks. clear H.
      rewrite !length_map. repeat split; auto;
        apply nth_error_map_const; lia.
    + cbn [compute_skeleton_and_widths] in H.
      destruct (frame_turn' v d) as ((s1' & s2') & [o|e]) eqn:Hturn; [|inversion H].
      destruct (compute' hv hd) as ((hv1 & hd1) & [(ws1 & sks1)|e]) eqn:Hrest;
        inversion H; subst; clear H.
      destruct (IH hd hv1 hd1 ws1 sks1 Hrest) as (L1 & L2 & L3 & L4 & Hall).
      cbn [length]. repeat split; try lia;
        destruct i as [|i]; simpl in H |- *; try lia; apply Hall; lia.
Qed.

(** X9.  When the call raises, it does so in the turn of one frame k: the
    turns of the frames before k end without an exception, the arrays of
    frame k are as its interrupted turn left them, and the frames after k are
    exactly as they were passed in.  No output is returned for any frame. *)
Theorem frame_loop_stops_at_first_error (hv hd hv' hd' : list (option (side F)))
        (e : exn) :
  compute' hv hd = ((hv', hd'), Raise e) ->
  exists k s1 s2 s1' s2',
    nth_error hv k = Some s1 /\ nth_error hd k = Some s2
    /\ frame_turn' s1 s2 = ((s1', s2'), Raise e)
    /\ nth_error hv' k = Some s1' /\ nth_error hd' k = Some s2'
    /\ skipn (S k) hv' = skipn (S k) hv /\ skipn (S k) hd' = skipn (S k) hd
    /\ forall i a b, (i < k)%nat ->
                     nth_error hv i = Some a -> nth_error hd i = Some b ->
                     exists o, snd (frame_turn' a b) = Ok o.
Proof.
  revert hd hv' hd'. induction hv as [|v hv IH]; intros [|d hd] hv' hd' H;
    try (simpl in H; discriminate).
  cbn [compute_skeleton_and_widths] in H.
  destruct (frame_turn' v d) as ((s1' & s2') & [o|e0]) eqn:Hturn.
  - destruct (compute' hv hd) as ((hv1 & hd1) & [(ws1 & sks1)|e1]) eqn:Hrest;
      [discriminate|].
    assert (E1 : hv' = s1' :: hv1) by congruence.
    assert (E2 : hd' = s2' :: hd1) by congruence.
    assert (E3 : e1 = e) by congruence.
    subst hv' hd' e1. clear H.
    destruct (IH hd hv1 hd1 Hrest)
      as (k & a & b & a' & b' & Hv & Hd & Ht & Hv' & Hd' & Sv & Sd & Hbefore).
    exists (S k), a, b, a', b'. repeat split; auto.
    intros [|i] x y Hi Hx Hy; simpl in Hx, Hy.
    + inversion Hx; inversion Hy; subst. rewrite Hturn. simpl. eauto.
    + eapply Hbefore; eauto. lia.
  - assert (E1 : hv' = s1' :: hv) by congruence.
    assert (E2 : hd' = s2' :: hd) by congruence.
    assert (E3 : e0 = e) by congruence.
    subst hv' hd' e0. clear H.
    exists O, v, d, s1', s2'. repeat split; auto.
    intros i a b Hi. lia.
Qed.

End BatchEdges.

(** X8 on three ventral frames and one dorsal frame. *)
Lemma frame_loop_fills_every_slot_witness :
  exists hv' hd' h_widths h_skeleton,
    compute_skeleton_and_widths sgolay_on_straight round_to_odd_60 normals_of_straight
      [None; Some (straight_side 0 60); None] [None]
    = ((hv', hd'), Ok (h_widths, h_skeleton))
    /\ length h_widths = 3%nat
    /\ nth_error hv' 1 = Some (Some (straight_side 0 60))
    /\ nth_error h_widths 1 = Some None.
Proof.
  assert (H : exists hv' hd' h_widths h_skeleton,
             compute_skeleton_and_widths sgolay_on_straight round_to_odd_60
               normals_of_straight
               [None; Some (straight_side 0 60); None] [None]
             = ((hv', hd'), Ok (h_widths, h_skeleton)))
    by (do 4 eexists; reflexivity).
  destruct H as (hv' & hd' & ws & sks & H).
  pose proof (frame_loop_fills_every_slot sgolay_on_straight round_to_odd_60
                normals_of_straight
                [None; Some (straight_side 0 60); None] [None] hv' hd' ws sks H)
    as (L & _ & _ & _ & Hall).
  destruct (Hall 1%nat ltac:(simpl; lia)) as (Hv & Hw & _).
  exists hv', hd', ws, sks. repeat split; assumption.
Defined.

(** X9 on a batch whose second frame has no side 2. *)
Lemma frame_loop_stops_at_first_error_witness :
  exists hv' hd' k s1 s2 s1' s2',
    compute_skeleton_and_widths sgolay_on_straight round_to_odd_60 normals_of_straight
      [None; Some (straight_side 0 60); Some (straight_side 0 60)]
      [None; None; Some (straight_side 1 60)]
    = ((hv', hd'), Raise AttributeError)
    /\ nth_error [None; Some (straight_side 0 60); Some (straight_side 0 60)] k
       = Some s1
    /\ nth_error [None; None; Some (straight_side 1 60)] k = Some s2
    /\ frame_turn sgolay_on_straight round_to_odd_60 normals_of_straight s1 s2
       = ((s1', s2'), Raise AttributeError)
    /\ skipn (S k) hv'
       = skipn (S k) [None; Some (straight_side 0 60); Some (straight_side 0 60)].
Proof.
  assert (H : exists hv' hd',
             compute_skeleton_and_widths sgolay_on_straight round_to_odd_60
               normals_of_straight
               [None; Some (straight_side 0 60); Some (straight_side 0 60)]
               [None; None; Some (straight_side 1 60)]
             = ((hv', hd'), Raise AttributeError))
    by (do 2 eexists; vm_compute; reflexivity).
  destruct H as (hv' & hd' & H).
  pose proof (frame_loop_stops_at_first_error sgolay_on_straight round_to_odd_60
                normals_of_straight
                [None; Some (straight_side 0 60); Some (straight_side 0 60)]
                [None; None; Some (straight_side 1 60)] hv' hd' AttributeError H)
    as (k & s1 & s2 & s1' & s2' & Hv & Hd & Ht & _ & _ & Sv & _ & _).
  exists hv', hd', k, s1, s2, s1', s2'. repeat split; assumption.
Defined.

(** ** compute_skeleton_length *)

Lemma last_cumsum_from {F} {NF : NumOps F} (l : list F) (acc d : F) :
  last (acc :: cumsum_from acc l) d = fold_left fadd l acc.
Proof.
  revert acc. induction l as [|x t IH]; intros acc; [reflexivity|].
  cbn [cumsum_from fold_left]. rewrite <- IH. reflexivity.
Qed.

(** X10.  Over the reals: [compute_skeleton_length] gives, frame by frame,
    the last entry of [chain_code_lengths_cum_sum] of the frame (and 0 for a
    frame without points).  (In binary64 the two can differ in the last
    bits: [np.sum] does not add in the order of [np.cumsum].) *)
Theorem skeleton_length_is_last_cumulative_length (skeleton : list (side R)) :
  compute_skeleton_length skeleton
  = map (fun frame => last (chain_code_lengths_cum_sum frame) 0%R) skeleton.
Proof.
  unfold compute_skeleton_length. apply map_ext. intros frame.
  destruct frame as [|p rest]; [reflexivity|].
  unfold chain_code_lengths_cum_sum.
  change (np_cumsum ([of_Z 0] ++ chain_code_lengths (p :: rest)))
    with (of_Z 0 :: cumsum_from (of_Z 0) (chain_code_lengths (p :: rest))).
  rewrite last_cumsum_from. reflexivity.
Qed.

(** Triangle inequality for [segment_length]. *)
Lemma segment_length_triangle (p q r : R * R) :
  (segment_length p r <= segment_length p q + segment_length q r)%R.
Proof.
  unfold segment_length. destruct p as (px & py), q as (qx & qy), r as (rx & ry).
  cbn [fst snd fsqrt fadd fmul fsub R_ops].
  set (a := (qx - px)%R). set (b := (qy - py)%R).
  set (c := (rx - qx)%R). set (d := (ry - qy)%R).
  replace (rx - px)%R with (a + c)%R by (unfold a, c; lra).
  replace (ry - py)%R with (b + d)%R by (unfold b, d; lra).
  set (A := (a * a + b * b)%R). set (B := (c * c + d * d)%R).
  assert (HA : (0 <= A)%R) by (unfold A; nra).
  assert (HB : (0 <= B)%R) by (unfold B; nra).
  pose proof (sqrt_pos A) as HsA. pose proof (sqrt_pos B) as HsB.
  assert (HC : (0 <= (a + c) * (a + c) + (b + d) * (b + d))%R)
    by (apply Rplus_le_le_0_compat; apply Rle_0_sqr).
  apply Rsqr_incr_0_var; [|lra].
  rewrite Rsqr_sqrt by exact HC.
  unfold Rsqr.
  replace ((sqrt A + sqrt B) * (sqrt A + sqrt B))%R
    with (sqrt A * sqrt A + sqrt B * sqrt B + 2 * (sqrt A * sqrt B))%R by ring.
  rewrite !sqrt_sqrt by assumption.
  rewrite <- sqrt_mult by assumption.
  assert (CS : (a * c + b * d <= sqrt (A * B))%R).
  { apply Rle_trans with (Rabs (a * c + b * d)); [apply Rle_abs|].
    rewrite <- sqrt_Rsqr_abs. apply sqrt_le_1_alt. unfold Rsqr, A, B.
    pose proof (Rle_0_sqr (a * d - b * c)) as Hsq. unfold Rsqr in Hsq.
    replace ((a * a + b * b) * (c * c + d * d))%R
      with ((a * c + b * d) * (a * c + b * d)
            + (a * d - b * c) * (a * d - b * c))%R by ring.
    lra. }
  replace ((a + c) * (a + c) + (b + d) * (b + d))%R
    with (A + B + 2 * (a * c + b * d))%R by (unfold A, B; ring).
  lra.
Qed.

Lemma fold_left_Rplus (l : list R) (acc : R) :
  fold_left Rplus l acc = (acc + fold_left Rplus l 0)%R.
Proof.
  revert acc. induction l as [|x t IH]; intros acc; simpl; [lra|].
  rewrite IH, (IH (0 + x)%R). lra.
Qed.

Lemma np_sum_cons (x : R) (l : list R) : np_sum (x :: l) = (x + np_sum l)%R.
Proof.
  unfold np_sum. cbn [fold_left fadd of_Z R_ops]. rewrite fold_left_Rplus. lra.
Qed.

Lemma np_sum_nonneg (l : list R) :
  Forall (fun x => (0 <= x)%R) l -> (0 <= np_sum l)%R.
Proof.
  induction 1 as [|x t Hx _ IH]; [unfold np_sum; simpl; lra|].
  rewrite np_sum_cons. lra.
Qed.

(** X11.  Over the reals: the chain-code length of a point sequence is at
    least the straight-line distance between its first and its last point. *)
Theorem skeleton_length_at_least_chord (p : R * R) (rest : side R) :
  (segment_length p (last rest p) <= np_sum (chain_code_lengths (p :: rest)))%R.
Proof.
  revert p. induction rest as [|q rest IH]; intros p.
  - cbn [last chain_code_lengths]. unfold segment_length, np_sum.
    cbn [fold_left of_Z fsqrt fadd fmul fsub R_ops].
    replace ((fst p - fst p) * (fst p - fst p) + (snd p - snd p) * (snd p - snd p))%R
      with 0%R by ring.
    rewrite sqrt_0. lra.
  - rewrite chain_code_lengths_cons, np_sum_cons.
    specialize (IH q).
    replace (last (q :: rest) p) with (last rest q)
      by (clear; revert q; induction rest as [|r rest IH]; intros q;
          [reflexivity | cbn [last]; destruct rest; [reflexivity | apply IH]]).
    pose proof (segment_length_triangle p q (last rest q)). lra.
Qed.

(** ** normalize_parameter: sizes, exceptions, values *)

Section NormalizeParameter.
Context {F : Type} {NF : NumOps F}.

Lemma np_interp_Ok (x xp fp : list F) :
  xp <> [] -> length fp = length xp ->
  np_interp x xp fp = Ok (map (interp_one xp fp) x).
Proof.
  intros Hne Hlen. unfold np_interp. rewrite Hlen, Nat.eqb_refl. cbn [negb].
  destruct xp; [congruence | reflexivity].
Qed.

Lemma np_interp_mismatch (x xp fp : list F) :
  length fp <> length xp -> np_interp x xp fp = Raise ValueError.
Proof.
  intros Hlen. unfold np_interp.
  replace (length xp =? length fp)%nat with false; [reflexivity|].
  symmetry. apply Nat.eqb_neq. congruence.
Qed.

Lemma py_get_ends_nonempty {A} (l : list A) :
  l <> [] -> exists a b, py_get l 0 = Ok a /\ py_get l (-1) = Ok b.
Proof.
  intros Hne. destruct l as [|a t]; [congruence|].
  exists a, (nth (length (a :: t) - 1) (a :: t) a). split; [reflexivity|].
  apply py_get_minus_one. discriminate.
Qed.

(** X12.  [normalize_parameter] returns exactly N = 49 values (49 points for
    a curve) whenever the property has one value per old length; it raises
    IndexError on an empty array of old lengths ([old_lengths[0]]) and
    ValueError ([np.interp]) when the numbers of values and lengths differ. *)
Theorem normalize_parameter_returns_N_values (old_lengths : list F) :
  (forall p, old_lengths = [] -> normalize_parameter p old_lengths = Raise IndexError)
  /\ (forall v, old_lengths <> [] -> length v <> length old_lengths ->
                normalize_parameter (Some (Arr1 v)) old_lengths = Raise ValueError)
  /\ (forall xy, old_lengths <> [] -> length xy <> length old_lengths ->
                 normalize_parameter (Some (Arr2 xy)) old_lengths = Raise ValueError)
  /\ (forall v, old_lengths <> [] -> length v = length old_lengths ->
                exists r, normalize_parameter (Some (Arr1 v)) old_lengths = Ok (Arr1 r)
                          /\ length r = N_POINTS_NORMALIZED)
  /\ (forall xy, old_lengths <> [] -> length xy = length old_lengths ->
                 exists r, normalize_parameter (Some (Arr2 xy)) old_lengths = Ok (Arr2 r)
                           /\ length r = N_POINTS_NORMALIZED).
Proof.
  split; [intros p ->; reflexivity|].
  split; [|split; [|split]].
  - intros v Hne Hlen. unfold normalize_parameter.
    destruct (py_get_ends_nonempty old_lengths Hne) as (a & b & -> & ->).
    cbn [bind]. rewrite np_interp_mismatch by exact Hlen. reflexivity.
  - intros xy Hne Hlen. unfold normalize_parameter.
    destruct (py_get_ends_nonempty old_lengths Hne) as (a & b & -> & ->).
    cbn [bind]. rewrite np_interp_mismatch by (rewrite length_map; exact Hlen).
    reflexivity.
  - intros v Hne Hlen. unfold normalize_parameter.
    destruct (py_get_ends_nonempty old_lengths Hne) as (a & b & -> & ->).
    cbn [bind]. rewrite np_interp_Ok by assumption. cbn [bind].
    eexists. split; [reflexivity|]. rewrite length_map. apply linspace_length.
  - intros xy Hne Hlen. unfold normalize_parameter.
    destruct (py_get_ends_nonempty old_lengths Hne) as (a & b & -> & ->).
    cbn [bind]. rewrite !np_interp_Ok by (rewrite ?length_map; assumption).
    cbn [bind]. eexists. split; [reflexivity|].
    rewrite length_combine, !length_map, linspace_length. apply Nat.min_id.
Qed.

End NormalizeParameter.

(** *** Interpolated values lie between the values they come from *)

Lemma interp_scan_between (lo hi x : R) (rest : list (R * R)) (cur : R * R) :
  (fst cur <= x)%R ->
  Forall (fun p => (lo <= snd p <= hi)%R) (cur :: rest) ->
  (lo <= interp_scan x cur rest <= hi)%R.
Proof.
  revert cur. induction rest as [|nxt rest IH]; intros cur Hx Hall.
  - inversion Hall; subst. assumption.
  - inversion Hall as [|? ? Hc Hrest]; subst.
    cbn [interp_scan]. cbn [fleb R_ops].
    destruct (Rle_dec (fst nxt) x) as [Hle|Hgt].
    + apply IH; assumption.
    + inversion Hrest as [|? ? Hn _]; subst.
      cbn [fadd fmul fdiv fsub R_ops].
      assert (HD : (0 < fst nxt - fst cur)%R) by lra.
      set (D := (fst nxt - fst cur)%R) in *.
      set (t := ((x - fst cur) / D)%R).
      assert (Ht0 : (0 <= t)%R).
      { unfold t. apply Rmult_le_pos; [lra|]. apply Rlt_le, Rinv_0_lt_compat, HD. }
      assert (Ht1 : (t <= 1)%R).
      { unfold t. apply Rmult_le_reg_r with D; [exact HD|].
        unfold Rdiv. rewrite Rmult_assoc, Rinv_l by lra. unfold D. lra. }
      replace ((snd nxt - snd cur) / D * (x - fst cur) + snd cur)%R
        with ((1 - t) * snd cur + t * snd nxt)%R
        by (unfold t; field; lra).
      split; nra.
Qed.

Lemma interp_one_between (lo hi x : R) (xp fp : list R) :
  length fp = length xp -> xp <> [] ->
  Forall (fun v => (lo <= v <= hi)%R) fp ->
  (lo <= interp_one xp fp x <= hi)%R.
Proof.
  intros Hlen Hne Hall. unfold interp_one.
  assert (Hc : Forall (fun p => (lo <= snd p <= hi)%R) (combine xp fp)).
  { apply Forall_forall. intros (a & b) Hin. apply in_combine_r in Hin.
    rewrite Forall_forall in Hall. apply Hall. exact Hin. }
  destruct (combine xp fp) as [|p0 rest] eqn:E.
  - destruct xp; [congruence|]. destruct fp; discriminate.
  - cbn [fltb R_ops]. destruct (Rlt_dec x (fst p0)) as [Hlt|Hge].
    + inversion Hc; subst. assumption.
    + apply interp_scan_between; [lra | exact Hc].
Qed.

(** X13.  Over the reals, on increasing old lengths: every value
    [normalize_parameter] returns lies between the bounds of the values it
    was given (linear interpolation never overshoots). *)
Theorem normalized_values_stay_in_range (v old_lengths : list R) (lo hi : R) :
  old_lengths <> [] -> length v = length old_lengths ->
  Sorted Rle old_lengths ->
  Forall (fun x => (lo <= x <= hi)%R) v ->
  exists r,
    normalize_parameter (Some (Arr1 v)) old_lengths = Ok (Arr1 r)
    /\ length r = N_POINTS_NORMALIZED
    /\ Forall (fun x => (lo <= x <= hi)%R) r.
Proof.
  intros Hne Hlen _ Hv. unfold normalize_parameter.
  destruct (py_get_ends_nonempty old_lengths Hne) as (a & b & -> & ->).
  cbn [bind]. rewrite np_interp_Ok by assumption. cbn [bind].
  eexists. split; [reflexivity|]. split.
  - rewrite length_map. apply linspace_length.
  - apply Forall_map, Forall_forall. intros x _.
    apply interp_one_between; assumption.
Qed.

(** *** A curve resampled against its own arc length keeps its end points *)

Lemma linspace_first (a b : R) (n : nat) : nth 0 (linspace a b (S n)) 0%R = a.
Proof.
  destruct n as [|m]; [reflexivity|].
  rewrite linspace_nth by lia. simpl IZR. lra.
Qed.

(** X14.  Over the reals: a curve resampled against its own cumulative
    chain-code lengths starts at its first point and ends at its last
    point. *)
Theorem normalized_curve_keeps_its_end_points (xy : side R) :
  xy <> [] ->
  exists out,
    normalize_parameter (Some (Arr2 xy)) (chain_code_lengths_cum_sum xy)
    = Ok (Arr2 out)
    /\ length out = N_POINTS_NORMALIZED
    /\ nth_error out 0 = nth_error xy 0
    /\ nth_error out (N_POINTS_NORMALIZED - 1) = nth_error xy (length xy - 1).
Proof.
  intros Hne.
  set (cc := chain_code_lengths_cum_sum xy).
  assert (Lcc : length cc = length xy) by apply chain_code_lengths_cum_sum_length.
  assert (Hcne : cc <> []).
  { intros E. rewrite E in Lcc. destruct xy; [congruence | discriminate]. }
  assert (H0 : py_get cc 0 = Ok (nth 0 cc 0%R)).
  { destruct cc as [|c0 cc']; [congruence | reflexivity]. }
  unfold normalize_parameter. fold cc.
  rewrite H0, (py_get_minus_one cc 0%R Hcne). cbn [bind].
  rewrite !np_interp_Ok by (rewrite ?length_map; congruence). cbn [bind].
  set (new := linspace (nth 0 cc 0%R) (nth (length cc - 1) cc 0%R) N_POINTS_NORMALIZED).
  eexists. split; [reflexivity|].
  assert (Lnew : length new = N_POINTS_NORMALIZED) by apply linspace_length.
  assert (Hknot : forall (coord : R * R -> R) (i : nat),
             (i < length xy)%nat ->
             interp_one cc (map coord xy) (nth i cc 0%R) = coord (nth i xy (0, 0)%R)).
  { intros coord i Hi. apply interp_one_at_knot.
    - destruct xy as [|p pts]; [congruence|].
      change cc with (0%R :: cumsum_from 0%R (chain_code_lengths (p :: pts))).
      cbn [map combine]. apply own_knots_sorted.
    - replace (nth i cc 0%R, coord (nth i xy (0, 0)%R))
        with (nth i (combine cc (map coord xy)) (0%R, coord (0, 0)%R)).
      + apply nth_In. rewrite length_combine, length_map. lia.
      + rewrite combine_nth by (rewrite length_map; exact Lcc).
        f_equal. apply map_nth. }
  assert (Hpt : forall i j, (i < length new)%nat -> (j < length xy)%nat ->
                  nth i new 0%R = nth j cc 0%R ->
                  nth_error (combine (map (interp_one cc (map fst xy)) new)
                                     (map (interp_one cc (map snd xy)) new)) i
                  = nth_error xy j).
  { intros i j Hi Hj E.
    rewrite (nth_error_nth' xy (0, 0)%R Hj).
    rewrite (nth_error_nth' _ (0, 0)%R)
      by (rewrite length_combine, !length_map; lia).
    f_equal. rewrite combine_nth by (now rewrite !length_map).
    rewrite (nth_indep _ 0%R (interp_one cc (map fst xy) 0%R))
      by (rewrite length_map; exact Hi).
    rewrite (nth_indep (map (interp_one cc (map snd xy)) new) 0%R
                       (interp_one cc (map snd xy) 0%R))
      by (rewrite length_map; exact Hi).
    rewrite !map_nth, E, !Hknot by exact Hj.
    symmetry. apply surjective_pairing. }
  split; [rewrite length_combine, !length_map, Lnew; apply Nat.min_id|].
  split.
  - apply Hpt; [rewrite Lnew; unfold N_POINTS_NORMALIZED; lia
               | destruct xy; [congruence | simpl; lia] |].
    apply linspace_first.
  - apply Hpt; [rewrite Lnew; unfold N_POINTS_NORMALIZED; lia
               | destruct xy; [congruence | simpl; lia] |].
    unfold new, N_POINTS_NORMALIZED. change (49 - 1)%nat with 48%nat.
    rewrite (linspace_last _ _ 47). rewrite Lcc. reflexivity.
Qed.

(** X13 on three values between 1 and 2. *)
Lemma normalized_values_stay_in_range_witness :
  exists r,
    normalize_parameter (Some (Arr1 [1; 2; 1]%R)) [0; 1; 3]%R = Ok (Arr1 r)
    /\ length r = N_POINTS_NORMALIZED
    /\ Forall (fun x => (1 <= x <= 2)%R) r.
Proof.
  apply (normalized_values_stay_in_range [1; 2; 1]%R [0; 1; 3]%R 1%R 2%R).
  - discriminate.
  - reflexivity.
  - repeat constructor; lra.
  - repeat constructor; lra.
Defined.

(** X14 on the curve (0,0), (3,4), (3,5). *)
Lemma normalized_curve_keeps_its_end_points_witness :
  exists out,
    normalize_parameter (Some (Arr2 [(0, 0); (3, 4); (3, 5)]%R))
                        (chain_code_lengths_cum_sum [(0, 0); (3, 4); (3, 5)]%R)
    = Ok (Arr2 out)
    /\ length out = N_POINTS_NORMALIZED
    /\ nth_error out 0 = Some (0, 0)%R
    /\ nth_error out (N_POINTS_NORMALIZED - 1) = Some (3, 5)%R.
Proof.
  apply (normalized_curve_keeps_its_end_points [(0, 0); (3, 4); (3, 5)]%R).
  discriminate.
Defined.

(** ** normalize_all_frames: exceptions *)

Section NormalizeErrors.
Context {F : Type} {NF : NumOps F}.
Variable NaN : F.

Lemma normalize_parameter_mismatch (o : option (list F)) (xy : side F) :
  xy = [] \/ (forall v, o = Some v -> length v <> length xy) ->
  exists e,
    normalize_parameter (option_map Arr1 o) (chain_code_lengths_cum_sum xy) = Raise e.
Proof.
  intros H. destruct xy as [|p pts]; [eexists; reflexivity|].
  destruct H as [H|H]; [discriminate|].
  set (cc := chain_code_lengths_cum_sum (p :: pts)).
  assert (Lcc : length cc = length (p :: pts)) by apply chain_code_lengths_cum_sum_length.
  assert (Hne : cc <> []) by (intros E; rewrite E in Lcc; discriminate).
  unfold normalize_parameter.
  destruct (py_get_ends_nonempty cc Hne) as (a & b & -> & ->). cbn [bind].
  destruct o as [v|]; cbn [option_map]; [|eexists; reflexivity].
  rewrite np_interp_mismatch by (rewrite Lcc; apply H; reflexivity).
  eexists; reflexivity.
Qed.

Lemma normalize_loop_raises (props : list (option (list F)))
      (xys : list (option (side F))) (i : nat) (xy : side F) (o : option (list F))
      (iFrame : Z) (nd : norm_data F) :
  nth_error xys i = Some (Some xy) -> nth_error props i = Some o ->
  xy = [] \/ (forall v, o = Some v -> length v <> length xy) ->
  exists e, normalize_loop iFrame props xys nd = Raise e.
Proof.
  revert props xys iFrame nd. induction i as [|i IH];
    intros [|cur props] [|cur_xy xys] iFrame nd Hx Hp Hbad; try discriminate.
  - simpl in Hx, Hp. inversion Hx; inversion Hp; subst.
    cbn [normalize_loop].
    destruct (normalize_parameter_mismatch o xy Hbad) as (e & ->).
    exists e. reflexivity.
  - simpl in Hx, Hp. cbn [normalize_loop].
    destruct (match cur_xy with
              | Some xy0 =>
                  v <- normalize_parameter (option_map Arr1 cur)
                         (chain_code_lengths_cum_sum xy0) ;;
                  assign_frame nd iFrame v
              | None => Ok nd
              end) as [nd'|e]; [|exists e; reflexivity].
    cbn [bind]. eapply IH; eauto.
Qed.

(** X15.  One frame whose curve is present but empty, or whose property is
    missing or has another number of entries than the curve has points, makes
    the whole call raise: no frame's result is returned. *)
Theorem normalize_all_frames_aborts_on_mismatch (props : list (option (list F)))
        (xys : list (option (side F))) (i : nat) (xy : side F) (o : option (list F)) :
  nth_error xys i = Some (Some xy) -> nth_error props i = Some o ->
  xy = [] \/ (forall v, o = Some v -> length v <> length xy) ->
  exists e, normalize_all_frames NaN props xys = Raise e.
Proof.
  intros Hx Hp Hbad. unfold normalize_all_frames.
  eapply normalize_loop_raises; eauto.
Qed.

End NormalizeErrors.

(** X15 on a frame with three values for a curve of two points. *)
Lemma normalize_all_frames_aborts_on_mismatch_witness :
  exists e,
    normalize_all_frames PrimFloat.nan
      [None; Some [1; 2; 3]%float] [None; Some [(0, 0); (1, 0)]%float]
    = Raise e.
Proof.
  apply (normalize_all_frames_aborts_on_mismatch PrimFloat.nan
           [None; Some [1; 2; 3]%float] [None; Some [(0, 0); (1, 0)]%float]
           1 [(0, 0); (1, 0)]%float (Some [1; 2; 3]%float) eq_refl eq_refl).
  right. intros v E. inversion E; subst. simpl. lia.
Defined.

(** X16 on a batch of one frame with a curve and one missing frame. *)
Lemma normalize_all_frames_ragged_witness :
  exists rows,
    normalize_all_frames PrimFloat.nan
      [Some [1; 2; 3]%float; None] [Some [(0, 0); (1, 0); (2, 0)]%float; None]
    = Ok (Rank2 rows)
    /\ map (@length float) rows = repeat 2%nat N_POINTS_NORMALIZED
    /\ map (fun r => nth_error r 1) rows
       = repeat (Some PrimFloat.nan) N_POINTS_NORMALIZED.
Proof.
  assert (H : exists nd,
             normalize_all_frames PrimFloat.nan
               [Some [1; 2; 3]%float; None]
               [Some [(0, 0); (1, 0); (2, 0)]%float; None] = Ok nd)
    by (eexists; vm_compute; reflexivity).
  destruct H as (nd & H).
  destruct (normalize_all_frames_ragged PrimFloat.nan
              [Some [1; 2; 3]%float; None]
              [Some [(0, 0); (1, 0); (2, 0)]%float; None] nd eq_refl H)
    as (rows & -> & L & Hcol).
  exists rows. split; [exact H|]. split; [exact L|].
  apply (Hcol 1%nat eq_refl). simpl. lia.
Defined.

(** ** compute_angles *)

Lemma py_take_map {A} (l : list A) (idx : list Z) (d : A) :
  Forall (fun i => 0 <= i < Z.of_nat (length l)) idx ->
  py_take l idx = Ok (map (fun j => nth (Z.to_nat j) l d) idx).
Proof.
  induction 1 as [|i idx Hi _ IH]; [reflexivity|].
  cbn [py_take map]. destruct (py_get_in_range l i Hi) as (x & -> & Hx).
  rewrite IH. cbn [bind]. rewrite (nth_error_nth _ _ d Hx). reflexivity.
Qed.

Lemma map2_map_same {A B C D} (f : B -> C -> D) (g : A -> B) (h : A -> C)
      (l : list A) :
  map2 f (map g l) (map h l) = map (fun x => f (g x) (h x)) l.
Proof. unfold map2. rewrite combine_map_same, map_map. reflexivity. Qed.

Lemma py_set_many_total {A} (l : list A) (idx : list Z) (vals : list A) :
  Forall (fun i => 0 <= i < Z.of_nat (length l)) idx ->
  length vals = length idx ->
  exists l', py_set_many l idx vals = Ok l'.
Proof.
  intros H. revert l vals H.
  induction idx as [|i idx IH]; intros l [|v vals] H L; simpl in L; try discriminate.
  - exists l. reflexivity.
  - inversion H as [|? ? Hi Hrest]; subst.
    cbn [py_set_many]. rewrite py_set_in_range by exact Hi. cbn [bind].
    apply IH; [|lia]. rewrite upd_length. exact Hrest.
Qed.

Lemma py_set_many_Forall {A} (P : A -> Prop) (l : list A) (idx : list Z)
      (vals l' : list A) :
  py_set_many l idx vals = Ok l' -> Forall P l -> Forall P vals -> Forall P l'.
Proof.
  revert l vals. induction idx as [|i idx IH]; intros l [|v vals] H Hl Hv;
    simpl in H; try discriminate.
  - inversion H; subst. exact Hl.
  - apply bind_Ok in H. destruct H as (l1 & H1 & H).
    inversion Hv; subst.
    apply py_set_Ok in H1. destruct H1 as (k & _ & ->).
    eapply IH; eauto. apply Forall_upd; assumption.
Qed.

Lemma py_set_many_other {A} (l : list A) (idx : list Z) (vals l' : list A) (i : nat) :
  py_set_many l idx vals = Ok l' ->
  Forall (fun j => 0 <= j) idx -> ~ In (Z.of_nat i) idx ->
  nth_error l' i = nth_error l i.
Proof.
  revert l vals. induction idx as [|j idx IH]; intros l [|v vals] H Hpos Hin;
    simpl in H; try discriminate.
  - inversion H; subst. reflexivity.
  - apply bind_Ok in H. destruct H as (l1 & H1 & H).
    inversion Hpos; subst.
    apply py_set_nonneg in H1; [|assumption]. destruct H1 as (_ & ->).
    rewrite (IH _ _ H) by (auto; intros Hc; apply Hin; right; exact Hc).
    apply nth_error_upd_other. intros E. apply Hin. left. lia.
Qed.

Lemma find_from_In (k : Z) (mask : list bool) (j : Z) :
  In j (find_from k mask) -> nth_error mask (Z.to_nat (j - k)) = Some true.
Proof.
  revert k. induction mask as [|b mask IH]; intros k Hin; [destruct Hin|].
  cbn [find_from] in Hin.
  assert (Hrest : In j (find_from (k + 1) mask) ->
                  nth_error (b :: mask) (Z.to_nat (j - k)) = Some true).
  { intros H. pose proof (find_from_range (k + 1) mask) as Hr.
    rewrite Forall_forall in Hr. specialize (Hr _ H).
    replace (Z.to_nat (j - k)) with (S (Z.to_nat (j - (k + 1)))) by lia.
    apply IH. exact H. }
  destruct b; [|auto].
  destruct Hin as [->|Hin]; [|auto].
  rewrite Z.sub_diag. reflexivity.
Qed.

Section AnglesFacts.
Context {F : Type} {NF : NumOps F}.
Variable arctan2 : F -> F -> F.
Variable pi : F.
Variable NaN : F.

Lemma valid_vertices_range (cc : list F) (e : F) :
  Forall (fun j => 0 <= j < Z.of_nat (length cc)) (valid_vertices cc e).
Proof.
  unfold valid_vertices, find.
  eapply Forall_impl; [|apply find_from_range]. cbn beta.
  intros j Hj. rewrite length_map in Hj. lia.
Qed.

(** The frame body, as one assignment of the vertex angles into an array of
    [NaN]. *)
Lemma frame_angles_unfold (skeleton : side F) :
  skeleton <> [] ->
  let cc := chain_code_lengths_cum_sum skeleton in
  let e := fdiv (nth (length cc - 1) cc (of_Z 0)) (of_Z 12) in
  frame_angles arctan2 pi NaN skeleton
  = py_set_many (repeat NaN (length cc)) (valid_vertices cc e)
      (map (vertex_angle arctan2 pi cc (map fst skeleton) (map snd skeleton) e)
           (valid_vertices cc e)).
Proof.
  intros Hne cc e.
  assert (Lcc : length cc = length skeleton) by apply chain_code_lengths_cum_sum_length.
  assert (Hcne : cc <> []).
  { intros E. rewrite E in Lcc. destruct skeleton; [congruence | discriminate]. }
  assert (H0 : py_get cc 0 = Ok (nth 0 cc (of_Z 0))).
  { destruct cc as [|c0 cc']; [congruence | reflexivity]. }
  unfold frame_angles. fold cc.
  rewrite (py_get_minus_one cc (of_Z 0) Hcne), H0. cbn [bind]. fold e.
  rewrite (map_map (fun c => fsub c e)), (map_map (fun c => fadd c e)).
  rewrite map2_map_same.
  change (find (map (fun x => fltb (nth 0 cc (of_Z 0)) (fsub x e)
                              && fltb (fadd x e) (nth (length cc - 1) cc (of_Z 0))) cc))
    with (valid_vertices cc e).
  pose proof (valid_vertices_range cc e) as Hv.
  set (valid := valid_vertices cc e) in *.
  rewrite (py_take_map (map (fun c => fsub c e) cc) valid (fsub (of_Z 0) e))
    by (rewrite length_map; exact Hv).
  cbn [bind].
  rewrite (py_take_map (map (fun c => fadd c e) cc) valid (fadd (of_Z 0) e))
    by (rewrite length_map; exact Hv).
  cbn [bind].
  rewrite !np_interp_Ok by (rewrite ?length_map; congruence).
  cbn [bind].
  rewrite (py_take_map (map snd skeleton) valid (of_Z 0))
    by (rewrite length_map, <- Lcc; exact Hv).
  rewrite (py_take_map (map fst skeleton) valid (of_Z 0))
    by (rewrite length_map, <- Lcc; exact Hv).
  cbn [bind].
  rewrite !map_map, !map2_map_same, !map_map.
  f_equal. apply map_ext. intros j. unfold vertex_angle.
  rewrite (map_nth (fun c => fsub c e)), (map_nth (fun c => fadd c e)).
  reflexivity.
Qed.

Lemma frame_angles_total (skeleton : side F) :
  skeleton <> [] ->
  exists angles,
    frame_angles arctan2 pi NaN skeleton = Ok angles
    /\ length angles = length skeleton.
Proof.
  intros Hne. rewrite frame_angles_unfold by exact Hne.
  set (cc := chain_code_lengths_cum_sum skeleton).
  set (e := fdiv _ _).
  destruct (py_set_many_total (repeat NaN (length cc)) (valid_vertices cc e)
              (map (vertex_angle arctan2 pi cc (map fst skeleton)
                                 (map snd skeleton) e) (valid_vertices cc e)))
    as (angles & Ha).
  - rewrite repeat_length. apply valid_vertices_range.
  - apply length_map.
  - exists angles. split; [exact Ha|].
    apply py_set_many_length in Ha. rewrite Ha, repeat_length.
    apply chain_code_lengths_cum_sum_length.
Qed.

(** X18.  The angles of a frame: a skeleton with no point raises IndexError
    ([cc[-1]]); any other skeleton gets one entry per point. *)
Theorem frame_angles_has_one_entry_per_point (skeleton : side F) :
  (skeleton = [] -> frame_angles arctan2 pi NaN skeleton = Raise IndexError)
  /\ (skeleton <> [] ->
      exists angles,
        frame_angles arctan2 pi NaN skeleton = Ok angles
        /\ length angles = length skeleton).
Proof.
  split.
  - intros ->. reflexivity.
  - intros Hne. apply frame_angles_total. exact Hne.
Qed.

End AnglesFacts.

(** *** Over the reals *)

Lemma cum_sum_starts_at_zero (skeleton : side R) :
  skeleton <> [] ->
  nth 0 (chain_code_lengths_cum_sum skeleton) 0%R = 0%R
  /\ StronglySorted Rle (chain_code_lengths_cum_sum skeleton).
Proof.
  intros Hne. destruct skeleton as [|p rest]; [congruence|].
  change (chain_code_lengths_cum_sum (p :: rest))
    with (0%R :: cumsum_from 0%R (chain_code_lengths (p :: rest))).
  split; [reflexivity|].
  apply Sorted_StronglySorted.
  - intros x y z. apply Rle_trans.
  - apply cumsum_from_sorted, chain_code_lengths_nonneg.
Qed.

Lemma StronglySorted_nth_le (l : list R) (i j : nat) :
  StronglySorted Rle l -> (i <= j < length l)%nat ->
  (nth i l 0 <= nth j l 0)%R.
Proof.
  intros Hs. revert i j. induction Hs as [|a l Hs IH Hall]; intros i j Hij.
  - simpl in Hij. lia.
  - destruct i as [|i], j as [|j]; simpl in Hij |- *; try lia.
    + lra.
    + rewrite Forall_forall in Hall. apply Hall, nth_In. lia.
    + apply IH. lia.
Qed.

Section AnglesOverR.
Variable arctan2 : R -> R -> R.
Variable pi : R.
Variable NaN : R.

(** X19.  Over the reals: the angle is NaN at every skeleton point that lies
    within a twelfth of the skeleton's length of either end, the first and
    the last point among them. *)
Theorem angles_are_undefined_near_both_ends (skeleton : side R) :
  skeleton <> [] ->
  let cc := chain_code_lengths_cum_sum skeleton in
  let total := nth (length cc - 1) cc 0%R in
  exists angles,
    frame_angles arctan2 pi NaN skeleton = Ok angles
    /\ (forall i c, nth_error cc i = Some c ->
                    (c <= total / 12 \/ total - total / 12 <= c)%R ->
                    nth_error angles i = Some NaN)
    /\ nth_error angles 0 = Some NaN
    /\ nth_error angles (length skeleton - 1) = Some NaN.
Proof.
  intros Hne cc total.
  assert (Lcc : length cc = length skeleton) by apply chain_code_lengths_cum_sum_length.
  assert (Hlen : (0 < length cc)%nat).
  { rewrite Lcc. destruct skeleton; [congruence | simpl; lia]. }
  destruct (cum_sum_starts_at_zero skeleton Hne) as (Hz & Hs). fold cc in Hz, Hs.
  rewrite frame_angles_unfold by exact Hne. fold cc.
  change (fdiv (nth (length cc - 1) cc (of_Z 0)) (of_Z 12)) with (total / 12)%R.
  set (e := (total / 12)%R).
  set (vals := map _ (valid_vertices cc e)).
  destruct (py_set_many_total (repeat NaN (length cc)) (valid_vertices cc e) vals)
    as (angles & Ha).
  { rewrite repeat_length. apply valid_vertices_range. }
  { apply length_map. }
  exists angles. split; [exact Ha|].
  assert (Hgen : forall i c, nth_error cc i = Some c ->
                   (c <= e \/ total - e <= c)%R ->
                   nth_error angles i = Some NaN).
  { intros i c Hi Hc.
    assert (Hilt : (i < length cc)%nat) by (apply nth_error_Some; congruence).
    rewrite (py_set_many_other _ _ _ _ i Ha).
    - apply nth_error_repeat_Some. exact Hilt.
    - eapply Forall_impl; [|apply valid_vertices_range]. cbn beta. intros; lia.
    - intros Hin. unfold valid_vertices, find in Hin. apply find_from_In in Hin.
      rewrite Z.sub_0_r, Nat2Z.id in Hin.
      rewrite nth_error_map, Hi in Hin. cbn [option_map] in Hin.
      inversion Hin as [Hb]. apply andb_true_iff in Hb. destruct Hb as (B1 & B2).
      cbn [fltb fsub fadd of_Z R_ops] in B1, B2.
      rewrite Hz in B1. fold total in B2.
      destruct (Rlt_dec 0 (c - e)); [|discriminate].
      destruct (Rlt_dec (c + e) total); [|discriminate]. lra. }
  assert (Htot : (0 <= total)%R).
  { rewrite <- Hz. apply StronglySorted_nth_le; [exact Hs | lia]. }
  split; [exact Hgen|]. split.
  - apply (Hgen O 0%R).
    + rewrite <- Hz. apply nth_error_nth'. exact Hlen.
    + left. unfold e. lra.
  - apply (Hgen (length skeleton - 1)%nat total).
    + rewrite <- Lcc. apply nth_error_nth'. lia.
    + right. unfold e. lra.
Qed.

Hypothesis pi_pos : (0 < pi)%R.

Lemma vertex_angle_range (cc sx sy : list R) (e : R) (j : Z) :
  (forall y x, - pi <= arctan2 y x <= pi)%R ->
  (-180 <= vertex_angle arctan2 pi cc sx sy e j <= 180)%R.
Proof.
  intros Hr. unfold vertex_angle. cbv zeta.
  set (a2 := arctan2 _ _). set (a1 := arctan2 _ _).
  pose proof (Hr (nth (Z.to_nat j) sy (of_Z 0) - interp_one cc sy (nth (Z.to_nat j) cc (of_Z 0) + e))%R
                 (nth (Z.to_nat j) sx (of_Z 0) - interp_one cc sx (nth (Z.to_nat j) cc (of_Z 0) + e))%R) as H2.
  pose proof (Hr (interp_one cc sy (nth (Z.to_nat j) cc (of_Z 0) - e) - nth (Z.to_nat j) sy (of_Z 0))%R
                 (interp_one cc sx (nth (Z.to_nat j) cc (of_Z 0) - e) - nth (Z.to_nat j) sx (of_Z 0))%R) as H1.
  cbn [fsub fadd R_ops] in a1, a2. fold a2 in H2. fold a1 in H1.
  assert (Hw : (- pi <= wrap_up pi (wrap_down pi (fsub a2 a1)) <= pi)%R).
  { unfold wrap_up, wrap_down. cbn [fltb fsub fadd fmul of_Z R_ops].
    destruct (Rlt_dec pi (a2 - a1)).
    - destruct (Rlt_dec (a2 - a1 - 2 * pi) (0 - pi)); lra.
    - destruct (Rlt_dec (a2 - a1) (0 - pi)); lra. }
  set (w := wrap_up pi (wrap_down pi (fsub a2 a1))) in *.
  unfold to_degrees. cbn [fmul fdiv of_Z R_ops].
  replace (w * (180 / pi))%R with (180 * (w / pi))%R by (field; lra).
  assert (-1 <= w / pi <= 1)%R.
  { split.
    - apply Rmult_le_reg_r with pi; [exact pi_pos|].
      unfold Rdiv. rewrite Rmult_assoc, Rinv_l by lra. lra.
    - apply Rmult_le_reg_r with pi; [exact pi_pos|].
      unfold Rdiv. rewrite Rmult_assoc, Rinv_l by lra. lra. }
  lra.
Qed.

(** X20.  Over the reals, with [arctan2] taking its values in [-pi, pi]:
    every angle that is not NaN lies between -180 and 180 degrees. *)
Theorem angles_lie_within_half_a_turn (skeleton : side R) :
  (forall y x, - pi <= arctan2 y x <= pi)%R ->
  skeleton <> [] ->
  exists angles,
    frame_angles arctan2 pi NaN skeleton = Ok angles
    /\ Forall (fun a => a = NaN \/ (-180 <= a <= 180)%R) angles.
Proof.
  intros Hr Hne. rewrite frame_angles_unfold by exact Hne.
  set (cc := chain_code_lengths_cum_sum skeleton).
  set (e := fdiv _ _).
  set (vals := map _ (valid_vertices cc e)).
  destruct (py_set_many_total (repeat NaN (length cc)) (valid_vertices cc e) vals)
    as (angles & Ha).
  { rewrite repeat_length. apply valid_vertices_range. }
  { apply length_map. }
  exists angles. split; [exact Ha|].
  eapply py_set_many_Forall; [exact Ha | |].
  - apply Forall_forall. intros a Hin. apply repeat_spec in Hin. now left.
  - unfold vals. apply Forall_map, Forall_forall. intros j _. right.
    apply vertex_angle_range. exact Hr.
Qed.

End AnglesOverR.

Lemma R_arctan2_range (y x : R) : (- PI <= R_arctan2 y x <= PI)%R.
Proof.
  pose proof PI_RGT_0 as Hpi. unfold R_arctan2.
  pose proof (atan_bound (y / x)) as Hb.
  destruct (Rlt_dec 0 x) as [Hx|Hx]; [lra|].
  destruct (Rlt_dec x 0) as [Hx'|Hx'].
  - assert (Hinv : (/ x < 0)%R) by (apply Rinv_lt_0_compat; exact Hx').
    destruct (Rle_dec 0 y) as [Hy|Hy].
    + assert (Hq : (y / x <= 0)%R) by (unfold Rdiv; nra).
      assert (atan (y / x) <= 0)%R.
      { destruct (Req_dec (y / x) 0) as [E|E].
        - rewrite E, atan_0. lra.
        - rewrite <- atan_0. apply Rlt_le, atan_increasing. lra. }
      lra.
    + assert (Hq : (0 < y / x)%R) by (unfold Rdiv; nra).
      assert (0 < atan (y / x))%R by (rewrite <- atan_0; apply atan_increasing; exact Hq).
      lra.
  - destruct (Rlt_dec 0 y); [lra|]. destruct (Rlt_dec y 0); lra.
Qed.

Lemma last_cons_default {A} (l : list A) (a d : A) : last (a :: l) d = last l a.
Proof.
  revert a d. induction l as [|b t IH]; intros a d; [reflexivity|].
  change (last (a :: b :: t) d) with (last (b :: t) d).
  rewrite (IH b d), (IH b a). reflexivity.
Qed.

(** Interpolation through samples that are an affine function of their
    positions. *)
Lemma interp_scan_affine (al be x : R) (rest : list (R * R)) (cur : R * R) :
  (fst cur <= x)%R -> (x <= fst (last rest cur))%R ->
  Forall (fun p => snd p = (al + be * fst p)%R) (cur :: rest) ->
  interp_scan x cur rest = (al + be * x)%R.
Proof.
  revert cur. induction rest as [|nxt rest IH]; intros cur Hlo Hhi Hall.
  - cbn [last] in Hhi. inversion Hall as [|? ? Hc _]; subst.
    cbn [interp_scan]. rewrite Hc. assert (x = fst cur) by lra. subst x. reflexivity.
  - inversion Hall as [|? ? Hc Hrest]; subst.
    cbn [interp_scan]. cbn [fleb R_ops].
    destruct (Rle_dec (fst nxt) x) as [Hle|Hgt].
    + apply IH; [exact Hle | | exact Hrest].
      rewrite <- (last_cons_default rest nxt cur). exact Hhi.
    + inversion Hrest as [|? ? Hn _]; subst.
      cbn [fadd fmul fdiv fsub R_ops]. rewrite Hc, Hn. field. lra.
Qed.

Lemma nth_last_fst (l : list (R * R)) (p : R * R) :
  nth (length (p :: l) - 1) (map fst (p :: l)) 0%R = fst (last l p).
Proof.
  revert p. induction l as [|q t IH]; intros p; [reflexivity|].
  rewrite (last_cons_default t q p), <- (IH q).
  cbn [length map]. replace (S (S (length t)) - 1)%nat with (S (length t)) by lia.
  replace (S (length t) - 1)%nat with (length t) by lia. reflexivity.
Qed.

Lemma interp_one_affine (al be x : R) (xp fp : list R) :
  length fp = length xp -> xp <> [] ->
  Forall (fun p => snd p = (al + be * fst p)%R) (combine xp fp) ->
  (nth 0 xp 0 <= x <= nth (length xp - 1) xp 0)%R ->
  interp_one xp fp x = (al + be * x)%R.
Proof.
  intros Hlen Hne Hall (Hlo & Hhi). unfold interp_one.
  assert (E : map fst (combine xp fp) = xp) by (apply combine_fst; congruence).
  destruct (combine xp fp) as [|p0 rest].
  - simpl in E. congruence.
  - rewrite <- E in Hlo, Hhi. rewrite length_map in Hhi.
    rewrite nth_last_fst in Hhi. cbn [map nth] in Hlo.
    cbn [fltb R_ops]. destruct (Rlt_dec x (fst p0)) as [Hlt|_]; [lra|].
    apply interp_scan_affine; assumption.
Qed.

Section StraightSkeleton.
Variable arctan2 : R -> R -> R.
Variable pi : R.
Variable NaN : R.
Hypothesis pi_pos : (0 < pi)%R.

(** X21.  Over the reals: on a skeleton whose points are an affine function
    of its own cumulative length (a straight skeleton, walked in one
    direction) every angle that is not NaN is 0. *)
Theorem straight_skeleton_has_zero_angles (skeleton : side R) (ax bx ay by_ : R) :
  skeleton <> [] ->
  Forall (fun cp => snd cp = (ax + bx * fst cp, ay + by_ * fst cp)%R)
         (combine (chain_code_lengths_cum_sum skeleton) skeleton) ->
  exists angles,
    frame_angles arctan2 pi NaN skeleton = Ok angles
    /\ length angles = length skeleton
    /\ Forall (fun a => a = NaN \/ a = 0%R) angles.
Proof.
  intros Hne Haff. rewrite frame_angles_unfold by exact Hne.
  set (cc := chain_code_lengths_cum_sum skeleton) in *.
  assert (Lcc : length cc = length skeleton) by apply chain_code_lengths_cum_sum_length.
  destruct (cum_sum_starts_at_zero skeleton Hne) as (Hz & Hs). fold cc in Hz, Hs.
  set (total := nth (length cc - 1) cc 0%R).
  change (fdiv (nth (length cc - 1) cc (of_Z 0)) (of_Z 12)) with (total / 12)%R.
  set (e := (total / 12)%R).
  set (vals := map _ (valid_vertices cc e)).
  destruct (py_set_many_total (repeat NaN (length cc)) (valid_vertices cc e) vals)
    as (angles & Ha).
  { rewrite repeat_length. apply valid_vertices_range. }
  { apply length_map. }
  exists angles. split; [exact Ha|]. split.
  { apply py_set_many_length in Ha. rewrite Ha, repeat_length. exact Lcc. }
  eapply py_set_many_Forall; [exact Ha | |].
  { apply Forall_forall. intros a Hin. apply repeat_spec in Hin. now left. }
  unfold vals. apply Forall_map, Forall_forall. intros j Hj. right.
  (* the vertex and its two edge ends *)
  pose proof (valid_vertices_range cc e) as Hr. rewrite Forall_forall in Hr.
  specialize (Hr j Hj).
  unfold valid_vertices, find in Hj. apply find_from_In in Hj.
  rewrite Z.sub_0_r in Hj.
  set (i := Z.to_nat j) in *.
  assert (Hi : (i < length cc)%nat) by (unfold i; lia).
  rewrite nth_error_map, (nth_error_nth' cc 0%R Hi) in Hj. cbn [option_map] in Hj.
  inversion Hj as [Hb]. clear Hj. apply andb_true_iff in Hb. destruct Hb as (B1 & B2).
  cbn [fltb fsub fadd of_Z R_ops] in B1, B2. rewrite Hz in B1. fold total in B2.
  destruct (Rlt_dec 0 (nth i cc 0%R - e)) as [V1|]; [|discriminate].
  destruct (Rlt_dec (nth i cc 0%R + e) total) as [V2|]; [|discriminate].
  clear B1 B2.
  assert (Hc0 : (0 <= nth i cc 0)%R).
  { rewrite <- Hz at 1. apply StronglySorted_nth_le; [exact Hs | lia]. }
  assert (Hct : (nth i cc 0 <= total)%R).
  { apply StronglySorted_nth_le; [exact Hs | lia]. }
  assert (He : (0 <= e)%R) by (unfold e; lra).
  (* both rows are affine in the cumulative length *)
  assert (Hx : Forall (fun p => snd p = (ax + bx * fst p)%R)
                      (combine cc (map fst skeleton))).
  { rewrite <- (combine_fst_snd (combine cc (map fst skeleton))).
    rewrite combine_fst, combine_snd by (rewrite length_map; exact Lcc).
    clear - Haff. revert Haff. generalize cc. induction skeleton as [|p sk IH];
      intros [|c cs] H; try constructor.
    - inversion H as [|? ? Hp _]; subst. cbn [fst snd] in *. rewrite Hp. reflexivity.
    - inversion H; subst. apply IH. assumption. }
  assert (Hy : Forall (fun p => snd p = (ay + by_ * fst p)%R)
                      (combine cc (map snd skeleton))).
  { clear - Haff. revert Haff. generalize cc. induction skeleton as [|p sk IH];
      intros [|c cs] H; try constructor.
    - inversion H as [|? ? Hp _]; subst. cbn [fst snd] in *. rewrite Hp. reflexivity.
    - inversion H; subst. apply IH. assumption. }
  assert (Hcne : cc <> []) by (intros E; rewrite E in Hi; simpl in Hi; lia).
  assert (Px : nth i (map fst skeleton) 0%R = (ax + bx * nth i cc 0)%R).
  { rewrite Forall_forall in Hx.
    apply (Hx (nth i cc 0%R, nth i (map fst skeleton) 0%R)).
    rewrite <- combine_nth by (rewrite length_map; exact Lcc).
    apply nth_In. rewrite length_combine, length_map. lia. }
  assert (Py : nth i (map snd skeleton) 0%R = (ay + by_ * nth i cc 0)%R).
  { rewrite Forall_forall in Hy.
    apply (Hy (nth i cc 0%R, nth i (map snd skeleton) 0%R)).
    rewrite <- combine_nth by (rewrite length_map; exact Lcc).
    apply nth_In. rewrite length_combine, length_map. lia. }
  unfold vertex_angle. cbv zeta. fold i.
  cbn [of_Z fsub fadd R_ops].
  rewrite !(interp_one_affine ax bx _ cc (map fst skeleton)),
    !(interp_one_affine ay by_ _ cc (map snd skeleton));
    try (rewrite ?length_map; congruence); try assumption;
    try (rewrite Hz; fold total; lra).
  rewrite Px, Py.
  replace (ay + by_ * nth i cc 0 - (ay + by_ * (nth i cc 0 + e)))%R
    with (ay + by_ * (nth i cc 0 - e) - (ay + by_ * nth i cc 0))%R by ring.
  replace (ax + bx * nth i cc 0 - (ax + bx * (nth i cc 0 + e)))%R
    with (ax + bx * (nth i cc 0 - e) - (ax + bx * nth i cc 0))%R by ring.
  rewrite Rminus_diag.
  unfold to_degrees, wrap_up, wrap_down. cbn [fltb fsub fadd fmul fdiv of_Z R_ops].
  destruct (Rlt_dec pi 0); [lra|].
  destruct (Rlt_dec 0 (0 - pi)); [lra|]. lra.
Qed.

End StraightSkeleton.

(** X19 on the straight line of 13 points, with -1 standing for NaN. *)
Lemma angles_are_undefined_near_both_ends_witness :
  exists angles,
    frame_angles R_arctan2 PI (-1)%R (unit_line 13) = Ok angles
    /\ nth_error angles 0 = Some (-1)%R
    /\ nth_error angles 12 = Some (-1)%R.
Proof.
  destruct (angles_are_undefined_near_both_ends R_arctan2 PI (-1)%R (unit_line 13))
    as (angles & H & _ & H0 & Hl); [discriminate|].
  exists angles. split; [exact H|]. split; [exact H0 | exact Hl].
Defined.

(** X20 on the corners of the unit square, with the arc tangent of the
    library. *)
Lemma angles_lie_within_half_a_turn_witness :
  exists angles,
    frame_angles R_arctan2 PI (-1)%R [(0, 0); (1, 0); (1, 1); (0, 1)]%R = Ok angles
    /\ Forall (fun a => a = (-1)%R \/ (-180 <= a <= 180)%R) angles.
Proof.
  apply (angles_lie_within_half_a_turn R_arctan2 PI (-1)%R PI_RGT_0).
  - intros y x. apply R_arctan2_range.
  - discriminate.
Defined.

(** X21 on the straight line of 13 points. *)
Lemma straight_skeleton_has_zero_angles_witness :
  exists angles,
    frame_angles R_arctan2 PI (-1)%R (unit_line 13) = Ok angles
    /\ length angles = 13%nat
    /\ Forall (fun a => a = (-1)%R \/ a = 0%R) angles.
Proof.
  apply (straight_skeleton_has_zero_angles R_arctan2 PI (-1)%R PI_RGT_0
           (unit_line 13) 0%R 1%R 0%R 0%R).
  - discriminate.
  - change (chain_code_lengths_cum_sum (unit_line 13))
      with (0%R :: cumsum_from 0%R (chain_code_lengths (unit_line 13))).
    unfold unit_line. rewrite chain_code_lengths_unit_steps.
    cbn [pred repeat cumsum_from zrange_from map combine fadd R_ops Z.add Pos.add
         Pos.succ].
    repeat constructor; cbn [fst snd]; f_equal; lra.
Defined.

(** ** Batches of sequences of one length *)

Section UniformBatch.
Context {F : Type} {NF : NumOps F}.
Variable NaN : F.

(** Assigning a vector to one column of an array with another number of
    rows: numpy cannot broadcast it. *)
Lemma assign_frame2_mismatch (rows : list (list F)) (v : list F) :
  length rows <> length v ->
  Forall (fun row => row <> []) rows ->
  assign_frame2 rows 0 v = Raise ValueError.
Proof.
  revert v. induction rows as [|row rows IH]; intros [|x v] Hlen Hrows;
    simpl in Hlen; try congruence; try reflexivity.
  inversion Hrows as [|? ? Hrow Hrest]; subst.
  cbn [assign_frame2].
  rewrite py_set_in_range by (destruct row; [congruence | simpl; lia]).
  cbn [bind]. rewrite IH by (auto; lia). reflexivity.
Qed.

(** The first turn of the frame loop on an array of shape (N, n, k): the N
    values of the frame do not fit a slice of shape (N, n). *)
Lemma first_frame_does_not_fit (v0 : list F) (props : list (option (list F)))
      (xy0 : side F) (xys : list (option (side F))) (n k : nat) :
  length v0 = length xy0 -> xy0 <> [] -> (0 < k)%nat ->
  n <> N_POINTS_NORMALIZED ->
  normalize_loop 0 (Some v0 :: props) (Some xy0 :: xys)
                 (Rank3 (repeat (repeat (repeat NaN k) n) N_POINTS_NORMALIZED))
  = Raise ValueError.
Proof.
  intros Hlen Hne Hk Hn. cbn [normalize_loop option_map].
  set (cc := chain_code_lengths_cum_sum xy0).
  assert (Lcc : length cc = length xy0) by apply chain_code_lengths_cum_sum_length.
  assert (Hcne : cc <> []).
  { intros E. rewrite E in Lcc. destruct xy0; [congruence | discriminate]. }
  unfold normalize_parameter.
  destruct (py_get_ends_nonempty cc Hcne) as (a & b & -> & ->). cbn [bind].
  rewrite np_interp_Ok by (auto; congruence). cbn [bind assign_frame].
  set (r := map _ (linspace a b N_POINTS_NORMALIZED)).
  assert (Lr : length r = N_POINTS_NORMALIZED)
    by (unfold r; rewrite length_map; apply linspace_length).
  set (plane := repeat (repeat NaN k) n).
  change (repeat plane N_POINTS_NORMALIZED) with (plane :: repeat plane 48).
  cbn [assign_frame3].
  unfold assign_plane, plane. rewrite assign_frame2_mismatch; [reflexivity | |].
  - rewrite repeat_length, Lr. exact Hn.
  - apply Forall_forall. intros row Hin. apply repeat_spec in Hin. subst row.
    destruct k; [lia | discriminate].
Qed.

(** X17.  When every per-frame sequence has one and the same length k (so
    that [np.shape] of the list is (n, k)) and the first frame has a curve,
    the call raises ValueError unless n = 49: the array has shape (49, n, k),
    and the 49 values of a frame cannot be assigned to a slice of shape
    (49, n).  A batch of a single frame is such a batch. *)
Theorem normalize_all_frames_uniform_batch_raises (v0 : list F)
        (rest : list (option (list F))) (xy0 : side F) (xys : list (option (side F))) :
  np_shape (Some v0 :: rest) = [S (length rest); length v0] ->
  length v0 = length xy0 -> xy0 <> [] ->
  S (length rest) <> N_POINTS_NORMALIZED ->
  normalize_all_frames NaN (Some v0 :: rest) (Some xy0 :: xys) = Raise ValueError.
Proof.
  intros Hshape Hlen Hne Hn. unfold normalize_all_frames. rewrite Hshape.
  cbn [app]. apply first_frame_does_not_fit; try assumption.
  rewrite Hlen. destruct xy0; [congruence | simpl; lia].
Qed.

End UniformBatch.

(** X17 on a batch of one frame. *)
Lemma normalize_all_frames_uniform_batch_raises_witness :
  normalize_all_frames PrimFloat.nan
    [Some [1; 2; 3]%float] [Some [(0, 0); (1, 0); (2, 0)]%float]
  = Raise ValueError.
Proof.
  apply (normalize_all_frames_uniform_batch_raises PrimFloat.nan
           [1; 2; 3]%float [] [(0, 0); (1, 0); (2, 0)]%float []).
  - reflexivity.
  - reflexivity.
  - discriminate.
  - unfold N_POINTS_NORMALIZED. simpl. lia.
Defined.

(** *** compute_angles on skeletons of one length *)

Section UniformAngles.
Context {F : Type} {NF : NumOps F}.
Variable arctan2 : F -> F -> F.
Variable pi : F.
Variable NaN : F.

Lemma angle_list_uniform (h_skeleton : list (option (side F))) (k : nat) :
  (0 < k)%nat ->
  Forall (fun o => exists sk, o = Some sk /\ length sk = k) h_skeleton ->
  exists l,
    angle_list arctan2 pi NaN h_skeleton = Ok l
    /\ length l = length h_skeleton
    /\ Forall (fun o => exists a : list F, o = Some a /\ length a = k) l.
Proof.
  intros Hk. induction 1 as [|o rest (sk & -> & Lsk) _ (l & Hl & Ll & Hall)].
  - exists []. repeat split; constructor.
  - destruct (frame_angles_total arctan2 pi NaN sk) as (a & Ha & La).
    { intros ->. simpl in Lsk. lia. }
    exists (Some a :: l). cbn [angle_list]. rewrite Ha, Hl. cbn [bind length].
    split; [reflexivity|]. split; [now rewrite Ll|].
    constructor; [|exact Hall]. exists a. split; [reflexivity | congruence].
Qed.

Lemma np_shape_uniform {A} (v : list A) (rest : list (option (list A))) :
  Forall (fun o => exists a : list A, o = Some a /\ length a = length v) rest ->
  np_shape (Some v :: rest) = [S (length rest); length v].
Proof.
  intros H. unfold np_shape.
  replace (forallb _ rest) with true; [reflexivity|].
  symmetry. apply forallb_forall. intros o Ho.
  rewrite Forall_forall in H. destruct (H o Ho) as (a & -> & La).
  apply Nat.eqb_eq. exact La.
Qed.

(** X22.  [compute_angles] on a batch in which every frame has a skeleton
    and all skeletons have the same number of points raises ValueError,
    unless the batch has exactly 49 frames; so it does on every batch of one
    frame. *)
Theorem compute_angles_raises_on_equal_length_skeletons
        (sk0 : side F) (rest : list (option (side F))) :
  sk0 <> [] ->
  Forall (fun o => exists sk, o = Some sk /\ length sk = length sk0) rest ->
  S (length rest) <> N_POINTS_NORMALIZED ->
  compute_angles arctan2 pi NaN (Some sk0 :: rest) = Raise ValueError.
Proof.
  intros Hne Hrest Hn.
  assert (Hk : (0 < length sk0)%nat) by (destruct sk0; [congruence | simpl; lia]).
  destruct (angle_list_uniform (Some sk0 :: rest) (length sk0) Hk)
    as (l & Hl & Ll & Hall).
  { constructor; [|exact Hrest]. exists sk0. auto. }
  unfold compute_angles. rewrite Hl. cbn [bind].
  destruct l as [|o l']; [discriminate|].
  inversion Hall as [|? ? (a0 & -> & La0) Hall']; subst.
  simpl in Ll. assert (Ll' : length l' = length rest) by lia.
  unfold normalize_all_frames.
  rewrite np_shape_uniform
    by (eapply Forall_impl; [|exact Hall']; cbn beta;
        intros o (a & -> & La); exists a; split; [reflexivity | congruence]).
  cbn [app]. apply first_frame_does_not_fit; try assumption; try lia.
Qed.

End UniformAngles.

(** X22 on a batch of one frame. *)
Lemma compute_angles_raises_on_equal_length_skeletons_witness :
  compute_angles R_arctan2 PI (-1)%R [Some (unit_line 13)] = Raise ValueError.
Proof.
  apply (compute_angles_raises_on_equal_length_skeletons R_arctan2 PI (-1)%R
           (unit_line 13) []).
  - discriminate.
  - constructor.
  - unfold N_POINTS_NORMALIZED. simpl. lia.
Defined.

(** ** compute_area *)

Lemma np_sum_nil : np_sum (@nil R) = 0%R.
Proof. reflexivity. Qed.

Lemma np_sum_app (l1 l2 : list R) : np_sum (l1 ++ l2) = (np_sum l1 + np_sum l2)%R.
Proof.
  induction l1 as [|x l1 IH]; cbn [app].
  - unfold np_sum at 2. cbn [fold_left of_Z R_ops]. lra.
  - rewrite !np_sum_cons, IH. lra.
Qed.

Lemma nansum_no_nan (l : list R) : nansum no_nan l = np_sum l.
Proof. unfold nansum. f_equal. apply map_id. Qed.

Lemma nanmean_no_nan (l : list R) :
  nanmean no_nan l = (np_sum l / IZR (Z.of_nat (length l)))%R.
Proof.
  unfold nanmean. rewrite nansum_no_nan.
  replace (filter (fun x => negb (no_nan x)) l) with l; [reflexivity|].
  induction l as [|x l IH]; [reflexivity|]. cbn [filter no_nan negb].
  f_equal. exact IH.
Qed.

Lemma np_sum_map_sub (u : R * R -> R) (c : R) (l : side R) :
  np_sum (map (fun p => u p - c)%R l)
  = (np_sum (map u l) - IZR (Z.of_nat (length l)) * c)%R.
Proof.
  induction l as [|p l IH].
  - unfold np_sum. cbn. lra.
  - cbn [map length]. rewrite !np_sum_cons, IH, Nat2Z.inj_succ, succ_IZR. lra.
Qed.

Lemma np_sum_map2_diff (u : R * R -> R) (l l' : side R) :
  length l = length l' ->
  np_sum (map2 (fun p q => u p - u q)%R l l')
  = (np_sum (map u l) - np_sum (map u l'))%R.
Proof.
  revert l'. induction l as [|p l IH]; intros [|q l'] H; simpl in H; try discriminate.
  - unfold map2, np_sum. cbn. lra.
  - unfold map2 in *. cbn [combine map fst snd]. rewrite !np_sum_cons, IH by lia. lra.
Qed.

Lemma np_sum_map2_plus (f g : R * R -> R * R -> R) (l l' : side R) :
  np_sum (map2 (fun p q => f p q + g p q)%R l l')
  = (np_sum (map2 f l l') + np_sum (map2 g l l'))%R.
Proof.
  unfold map2. induction (combine l l') as [|x c IH].
  - unfold np_sum. cbn. lra.
  - cbn [map]. rewrite !np_sum_cons, IH. lra.
Qed.

Lemma np_sum_map2_scale (k : R) (f : R * R -> R * R -> R) (l l' : side R) :
  np_sum (map2 (fun p q => k * f p q)%R l l') = (k * np_sum (map2 f l l'))%R.
Proof.
  unfold map2. induction (combine l l') as [|x c IH].
  - unfold np_sum. cbn. lra.
  - cbn [map]. rewrite !np_sum_cons, IH. lra.
Qed.

Lemma contour_plus_one_length {F} (pts : side F) :
  length (contour_plus_one pts) = length pts.
Proof. destruct pts; [reflexivity|]. simpl. rewrite length_app. simpl. lia. Qed.

Lemma contour_plus_one_map {F} (f : F * F -> F * F) (pts : side F) :
  contour_plus_one (map f pts) = map f (contour_plus_one pts).
Proof. destruct pts; [reflexivity|]. simpl. now rewrite map_app. Qed.

Lemma np_sum_contour_plus_one (u : R * R -> R) (pts : side R) :
  np_sum (map u (contour_plus_one pts)) = np_sum (map u pts).
Proof.
  destruct pts as [|p rest]; [reflexivity|].
  cbn [contour_plus_one map]. rewrite map_app, np_sum_app, np_sum_cons.
  cbn [map]. rewrite np_sum_cons, np_sum_nil. lra.
Qed.

Lemma map2_map_both {A B C} (f : B -> B -> C) (g : A -> B) (l l' : list A) :
  map2 f (map g l) (map g l') = map2 (fun p q => f (g p) (g q)) l l'.
Proof.
  unfold map2. revert l'. induction l as [|x l IH]; intros [|y l']; try reflexivity.
  cbn [map combine fst snd]. f_equal. apply IH.
Qed.

(** The shoelace sum does not see a shift of all points: the centring of
    [compute_area] changes no area. *)
Lemma signed_area_shift (mx my : R) (pts : side R) :
  signed_area no_nan (map (fun p => (fst p - mx, snd p - my)%R) pts)
  = signed_area no_nan pts.
Proof.
  unfold signed_area. rewrite !nansum_no_nan. f_equal.
  rewrite contour_plus_one_map, map2_map_both. cbn [fst snd fsub fmul R_ops].
  set (l' := contour_plus_one pts).
  assert (L : length pts = length l') by (symmetry; apply contour_plus_one_length).
  transitivity
    (np_sum (map2 (fun p q =>
                     (fst p * snd q - snd p * fst q)
                     + ((- my) * (fst p - fst q) + mx * (snd p - snd q)))%R pts l')).
  { f_equal. unfold map2. apply map_ext. intros (p & q). cbn [fst snd]. ring. }
  rewrite (np_sum_map2_plus (fun p q => fst p * snd q - snd p * fst q)%R
             (fun p q => (- my) * (fst p - fst q) + mx * (snd p - snd q))%R).
  rewrite (np_sum_map2_plus (fun p q => (- my) * (fst p - fst q))%R
             (fun p q => mx * (snd p - snd q))%R).
  rewrite (np_sum_map2_scale (- my) (fun p q => fst p - fst q)%R).
  rewrite (np_sum_map2_scale mx (fun p q => snd p - snd q)%R).
  rewrite (np_sum_map2_diff fst), (np_sum_map2_diff snd) by exact L.
  unfold l'. rewrite !np_sum_contour_plus_one. lra.
Qed.

Lemma centre_no_nan (pts : side R) :
  centre no_nan pts
  = map (fun p => (fst p - np_sum (map fst pts) / IZR (Z.of_nat (length pts)),
                   snd p - np_sum (map snd pts) / IZR (Z.of_nat (length pts)))%R) pts.
Proof.
  unfold centre. rewrite !nanmean_no_nan, !length_map. reflexivity.
Qed.


Lemma centre_means_vanish (pts : side R) :
  pts <> [] ->
  nanmean no_nan (map fst (centre no_nan pts)) = 0%R
  /\ nanmean no_nan (map snd (centre no_nan pts)) = 0%R.
Proof.
  intros Hne. rewrite centre_no_nan, !nanmean_no_nan, !map_map, !length_map.
  cbn [fst snd].
  set (n := IZR (Z.of_nat (length pts))).
  assert (Hn : (n <> 0)%R).
  { unfold n. apply not_0_IZR. destruct pts; [congruence | simpl; lia]. }
  rewrite (np_sum_map_sub fst), (np_sum_map_sub snd). fold n.
  split; field; exact Hn.
Qed.

(** X24.  Over the reals: after the call, each frame of the caller's array
    has as many points as before and coordinate means 0; a second call on
    that array changes nothing more and returns the same areas. *)
Theorem compute_area_centres_the_callers_contour (contour : list (side R)) (NaN : R) :
  Forall (fun pts => pts <> []) contour ->
  let contour' := fst (compute_area no_nan Rabs NaN contour) in
  map (@length (R * R)) contour' = map (@length (R * R)) contour
  /\ Forall (fun pts => nanmean no_nan (map fst pts) = 0%R
                        /\ nanmean no_nan (map snd pts) = 0%R) contour'
  /\ compute_area no_nan Rabs NaN contour'
     = (contour', snd (compute_area no_nan Rabs NaN contour)).
Proof.
  intros H contour'.
  assert (E : compute_area no_nan Rabs NaN contour
              = (map (centre no_nan) contour,
                 Ok (map (fun pts => Rabs (signed_area no_nan pts)) contour))).
  { clear contour'. induction H as [|pts rest Hne _ IH]; [reflexivity|].
    cbn [compute_area map]. rewrite IH. unfold frame_area.
    assert (Hc : exists p, py_get (centre no_nan pts) 0 = Ok p).
    { destruct pts as [|p0 pts']; [congruence|]. eexists. reflexivity. }
    destruct Hc as (p & ->). cbn [bind no_nan].
    rewrite centre_no_nan, signed_area_shift. reflexivity. }
  unfold contour'. rewrite E. cbn [fst snd]. clear E contour'.
  split; [|split].
  - rewrite map_map. apply map_ext. intros pts. unfold centre. apply length_map.
  - apply Forall_map. eapply Forall_impl; [|exact H]. cbn beta.
    intros pts Hne. apply centre_means_vanish. exact Hne.
  - induction H as [|pts rest Hne _ IH]; [reflexivity|].
    cbn [compute_area map]. rewrite IH. unfold frame_area.
    destruct (centre_means_vanish pts Hne) as (Mx & My).
    assert (Hcc : centre no_nan (centre no_nan pts) = centre no_nan pts).
    { unfold centre at 1. rewrite Mx, My.
      transitivity (map (fun p : R * R => p) (centre no_nan pts)); [|apply map_id].
      apply map_ext. intros (x & y). cbn [fst snd fsub R_ops]. f_equal; lra. }
    rewrite Hcc.
    assert (Hc : exists p, py_get (centre no_nan pts) 0 = Ok p).
    { destruct pts as [|p0 pts']; [congruence|]. eexists. reflexivity. }
    destruct Hc as (p & ->). cbn [bind no_nan].
    rewrite centre_no_nan at 2. rewrite signed_area_shift. reflexivity.
Qed.


(** X24 on the unit square. *)
Lemma compute_area_centres_the_callers_contour_witness :
  Forall (fun pts => nanmean no_nan (map fst pts) = 0%R
                     /\ nanmean no_nan (map snd pts) = 0%R)
         (fst (compute_area no_nan Rabs 0%R [[(0, 0); (1, 0); (1, 1); (0, 1)]%R])).
Proof.
  apply (compute_area_centres_the_callers_contour
           [[(0, 0); (1, 0); (1, 1); (0, 1)]%R] 0%R).
  repeat constructor. discriminate.
Defined.

(** The same function run in binary64: a 2 x 1 rectangle, and a frame that is
    NaN throughout, which [np.nanmean] and [np.nansum] pass over and line 116
    turns back into NaN. *)
Example compute_area_binary64 :
  snd (compute_area PrimFloat.is_nan PrimFloat.abs PrimFloat.nan
         [[(0, 0); (2, 0); (2, 1); (0, 1)]%float;
          [(PrimFloat.nan, PrimFloat.nan); (PrimFloat.nan, PrimFloat.nan);
           (PrimFloat.nan, PrimFloat.nan); (PrimFloat.nan, PrimFloat.nan)]])
  = Ok [2%float; PrimFloat.nan].
Proof. vm_compute. reflexivity. Qed.

(** * Frames that yield a result *)

(** ** The end walks *)

Lemma Forall_py_slice {A} (P : A -> Prop) (l : list A) (lo hi : Z) :
  Forall P l -> Forall P (py_slice l lo hi).
Proof.
  intros H. unfold py_slice.
  assert (Hs : forall k (m : list A), Forall P m -> Forall P (skipn k m)).
  { induction k as [|k IH]; intros m Hm; [exact Hm|].
    destruct Hm; [constructor | apply IH; assumption]. }
  assert (Hf : forall k (m : list A), Forall P m -> Forall P (firstn k m)).
  { induction k as [|k IH]; intros m Hm; [constructor|].
    destruct Hm; [constructor | constructor; [assumption | apply IH; assumption]]. }
  apply Hf, Hs, H.
Qed.

Section WalkReturns.
Context {F : Type} {NF : NumOps F}.
Variables (d : matrix F) (xy1 xy2 : side F) (n1 n2 : nat).
Variables (s1 e1 s2 e2 : Z).
Hypothesis Hd : rectangular d n1 n2.
Hypothesis Hxy1 : length xy1 = n1.
Hypothesis Hxy2 : length xy2 = n2.
Hypothesis Hs1 : 0 <= s1 < Z.of_nat n1.
Hypothesis He1 : 0 <= e1 < Z.of_nat n1.
Hypothesis Hs2 : 0 <= s2 < Z.of_nat n2.
Hypothesis He2 : 0 <= e2 < Z.of_nat n2.
Hypothesis Hdir : if e1 <? s1 then e2 <= s2 else s2 <= e2.
Hypothesis Hroom : Z.abs (e1 - s1) + Z.abs (e2 - s2) <= 201.

Lemma walk_in_range_init : walk_in_range s1 e1 s2 e2 n1 n2 (walk_init s1 s2).
Proof.
  unfold walk_in_range, walk_init; cbn [c1 c2 cur_p_I p1_I p2_I].
  split; [destruct (e1 <? s1) eqn:E; [apply Z.ltb_lt in E | apply Z.ltb_ge in E]; lia|].
  repeat split; try lia; try apply repeat_length;
    apply Forall_forall; intros a Ha; apply repeat_spec in Ha; lia.
Qed.

Lemma walk_step_returns (st : walk_state) :
  walk_in_range s1 e1 s2 e2 n1 n2 st ->
  negb (c1 st =? e1) && negb (c2 st =? e2) = true ->
  exists st', walk_step s1 e1 d xy1 xy2 st = Ok st'
              /\ walk_in_range s1 e1 s2 e2 n1 n2 st'.
Proof.
  intros (Hc & Hk & Hcount & L1 & L2 & Hp1 & Hp2) G.
  apply andb_true_iff in G. destruct G as (G1 & G2).
  apply negb_true_iff, Z.eqb_neq in G1, G2.
  unfold BUFFER_SIZE in *.
  assert (Hn : 0 <= walk_next s1 e1 (c1 st) < Z.of_nat n1
               /\ 0 <= walk_next s1 e1 (c2 st) < Z.of_nat n2
               /\ 0 <= c1 st < Z.of_nat n1 /\ 0 <= c2 st < Z.of_nat n2
               /\ cur_p_I st + 1 < 200).
  { unfold walk_next. destruct (e1 <? s1); lia. }
  destruct Hn as (Hn1 & Hn2 & Hc1 & Hc2 & Hslot).
  destruct (walk_step_shape s1 e1 d xy1 xy2 st n1 n2) as (a & b & Hstep & _);
    try assumption; try lia.
  rewrite emit_in_range in Hstep by lia.
  eexists. split; [exact Hstep|].
  apply walk_step_Ok in Hstep. cbv zeta in Hstep.
  destruct Hstep as (_ & _ & a' & b' & _ & _ & Hemit & Hmove & _).
  rewrite emit_in_range in Hemit by lia.
  inversion Hemit as [[Ea Eb]]. subst a' b'. clear Hemit.
  unfold walk_in_range, BUFFER_SIZE; cbn [c1 c2 cur_p_I p1_I p2_I].
  rewrite !upd_length. unfold walk_next in *.
  split; [destruct (e1 <? s1); lia|].
  split; [lia|]. split; [destruct (e1 <? s1); lia|].
  split; [exact L1|]. split; [exact L2|].
  split; apply Forall_upd; auto; destruct (e1 <? s1); lia.
Qed.

Lemma walk_loop_returns (fuel : nat) (st : walk_state) :
  walk_in_range s1 e1 s2 e2 n1 n2 st ->
  200 <= Z.of_nat fuel + cur_p_I st ->
  exists st', walk_loop fuel s1 e1 e2 d xy1 xy2 st = Some (Ok st')
              /\ walk_in_range s1 e1 s2 e2 n1 n2 st'.
Proof.
  revert st. induction fuel as [|fuel IH]; intros st Hin Hfuel.
  - cbn [walk_loop].
    destruct (negb (c1 st =? e1) && negb (c2 st =? e2)) eqn:G; [|eauto].
    exfalso. destruct Hin as (Hc & Hk & Hcount & _).
    apply andb_true_iff in G. destruct G as (G1 & G2).
    apply negb_true_iff, Z.eqb_neq in G1, G2.
    destruct (e1 <? s1); lia.
  - rewrite walk_loop_unfold.
    destruct (negb (c1 st =? e1) && negb (c2 st =? e2)) eqn:G; [|eauto].
    destruct (walk_step_returns st Hin G) as (st1 & Hs & Hin1).
    rewrite Hs. apply IH; [exact Hin1|].
    apply walk_step_counter in Hs. lia.
Qed.

(** A walk whose extents lie inside the two sides, and which the buffers
    can hold, returns equally many indices of side 1 and of side 2. *)
Lemma h__getPartnersViaWalk_returns :
  exists p1 p2,
    h__getPartnersViaWalk s1 e1 s2 e2 d xy1 xy2 = Ok (p1, p2)
    /\ length p1 = length p2
    /\ Forall (fun a => 0 <= a < Z.of_nat n1) p1
    /\ Forall (fun a => 0 <= a < Z.of_nat n2) p2.
Proof.
  destruct (walk_loop_returns (S BUFFER_SIZE) (walk_init s1 s2) walk_in_range_init)
    as (st & Hl & Hin).
  { cbn [cur_p_I walk_init]. unfold BUFFER_SIZE. lia. }
  unfold h__getPartnersViaWalk. rewrite Hl.
  destruct Hin as (_ & _ & _ & L1 & L2 & Hp1 & Hp2).
  exists (py_upto (p1_I st) (cur_p_I st)), (py_upto (p2_I st) (cur_p_I st)).
  split; [reflexivity|]. unfold py_upto.
  split; [rewrite !py_slice_length, L1, L2; reflexivity|].
  split; apply Forall_py_slice; assumption.
Qed.

End WalkReturns.

(** ** The bookkeeping after the walks *)

Lemma py_set_all_total {A} (l : list A) (idx : list Z) (v : A) :
  Forall (fun i => 0 <= i < Z.of_nat (length l)) idx ->
  exists l', py_set_all l idx v = Ok l' /\ length l' = length l.
Proof.
  revert l. induction idx as [|i idx IH]; intros l H.
  - exists l. split; reflexivity.
  - inversion H as [|? ? Hi Hrest]; subst. cbn [py_set_all].
    rewrite py_set_in_range by exact Hi. cbn [bind].
    destruct (IH (upd (Z.to_nat i) v l)) as (l' & Hl' & Len).
    + now rewrite upd_length.
    + exists l'. split; [exact Hl'|]. now rewrite Len, upd_length.
Qed.

(** Writes of values with property [P] keep [P] on all entries but the last
    one. *)
Lemma py_set_keeps_init {A} (P : A -> Prop) (d : A) (l : list A) (i : Z) (v : A)
      (l' : list A) :
  py_set l i v = Ok l' -> P v ->
  (forall k, (S k < length l)%nat -> P (nth k l d)) ->
  forall k, (S k < length l')%nat -> P (nth k l' d).
Proof.
  intros H Hv Hl k Hk. apply py_set_Ok in H. destruct H as (j & _ & ->).
  rewrite upd_length in Hk. rewrite nth_upd.
  destruct ((k =? j)%nat && (j <? length l)%nat); auto.
Qed.

Lemma py_set_many_keeps_init {A} (P : A -> Prop) (d : A) (l : list A) (idx : list Z)
      (vals l' : list A) :
  py_set_many l idx vals = Ok l' -> Forall P vals ->
  (forall k, (S k < length l)%nat -> P (nth k l d)) ->
  forall k, (S k < length l')%nat -> P (nth k l' d).
Proof.
  revert l vals. induction idx as [|i idx IH]; intros l [|v vals] H Hv Hl;
    cbn [py_set_many] in H; try discriminate.
  - inversion H; subst. exact Hl.
  - apply bind_Ok in H. destruct H as (l1 & H1 & H).
    inversion Hv; subst.
    eapply IH; [exact H | assumption |].
    eapply py_set_keeps_init; eauto.
Qed.

Section EndsReturn.
Context {F : Type} {NF : NumOps F}.

(** The two end walks and the bookkeeping after them complete on sides
    large enough for the walk extents and small enough for the pair
    buffers, and every index they return is an index of its side. *)
Lemma h__updateEndsByWalking_returns (d_across : matrix F) (match_I1 : list Z)
      (s1 s2 : side F) (pct : F) (n1 n2 : nat) (w : Z) :
  rectangular d_across n1 n2 -> length s1 = n1 -> length s2 = n2 ->
  length match_I1 = n1 ->
  fceil (fmul (of_Z (Z.of_nat n1)) pct) = w ->
  3 <= w -> w < Z.of_nat n1 -> 2 * w < Z.of_nat n2 -> 3 * w <= 201 ->
  (forall k, (S k < n1)%nat -> 0 <= nth k match_I1 0 < Z.of_nat n2) ->
  exists I_1 I_2,
    h__updateEndsByWalking d_across match_I1 s1 s2 pct = Ok (I_1, I_2)
    /\ Forall (fun i => 0 <= i < Z.of_nat n1) I_1
    /\ Forall (fun i => 0 <= i < Z.of_nat n2) I_2.
Proof.
  intros Hd L1 L2 Lm Hw W3 Wn1 Wn2 Wroom Hm.
  unfold h__updateEndsByWalking. rewrite L1, L2, Hw.
  set (P := fun v : Z => 0 <= v < Z.of_nat n2).
  (* head walk *)
  destruct (h__getPartnersViaWalk_returns d_across s1 s2 n1 n2 0 w 0 (2 * w))
    as (p1 & p2 & -> & Lp & Hp1 & Hp2); try assumption; try lia.
  { destruct (w <? 0) eqn:E; [apply Z.ltb_lt in E|]; lia. }
  cbn [bind].
  destruct (py_set_many_total match_I1 p1 p2) as (m1 & Hm1);
    [now rewrite Lm | now symmetry |].
  rewrite Hm1. cbn [bind].
  pose proof (py_set_many_length _ _ _ _ Hm1) as Lm1.
  pose proof (py_set_many_keeps_init P 0 _ _ _ _ Hm1 Hp2) as Q1.
  rewrite Lm1, Lm in *.
  destruct (py_set_all_total (repeat false n1) p1 true) as (k1 & Hk1 & Lk1);
    [now rewrite repeat_length|].
  rewrite Hk1. cbn [bind]. rewrite repeat_length in Lk1.
  (* tail walk *)
  destruct (h__getPartnersViaWalk_returns d_across s1 s2 n1 n2
              (Z.of_nat n1 - 1) (Z.of_nat n1 - w + 1)
              (Z.of_nat n2 - 1) (Z.of_nat n2 - 2 * w + 1))
    as (q1 & q2 & -> & Lq & Hq1 & Hq2); try assumption; try lia.
  { destruct (Z.of_nat n1 - w + 1 <? Z.of_nat n1 - 1) eqn:E;
      [apply Z.ltb_lt in E | apply Z.ltb_ge in E]; lia. }
  cbn [bind].
  destruct (py_set_many_total m1 q1 q2) as (m2 & Hm2);
    [now rewrite Lm1 | now symmetry |].
  rewrite Hm2. cbn [bind].
  pose proof (py_set_many_length _ _ _ _ Hm2) as Lm2.
  pose proof (py_set_many_keeps_init P 0 _ _ _ _ Hm2 Hq2) as Q2.
  rewrite Lm2, Lm1 in *.
  destruct (py_set_all_total k1 q1 true) as (k2 & Hk2 & Lk2);
    [now rewrite Lk1|].
  rewrite Hk2. cbn [bind]. rewrite Lk1 in Lk2.
  set (k3 := py_slice_fill k2 (w + 1) (Z.of_nat n1 - w + 1) true).
  assert (Lk3 : length k3 = n1) by (unfold k3; now rewrite py_slice_fill_length).
  (* the two ends *)
  rewrite (py_set_in_range k3 0 true) by lia. cbn [bind].
  set (k4 := upd (Z.to_nat 0) true k3).
  assert (Lk4 : length k4 = n1) by (unfold k4; now rewrite upd_length).
  assert (E4 : py_set k4 (-1) true = Ok (upd (n1 - 1) true k4)).
  { unfold py_set. rewrite Lk4, py_norm_minus_one by lia. reflexivity. }
  rewrite E4. cbn [bind].
  rewrite (py_set_in_range m2 0 0) by lia. cbn [bind].
  set (m3 := upd (Z.to_nat 0) 0 m2).
  assert (Lm3 : length m3 = n1) by (unfold m3; now rewrite upd_length).
  assert (E5 : py_set m3 (-1) (Z.of_nat n2 - 1)
               = Ok (upd (n1 - 1) (Z.of_nat n2 - 1) m3)).
  { unfold py_set. rewrite Lm3, py_norm_minus_one by lia. reflexivity. }
  rewrite E5. cbn [bind].
  set (k5 := upd (n1 - 1) true k4).
  set (m4 := upd (n1 - 1) (Z.of_nat n2 - 1) m3).
  destruct (mask_select_total m4 k5) as (I_2 & HI2).
  { unfold m4, k5. now rewrite !upd_length, Lm3, Lk4. }
  rewrite HI2. cbn [bind].
  exists (find k5), I_2. split; [reflexivity|]. split.
  - pose proof (find_from_range 0 k5) as Hr. unfold find.
    eapply Forall_impl; [|exact Hr]. cbn beta. intros i Hi.
    unfold k5 in Hi. rewrite upd_length, Lk4 in Hi. lia.
  - eapply mask_select_Forall; [exact HI2|].
    apply Forall_nth. intros i dflt Hi. unfold m4 in *.
    rewrite upd_length, Lm3 in Hi.
    rewrite (nth_indep _ dflt 0) by (now rewrite upd_length, Lm3).
    rewrite nth_upd, Lm3.
    destruct (Nat.eqb_spec i (n1 - 1)) as [->|Hne].
    + replace (n1 - 1 <? n1)%nat with true by (symmetry; apply Nat.ltb_lt; lia).
      cbn [andb]. unfold P. lia.
    + cbn [andb]. unfold m3. rewrite nth_upd.
      destruct ((i =? Z.to_nat 0)%nat && (Z.to_nat 0 <? length m2)%nat);
        [unfold P; lia|].
      apply (Q2 (Q1 Hm)). lia.
Qed.

End EndsReturn.

(** ** The projection matches *)

Lemma py_get_row {A} (d : list (list A)) (n1 n2 : nat) (i : Z) :
  rectangular d n1 n2 -> 0 <= i < Z.of_nat n1 ->
  exists row, py_get d i = Ok row /\ length row = n2.
Proof.
  intros (Hlen & Hrows) Hi.
  destruct (py_get_valid d i) as (row & Hrow & Hin); [lia|].
  exists row. split; [exact Hrow|].
  rewrite Forall_forall in Hrows. auto.
Qed.

Lemma py_slice_window {A} (l : list A) (lb rb : Z) :
  0 <= lb <= rb -> rb <= Z.of_nat (length l) ->
  length (py_slice l lb rb) = Z.to_nat (rb - lb).
Proof.
  intros H1 H2. rewrite py_slice_length, !py_clip_nonneg by lia. lia.
Qed.

Section MatchesReturn.
Context {F : Type} {NF : NumOps F}.

(** On a window that is not empty the projection returns. *)
Lemma h__getProjectionIndex_returns (nx ny : F) (dx dy : list F) (left_I : Z)
      (d : list F) (sign_use : Z) :
  length dy = length dx -> length d = length dx -> dx <> [] ->
  exists r, h__getProjectionIndex nx ny dx dy left_I d sign_use = Ok r.
Proof.
  intros Hdy Hd Hne. unfold h__getProjectionIndex.
  set (dp0 := map2 _ dx dy).
  assert (L0 : length dp0 = length dx).
  { unfold dp0. rewrite map2_length_min, Hdy. apply Nat.min_id. }
  assert (Hgo : forall (dp : list F) (s : Z),
             length dp = length dx ->
             exists r,
               (dp_I <- match find (map2 andb
                                     (map2 fltb (py_slice dp 1 (-2)) (py_slice dp 2 (-1)))
                                     (map2 fltb (py_slice dp 1 (-2)) (py_slice dp 0 (-3)))) with
                        | [] => np_argmin dp
                        | [ip] => Ok (ip + 1)
                        | _ :: _ :: _ =>
                            ds <- py_take d
                                    (find (map2 andb
                                     (map2 fltb (py_slice dp 1 (-2)) (py_slice dp 2 (-1)))
                                     (map2 fltb (py_slice dp 1 (-2)) (py_slice dp 0 (-3))))) ;;
                            temp_I <- np_argmin ds ;;
                            ip <- py_get (find (map2 andb
                                     (map2 fltb (py_slice dp 1 (-2)) (py_slice dp 2 (-1)))
                                     (map2 fltb (py_slice dp 1 (-2)) (py_slice dp 0 (-3))))) temp_I ;;
                            Ok (ip + 1)
                        end ;;
                dp_value <- py_get dp dp_I ;;
                Ok (dp_value, left_I + dp_I, s)) = Ok r).
  { intros dp s L.
    destruct (projection_choice dp d) as (j & Hj & Hr).
    - intros ->. destruct dx; [congruence | discriminate].
    - congruence.
    - cbv zeta in Hj.
      destruct (py_get_in_range dp j Hr) as (v & Hv & _).
      exists (v, left_I + j, s).
      destruct (find _) as [|ip [|ip' Ip]]; rewrite Hj; cbn [bind];
        rewrite Hv; reflexivity. }
  destruct ((sign_use =? 0) && fltb (of_Z 0) (np_sum dp0)).
  - apply Hgo. now rewrite length_map.
  - destruct (sign_use =? 1).
    + apply Hgo. now rewrite length_map.
    + apply Hgo. exact L0.
Qed.

Variables (norm_x norm_y : list F) (dx dy d : matrix F) (n1 n2 : nat).
Hypothesis Lnx : length norm_x = n1.
Hypothesis Lny : length norm_y = n1.
Hypothesis Rdx : rectangular dx n1 n2.
Hypothesis Rdy : rectangular dy n1 n2.
Hypothesis Rd : rectangular d n1 n2.

Lemma project_point_returns (sign_use Ix lb rb : Z) (st : match_state F) :
  matching_state n1 n2 st ->
  0 <= Ix < Z.of_nat n1 -> 0 <= lb < rb -> rb <= Z.of_nat n2 ->
  exists st', project_point norm_x norm_y dx dy d sign_use Ix lb rb st = Ok st'
              /\ matching_state n1 n2 st'.
Proof.
  intros (Lm & Ld & Ls & Hq) HIx Hw Hrb.
  assert (E : exists st', project_point norm_x norm_y dx dy d sign_use Ix lb rb st
                          = Ok st').
  { unfold project_point.
    destruct (py_get_in_range norm_x Ix) as (nx & -> & _); [lia|].
    destruct (py_get_in_range norm_y Ix) as (ny & -> & _); [lia|].
    destruct (py_get_row dx n1 n2 Ix Rdx HIx) as (dxr & -> & Lx).
    destruct (py_get_row dy n1 n2 Ix Rdy HIx) as (dyr & -> & Ly).
    destruct (py_get_row d n1 n2 Ix Rd HIx) as (dr & -> & Lr).
    cbn [bind].
    destruct (h__getProjectionIndex_returns nx ny (py_slice dxr lb rb)
                (py_slice dyr lb rb) lb (py_slice dr lb rb) sign_use)
      as (((v & j) & s) & ->).
    - rewrite !py_slice_window by lia. reflexivity.
    - rewrite !py_slice_window by lia. reflexivity.
    - intros E0. apply (f_equal (@length F)) in E0.
      rewrite py_slice_window in E0 by lia. cbn [length] in E0. lia.
    - cbn [bind].
      rewrite (py_set_in_range (all_signs_used st)) by lia. cbn [bind].
      rewrite (py_set_in_range (dp_values st)) by lia. cbn [bind].
      rewrite (py_set_in_range (match_I st)) by lia. cbn [bind].
      eexists. reflexivity. }
  destruct E as (st' & E). exists st'. split; [exact E|].
  pose proof (project_point_lengths _ _ _ _ _ _ _ _ _ _ _ E) as (Lm' & Ls').
  apply project_point_Ok in E; try lia.
  destruct E as (m & v & Hmr & _ & Em & Ev & _).
  unfold matching_state. rewrite Lm', Ls', Ev, upd_length.
  split; [exact Lm|]. split; [exact Ld|]. split; [exact Ls|].
  intros k Hk. rewrite Em, nth_upd.
  destruct ((k =? Z.to_nat Ix)%nat && (Z.to_nat Ix <? length (match_I st))%nat);
    [lia | now apply Hq].
Qed.

Lemma first_pass_returns (bounds : list (Z * Z)) (k : nat) (st : match_state F) :
  matching_state n1 n2 st ->
  (k + length bounds <= n1)%nat ->
  Forall (fun b => 0 <= fst b < snd b /\ snd b <= Z.of_nat n2) bounds ->
  exists st', first_pass norm_x norm_y dx dy d (Z.of_nat k) bounds st = Ok st'
              /\ matching_state n1 n2 st'.
Proof.
  revert k st. induction bounds as [|(lb, rb) bounds IH]; intros k st Hst Hk Hb.
  - exists st. split; [reflexivity | exact Hst].
  - apply Forall_cons_iff in Hb. destruct Hb as ((Hw & Hrb) & Hb').
    cbn [fst snd] in Hw, Hrb. cbn [length] in Hk. cbn [first_pass].
    destruct (project_point_returns 0 (Z.of_nat k) lb rb st Hst) as (st1 & -> & Hst1);
      try lia.
    cbn [bind]. replace (Z.of_nat k + 1) with (Z.of_nat (S k)) by lia.
    apply IH; [exact Hst1 | lia | exact Hb'].
Qed.

Variables (left_I right_I : list Z).
Hypothesis Ll : length left_I = n1.
Hypothesis Lr : length right_I = n1.
Hypothesis Hwin : forall i, (i < n1)%nat ->
                    0 <= nth i left_I 0 < nth i right_I 0
                    /\ nth i right_I 0 <= Z.of_nat n2.

Lemma second_pass_returns (sign_use : Z) (I_bad : list Z) (st : match_state F) :
  matching_state n1 n2 st ->
  Forall (fun i => 0 <= i < Z.of_nat n1) I_bad ->
  exists st', second_pass norm_x norm_y dx dy d left_I right_I sign_use I_bad st
              = Ok st'
              /\ matching_state n1 n2 st'.
Proof.
  intros Hst Hbad. revert st Hst.
  induction Hbad as [|Ix I_bad HIx _ IH]; intros st Hst.
  - exists st. split; [reflexivity | exact Hst].
  - cbn [second_pass].
    destruct (py_get_in_range left_I Ix) as (lb & -> & Nl); [lia|].
    destruct (py_get_in_range right_I Ix) as (rb & -> & Nr); [lia|].
    cbn [bind].
    destruct (Hwin (Z.to_nat Ix)) as (W1 & W2); [lia|].
    rewrite (nth_error_nth _ _ 0 Nl), (nth_error_nth _ _ 0 Nr) in *.
    destruct (project_point_returns sign_use Ix lb rb st Hst) as (st1 & -> & Hst1);
      try lia.
    cbn [bind]. apply IH. exact Hst1.
Qed.

(** With one valid window per point, [h__getMatches] returns, and every
    match it hands on, but for the last, is an index of side 2. *)
Lemma h__getMatches_returns (s1 s2 : side F) :
  length s1 = n1 -> (2 <= n1)%nat ->
  exists dps m,
    h__getMatches s1 s2 norm_x norm_y dx dy d left_I right_I = Ok (dps, m)
    /\ length m = n1
    /\ forall k, (S k < n1)%nat -> 0 <= nth k m 0 < Z.of_nat n2.
Proof.
  intros L1 Hn. unfold h__getMatches. rewrite L1.
  assert (Hn2 : 0 < Z.of_nat n2) by (destruct (Hwin O); lia).
  rewrite (py_set_in_range (repeat 0 n1) 0 0) by (rewrite repeat_length; lia).
  cbn [bind].
  set (m0 := upd (Z.to_nat 0) 0 (repeat 0 n1)).
  assert (Lm0 : length m0 = n1) by (unfold m0; now rewrite upd_length, repeat_length).
  assert (E1 : py_set m0 (-1) (Z.of_nat (length s2))
               = Ok (upd (n1 - 1) (Z.of_nat (length s2)) m0)).
  { unfold py_set. rewrite Lm0, py_norm_minus_one by lia. reflexivity. }
  rewrite E1. cbn [bind].
  set (st0 := mkMatch _ _ _).
  assert (Hst0 : matching_state n1 n2 st0).
  { unfold matching_state, st0; cbn [match_I dp_values all_signs_used].
    rewrite upd_length, Lm0, !repeat_length.
    split; [reflexivity|]. split; [reflexivity|]. split; [reflexivity|].
    intros k Hk. rewrite nth_upd.
    replace (k =? n1 - 1)%nat with false by (symmetry; apply Nat.eqb_neq; lia).
    cbn [andb]. unfold m0. rewrite nth_upd.
    destruct (_ && _); [lia|].
    rewrite nth_repeat. lia. }
  destruct (inner_bounds left_I right_I n1 Ll Lr) as (LB & HB).
  set (B := combine (py_slice left_I 1 (-1)) (py_slice right_I 1 (-1))) in *.
  assert (PB : Forall (fun b => 0 <= fst b < snd b /\ snd b <= Z.of_nat n2) B).
  { apply Forall_nth. intros j dflt Hj. rewrite (nth_indep _ dflt (0, 0)) by exact Hj.
    rewrite HB by lia. cbn [fst snd]. apply Hwin. lia. }
  destruct (first_pass_returns B 1 st0 Hst0) as (st1 & Ef & Hst1);
    [lia | exact PB |].
  change (Z.of_nat 1) with 1 in Ef. rewrite Ef. cbn [bind].
  destruct Hst1 as (Lm1 & Ld1 & Ls1 & Hq1).
  destruct (py_get_in_range (all_signs_used st1) 1) as (sign1 & -> & _);
    [lia|].
  cbn [bind].
  assert (Hbad : forall f : Z -> bool,
             Forall (fun i => 0 <= i < Z.of_nat n1)
               (map (fun i => i + 1)
                    (find (map f (py_slice (all_signs_used st1) 1 (-1)))))).
  { intros f. apply Forall_map.
    eapply Forall_impl; [|apply find_from_range]. cbn beta.
    intros i Hi. rewrite length_map, py_slice_length in Hi.
    rewrite py_clip_neg, py_clip_nonneg in Hi by lia. lia. }
  assert (H2 : exists st2,
             (if negb (forallb (fun s => s =? sign1)
                         (py_slice (all_signs_used st1) 1 (-1)))
              then
                if 0 <? fold_left Z.add (all_signs_used st1) 0
                then second_pass norm_x norm_y dx dy d left_I right_I 1
                       (map (fun i => i + 1)
                          (find (map (fun s => negb (s =? 1))
                                   (py_slice (all_signs_used st1) 1 (-1)))))
                       st1
                else second_pass norm_x norm_y dx dy d left_I right_I (-1)
                       (map (fun i => i + 1)
                          (find (map (fun s => negb (s =? -1))
                                   (py_slice (all_signs_used st1) 1 (-1)))))
                       st1
              else Ok st1) = Ok st2 /\ matching_state n1 n2 st2).
  { assert (Hst1 : matching_state n1 n2 st1).
    { split; [exact Lm1|]. split; [exact Ld1|]. split; [exact Ls1 | exact Hq1]. }
    destruct (negb (forallb _ _)); [|eauto].
    destruct (0 <? _); apply second_pass_returns; auto. }
  destruct H2 as (st2 & -> & (Lm2 & _ & _ & Hq2)). cbn [bind].
  exists (dp_values st2), (match_I st2).
  split; [reflexivity|]. split; [exact Lm2 | exact Hq2].
Qed.

End MatchesReturn.

(** ** The matrices across the worm *)

Section Rectangles.
Context {F : Type} {NF : NumOps F}.

Lemma across_rectangular (coord : F * F -> F) (s1 s2 : side F) :
  rectangular (across coord s1 s2) (length s1) (length s2).
Proof.
  unfold rectangular, across. split; [apply length_map|].
  apply Forall_map, Forall_forall. intros p _. apply length_map.
Qed.

Lemma mat_map2_rectangular (f : F -> F -> F) (a b : matrix F) (n1 n2 : nat) :
  rectangular a n1 n2 -> rectangular b n1 n2 ->
  rectangular (mat_map2 f a b) n1 n2.
Proof.
  intros (La & Ha) (Lb & Hb). unfold rectangular, mat_map2. split.
  - rewrite map2_length; congruence.
  - unfold map2 at 1. apply Forall_map, Forall_forall. intros (ra & rb) Hin.
    cbn [fst snd]. rewrite Forall_forall in Ha, Hb.
    rewrite map2_length.
    + apply Ha. eapply in_combine_l; eauto.
    + rewrite (Ha ra), (Hb rb); [reflexivity | |];
        [eapply in_combine_r | eapply in_combine_l]; eauto.
Qed.

End Rectangles.

(** ** The search windows over the reals *)

(** The window of one point of side 1, over the reals: for a fraction [p]
    of the way along side 1, the clipped bounds are in order and inside
    side 2. *)
Lemma window_of_fraction (n2 : nat) (p_left p_right p : R) :
  (2 <= n2)%nat ->
  (1 < p_left * IZR (Z.of_nat n2))%R -> (0 < p_right)%R -> (0 <= p <= 1)%R ->
  let l := Int_part ((p - p_left) * IZR (Z.of_nat n2)) in
  let r := - Int_part (- ((p + p_right) * IZR (Z.of_nat n2))) in
  0 <= (if l <? 0 then 0 else l)
     < (if Z.of_nat n2 <=? r then Z.of_nat n2 - 1 else r)
  /\ (if Z.of_nat n2 <=? r then Z.of_nat n2 - 1 else r) <= Z.of_nat n2 - 1.
Proof.
  intros Hn2 Hl Hr Hp l r.
  set (N := IZR (Z.of_nat n2)) in *.
  assert (HN : (2 <= N)%R) by (unfold N; apply IZR_le; lia).
  destruct (Int_part_floor ((p - p_left) * N)) as (F1 & F2). fold l in F1, F2.
  destruct (R_ceil ((p + p_right) * N)) as (C1 & C2). fold r in C1, C2.
  assert (Hlr : l < r).
  { apply lt_IZR. apply Rle_lt_trans with ((p - p_left) * N)%R; [exact F1|].
    apply Rlt_le_trans with ((p + p_right) * N)%R; [|exact C1]. nra. }
  assert (Hln : l < Z.of_nat n2 - 1).
  { apply lt_IZR. rewrite minus_IZR. fold N.
    apply Rle_lt_trans with ((p - p_left) * N)%R; [exact F1|]. nra. }
  assert (Hr0 : 0 < r).
  { apply lt_IZR. apply Rlt_le_trans with ((p + p_right) * N)%R; [|exact C1]. nra. }
  destruct (l <? 0) eqn:El; destruct (Z.of_nat n2 <=? r) eqn:Er;
    try apply Z.ltb_lt in El; try apply Z.ltb_ge in El;
    try apply Z.leb_le in Er; try apply Z.leb_gt in Er; lia.
Qed.

Lemma nth_map_in {A B} (f : A -> B) (l : list A) (i : nat) (d : B) (d' : A) :
  (i < length l)%nat -> nth i (map f l) d = f (nth i l d').
Proof.
  intros H. rewrite (nth_indep _ d (f d')) by (rewrite length_map; exact H).
  apply map_nth.
Qed.

Lemma h__getBounds_windows (n1 n2 : nat) (p_left p_right : R) :
  (2 <= n2)%nat ->
  (1 < p_left * IZR (Z.of_nat n2))%R -> (0 < p_right)%R ->
  forall left_I right_I,
    h__getBounds n1 n2 p_left p_right = (left_I, right_I) ->
    length left_I = n1 /\ length right_I = n1
    /\ forall i, (i < n1)%nat ->
         0 <= nth i left_I 0 < nth i right_I 0
         /\ nth i right_I 0 <= Z.of_nat n2.
Proof.
  intros Hn2 Hl Hr left_I right_I E. unfold h__getBounds in E.
  inversion E; subst; clear E.
  rewrite !length_map, !linspace_length.
  split; [reflexivity|]. split; [reflexivity|].
  intros i Hi. rewrite !map_map.
  pose proof (linspace_unit_range n1) as Hall. cbn [of_Z R_ops] in Hall.
  set (pct := linspace 0%R 1%R n1) in *.
  assert (Lp : length pct = n1) by apply linspace_length.
  assert (Hp : (0 <= nth i pct 0 <= 1)%R).
  { rewrite Forall_forall in Hall. apply Hall, nth_In. lia. }
  rewrite !(nth_map_in _ pct i 0 0%R) by lia.
  cbn [fadd fsub fmul of_Z ffloor fceil R_ops].
  pose proof (window_of_fraction n2 p_left p_right (nth i pct 0%R) Hn2 Hl Hr Hp) as W.
  cbv zeta in W. lia.
Qed.

(** ** The order pass and the widths *)

Lemma ordering_repair_returns (I_1 I_2 : list Z) (n1 n2 : nat) :
  length I_1 = length I_2 -> (2 <= length I_2)%nat ->
  Forall (fun i => 0 <= i < Z.of_nat n1) I_1 ->
  Forall (fun i => 0 <= i < Z.of_nat n2) I_2 ->
  exists R_1 R_2,
    ordering_repair I_1 I_2 = Ok (R_1, R_2)
    /\ Forall (fun i => 0 <= i < Z.of_nat n1) R_1
    /\ Forall (fun i => 0 <= i < Z.of_nat n2) R_2.
Proof.
  intros Hlen H2 V1 V2.
  pose proof (ordering_repair_is_three_point_filter I_1 I_2 Hlen H2) as E.
  do 2 eexists. split; [exact E|].
  unfold ordering_repair in E.
  apply bind_Ok in E. destruct E as (R_1 & E1 & E).
  apply bind_Ok in E. destruct E as (R_2 & E2 & E).
  inversion E as [[X1 X2]]. rewrite <- X1, <- X2.
  split; eapply mask_select_Forall; eauto.
Qed.

Section FinalizeReturns.
Context {F : Type} {NF : NumOps F}.

Lemma finalize_returns (s1 s2 : side F) (I_1 I_2 : list Z) :
  Forall (fun i => 0 <= i < Z.of_nat (length s1)) I_1 ->
  Forall (fun i => 0 <= i < Z.of_nat (length s2)) I_2 ->
  exists r, finalize s1 s2 I_1 I_2 = Ok r.
Proof.
  intros V1 V2. unfold finalize.
  destruct (py_take_total s1 I_1 V1) as (ps & -> & _).
  destruct (py_take_total s2 I_2 V2) as (qs & -> & _).
  cbn [bind]. eauto.
Qed.

End FinalizeReturns.

(** ** The filter on a straight row, over the reals *)

Lemma sg_from_third_cons {F : Type} {NF : NumOps F}
      (a b c d0 e f : F) (rest : list F) :
  sg_from_third (a :: b :: c :: d0 :: e :: f :: rest)
  = sg_centre a b c d0 e :: sg_from_third (b :: c :: d0 :: e :: f :: rest).
Proof. reflexivity. Qed.

(** Values that grow by one and the same step [h] from one index to the
    next: each least-squares cubic goes through them. *)
Lemma sg_from_third_affine (f : Z -> R) (h : R) :
  (forall i, f (i + 1) = (f i + h)%R) ->
  forall (m : nat) (k : Z),
    sg_from_third (map f (zrange_from k (5 + m)))
    = map f (zrange_from (k + 1 + 1) (3 + m)).
Proof.
  intros Hf. induction m as [|m IH]; intros k.
  - cbn [Nat.add zrange_from map sg_from_third].
    unfold sg_centre, sg_fourth, sg_last, sg_second, sg_first.
    cbn [fadd fsub fmul fdiv of_Z R_ops]. rewrite !Hf.
    repeat (f_equal; try lra).
  - change (5 + S m)%nat with (S (5 + m)).
    assert (E : forall n, zrange_from k (S (5 + n))
                          = k :: k + 1 :: k + 1 + 1 :: k + 1 + 1 + 1
                              :: k + 1 + 1 + 1 + 1 :: k + 1 + 1 + 1 + 1 + 1
                              :: zrange_from (k + 1 + 1 + 1 + 1 + 1 + 1) n)
      by reflexivity.
    rewrite E. cbn [map]. rewrite sg_from_third_cons.
    specialize (IH (k + 1)).
    assert (E' : zrange_from (k + 1) (5 + m)
                 = k + 1 :: k + 1 + 1 :: k + 1 + 1 + 1 :: k + 1 + 1 + 1 + 1
                     :: k + 1 + 1 + 1 + 1 + 1
                     :: zrange_from (k + 1 + 1 + 1 + 1 + 1 + 1) m)
      by reflexivity.
    rewrite E' in IH. cbn [map] in IH. rewrite IH.
    change (3 + S m)%nat with (S (3 + m)). cbn [zrange_from map]. f_equal.
    unfold sg_centre. cbn [fadd fsub fmul fdiv of_Z R_ops]. rewrite !Hf. lra.
Qed.

Lemma savgol_reproduces_affine (f : Z -> R) (h : R) (m : nat) :
  (forall i, f (i + 1) = (f i + h)%R) ->
  savgol_filter_5_3 (map f (zrange_from 0 (5 + m))) 5 SMOOTHING_ORDER
  = Ok (map f (zrange_from 0 (5 + m))).
Proof.
  intros Hf. unfold savgol_filter_5_3, SMOOTHING_ORDER. cbn [Z.eqb Pos.eqb andb].
  pose proof (sg_from_third_affine f h Hf m 0) as E.
  change (5 + m)%nat with (S (S (S (S (S m))))) in *.
  cbn [zrange_from map] in *. rewrite E. do 2 f_equal.
  - unfold sg_first. cbn [fadd fsub fmul fdiv of_Z R_ops]. rewrite !Hf. lra.
  - f_equal. unfold sg_second. cbn [fadd fsub fmul fdiv of_Z R_ops].
    rewrite !Hf. lra.
Qed.

(** The smoothing step leaves a straight side of 60 evenly spaced points as
    it is. *)
Lemma level_line_is_reproduced (y : R) :
  smooth_in_place savgol_filter_5_3 round_to_odd_60 (level_line y 60)
  = (level_line y 60, Ok tt).
Proof.
  assert (Ex : map fst (level_line y 60) = map IZR (zrange_from 0 (5 + 55))).
  { unfold level_line. rewrite map_map. reflexivity. }
  assert (Ey : map snd (level_line y 60) = map (fun _ => y) (zrange_from 0 (5 + 55))).
  { unfold level_line. rewrite map_map. reflexivity. }
  assert (Hx : savgol_filter_5_3 (map fst (level_line y 60)) 5 SMOOTHING_ORDER
               = Ok (map fst (level_line y 60))).
  { rewrite Ex. apply (savgol_reproduces_affine IZR 1). intros i. apply plus_IZR. }
  assert (Hy : savgol_filter_5_3 (map snd (level_line y 60)) 5 SMOOTHING_ORDER
               = Ok (map snd (level_line y 60))).
  { rewrite Ey. apply (savgol_reproduces_affine (fun _ => y) 0). intros i. lra. }
  assert (L : length (level_line y 60) = 60%nat)
    by (unfold level_line; now rewrite length_map, zrange_from_length).
  unfold smooth_in_place, round_to_odd_60.
  rewrite Hx. cbn [bind]. unfold set_row0.
  rewrite length_map, Nat.eqb_refl, combine_fst_snd.
  rewrite Hy. cbn [bind]. unfold set_row1.
  rewrite length_map, Nat.eqb_refl, combine_fst_snd. reflexivity.
Qed.

Lemma level_line_length (y : R) (n : nat) : length (level_line y n) = n.
Proof. unfold level_line. now rewrite length_map, zrange_from_length. Qed.

(** [ceil(60 * 0.15) = 9] *)
Lemma walk_extent_60 :
  fceil (fmul (of_Z (Z.of_nat 60)) (END_S1_WALK_PCT (F:=R))) = 9.
Proof.
  unfold fceil, fmul, of_Z, END_S1_WALK_PCT, fdiv, R_ops.
  simpl Z.of_nat. unfold Int_part.
  match goal with
  | |- context [up ?r] =>
      assert (H : up r = -8) by (symmetry; apply tech_up; simpl; lra)
  end.
  rewrite H. reflexivity.
Qed.

(** ** A whole frame turn *)

Section FrameReturns.
Variable sgolay : list R -> Z -> Z -> result (list R).
Variable round_to_odd : R -> Z.
Variable compute_normal_vectors : side R -> result (list R * list R).

(** Over the reals: given one normal per point of side 1, the matching of
    a frame returns when the end walks fit into the two sides and into the
    pair buffers, and the pairs it retains are indices of the two sides. *)
Lemma retained_pairs_returns (s1 s2 : side R) (nx ny : list R) (w : Z) :
  compute_normal_vectors s1 = Ok (nx, ny) ->
  length nx = length s1 -> length ny = length s1 ->
  fceil (fmul (of_Z (Z.of_nat (length s1))) (END_S1_WALK_PCT (F:=R))) = w ->
  3 <= w -> w < Z.of_nat (length s1) -> 2 * w < Z.of_nat (length s2) ->
  3 * w <= 201 ->
  exists I_1 I_2,
    retained_pairs compute_normal_vectors s1 s2 = Ok (I_1, I_2)
    /\ Forall (fun i => 0 <= i < Z.of_nat (length s1)) I_1
    /\ Forall (fun i => 0 <= i < Z.of_nat (length s2)) I_2.
Proof.
  intros Hn Lnx Lny Hw W3 Wn1 Wn2 Wroom. unfold retained_pairs.
  set (d := cross_distances s1 s2).
  assert (Rd : rectangular d (length s1) (length s2))
    by apply cross_distances_rectangular.
  assert (Rx : rectangular (mat_map2 fdiv (across fst s1 s2) d)
                           (length s1) (length s2))
    by (apply mat_map2_rectangular; [apply across_rectangular | exact Rd]).
  assert (Ry : rectangular (mat_map2 fdiv (across snd s1 s2) d)
                           (length s1) (length s2))
    by (apply mat_map2_rectangular; [apply across_rectangular | exact Rd]).
  destruct (h__getBounds (length s1) (length s2) PERCENT_BACK_SEARCH
                         PERCENT_FORWARD_SEARCH) as (left_I & right_I) eqn:Eb.
  apply h__getBounds_windows in Eb.
  - destruct Eb as (Ll & Lr & Hwin).
    rewrite Hn. cbn [bind].
    destruct (h__getMatches_returns nx ny _ _ d (length s1) (length s2)
                Lnx Lny Rx Ry Rd left_I right_I Ll Lr Hwin s1 s2 eq_refl)
      as (dps & m & -> & Lm & Hm); [lia|].
    cbn [bind]. unfold pairs_after_matching.
    destruct (h__updateEndsByWalking_returns d m s1 s2 END_S1_WALK_PCT
                (length s1) (length s2) w Rd eq_refl eq_refl Lm Hw W3 Wn1 Wn2
                Wroom Hm)
      as (I_1 & I_2 & Hu & V1 & V2).
    rewrite Hu. cbn [bind].
    assert (Hm2 : (2 <= length m)%nat) by lia.
    destruct (h__updateEndsByWalking_ends _ _ _ _ _ _ _ Hm2 Hu)
      as (A & B & E1 & E2 & LAB).
    destruct (ordering_repair_returns I_1 I_2 (length s1) (length s2))
      as (R_1 & R_2 & -> & VR1 & VR2); try assumption.
    + rewrite E1, E2. cbn [length]. rewrite !length_app. cbn [length]. lia.
    + rewrite E2. cbn [length]. rewrite length_app. cbn [length]. lia.
    + exists R_1, R_2. auto.
  - lia.
  - unfold PERCENT_BACK_SEARCH. cbn [fdiv of_Z R_ops].
    assert (7 <= IZR (Z.of_nat (length s2)))%R by (apply IZR_le; lia). lra.
  - unfold PERCENT_FORWARD_SEARCH. cbn [fdiv of_Z R_ops]. lra.
Qed.

(** Over the reals: a frame whose two sides come out of the smoothing step
    as [s1] and [s2], with one normal per point of [s1] and end walks that
    fit, yields widths and a skeleton. *)
Lemma frame_turn_returns (a1 a2 s1 s2 : side R) (nx ny : list R) (w : Z) :
  smooth_in_place sgolay round_to_odd a1 = (s1, Ok tt) ->
  smooth_in_place sgolay round_to_odd a2 = (s2, Ok tt) ->
  compute_normal_vectors s1 = Ok (nx, ny) ->
  length nx = length s1 -> length ny = length s1 ->
  fceil (fmul (of_Z (Z.of_nat (length s1))) (END_S1_WALK_PCT (F:=R))) = w ->
  3 <= w -> w < Z.of_nat (length s1) -> 2 * w < Z.of_nat (length s2) ->
  3 * w <= 201 ->
  exists ws sk,
    frame_turn sgolay round_to_odd compute_normal_vectors (Some a1) (Some a2)
    = ((Some s1, Some s2), Ok (Some (ws, sk))).
Proof.
  intros H1 H2 Hn Lnx Lny Hw W3 Wn1 Wn2 Wroom. unfold frame_turn.
  rewrite H1, H2. unfold skeleton_of_smoothed.
  destruct (retained_pairs_returns s1 s2 nx ny w) as (I_1 & I_2 & -> & V1 & V2);
    try assumption.
  cbn [bind].
  destruct (finalize_returns s1 s2 I_1 I_2 V1 V2) as ((ws & sk) & ->).
  cbn [bind]. exists ws, sk. reflexivity.
Qed.

End FrameReturns.

(** C7 on a frame of two straight sides of 60 points, over the reals. *)
Lemma widths_match_retained_pairs_witness :
  exists I_1 I_2 w sk,
    frame_turn savgol_filter_5_3 round_to_odd_60 normals_of_straight
               (Some (level_line 0 60)) (Some (level_line 1 60))
    = ((Some (level_line 0 60), Some (level_line 1 60)), Ok (Some (w, sk)))
    /\ retained_pairs normals_of_straight (level_line 0 60) (level_line 1 60)
       = Ok (I_1, I_2)
    /\ length sk = length I_1 /\ length w = length I_1
    /\ (2 <= length I_1)%nat
    /\ forall k, (k < length I_1)%nat ->
         exists x1 y1 x2 y2,
           py_get (level_line 0 60) (nth k I_1 0) = Ok (x1, y1)
           /\ py_get (level_line 1 60) (nth k I_2 0) = Ok (x2, y2)
           /\ nth k w 0%R
              = sqrt ((x2 - x1) * (x2 - x1) + (y2 - y1) * (y2 - y1))
           /\ (0 <= nth k w 0)%R.
Proof.
  destruct (frame_turn_returns savgol_filter_5_3 round_to_odd_60 normals_of_straight
              (level_line 0 60) (level_line 1 60) (level_line 0 60) (level_line 1 60)
              _ _ 9 (level_line_is_reproduced 0) (level_line_is_reproduced 1) eq_refl)
    as (w & sk & H);
    rewrite ?length_map, ?level_line_length; try lia; try exact walk_extent_60.
  destruct (widths_match_retained_pairs _ _ _ _ _ _ _ _ _ H)
    as (s1' & s2' & I_1 & I_2 & E1 & E2 & Hpairs & _ & Lsk & Lw & L2 & Hall).
  inversion E1; inversion E2; subst s1' s2'.
  exists I_1, I_2, w, sk.
  split; [exact H|]. split; [exact Hpairs|]. split; [exact Lsk|].
  split; [exact Lw|]. split; [exact L2 | exact Hall].
Defined.
